(** * awake-lock: the fallback-strategy orchestration engine

    A shallow embedding of the TypeScript sources

      - [src/types.ts]                      (types, [WakeLockError], and the [WakeLock] orchestrator)
      - [src/strategies/*.ts]               (the four capability strategies and their sentinels)
      - [src/PermissionManager.ts]          (permission cache and passive-mode heuristics)
      - [src/PerformanceMonitor.ts]         (battery / performance monitor)
      - [src/utils/helpers.ts]              (environment probes)

    Objects with identity (sentinels, native platform sentinels, strategy
    instances) live in a store indexed by object identifiers; closures are
    represented by the data they capture.  Every [async] function is
    embedded as a state transformer that runs to completion: the await
    points of one operation are not interleaved with other operations,
    which is the "single logical thread of control" reading of the
    library.  Everything the host platform decides (whether an acquisition
    succeeds, what the Permissions API answers, whether a native
    [release()] rejects, the battery state) is read from an environment
    record, indexed by a counter of platform interactions, so that every
    sequence of platform answers can be expressed and every definition can
    be evaluated.  Console output is not modelled. *)

From Stdlib Require Import ZArith QArith.
From stdpp Require Import base option list strings gmap.

Local Open Scope string_scope.
Local Open Scope list_scope.
Local Open Scope Z_scope.

(** ** Values of [src/types.ts] *)

Inductive WakeLockType := screen | system.

Inductive PermissionState := granted | denied | prompt.

Inductive WakeLockErrorCode :=
| NOT_SUPPORTED
| PERMISSION_DENIED
| INVALID_STATE
| TIMEOUT
| BATTERY_LOW
| STRATEGY_FAILED
| UNKNOWN.

(** [class WakeLockError extends Error]; [originalError] is kept only by
    its presence in the constructor calls and is not observed anywhere. *)
Record WakeLockError := mkWakeLockError {
  err_message : string;
  err_code : WakeLockErrorCode;
  err_strategy : option string
}.

(** What a JavaScript [throw] can carry here: a [WakeLockError], some
    other [Error] (with its [name] and [message]), or a non-[Error] value. *)
Inductive Thrown :=
| ThrownWakeLockError (e : WakeLockError)
| ThrownError (name message : string)
| ThrownValue.

(** An optional property of an options object: absent, present with the
    value [undefined], or present with a value.  The distinction matters
    for the object spread in [WakeLock.request]. *)
Inductive Field (A : Type) :=
| Absent
| Undefined
| Present (a : A).
Arguments Absent {A}.
Arguments Undefined {A}.
Arguments Present {A} a.

(** [f ?? d] *)
Definition nullish {A} (f : Field A) (d : A) : A :=
  match f with Present a => a | _ => d end.

(** The property [p] of [{ p: base, ...o }]: an own property of [o] wins,
    also when its value is [undefined]. *)
Definition spread {A} (base : Field A) (o : Field A) : Field A :=
  match o with Absent => base | _ => o end.

(** Truthiness of an optional boolean property. *)
Definition truthy (f : Field bool) : bool :=
  match f with Present b => b | _ => false end.

(** [interface RequestOptions]; the [AbortSignal] is a platform object
    whose effect is part of the platform's answer to an acquisition. *)
Record RequestOptions := mkRequestOptions {
  ro_passive : Field bool;
  ro_timeout : Field Z;
  ro_retryAttempts : Field Z
}.

Definition noOptions : RequestOptions := mkRequestOptions Absent Absent Absent.

(** [interface PerformanceMetrics] *)
Record PerformanceMetrics := mkMetrics {
  cpuUsage : Q;
  memoryUsage : Z;
  batteryDrain : Q;
  timestamp : Z
}.

(** [interface WakeLockEvents]: the payloads of the notification channels. *)
Inductive WakeLockEvent :=
| enabled (ty : WakeLockType) (strategy : string)
| disabled (ty : WakeLockType) (reason : string)
| error (e : WakeLockError)
| performance (m : PerformanceMetrics)
| fallback (from to reason : string)
| battery_change (level : Q) (charging : bool)
| visibility_change (hidden : bool) (action : string).

(** ** Strategy classes *)

Inductive StrategyClass :=
| ScreenWakeLockStrategy
| VideoElementStrategy
| AudioContextStrategy
| TimerStrategy.

Definition className (c : StrategyClass) : string :=
  match c with
  | ScreenWakeLockStrategy => "screen-wake-lock"
  | VideoElementStrategy => "video-element"
  | AudioContextStrategy => "audio-context"
  | TimerStrategy => "timer"
  end.

Definition classPriority (c : StrategyClass) : Z :=
  match c with
  | ScreenWakeLockStrategy => 1
  | VideoElementStrategy => 2
  | AudioContextStrategy => 3
  | TimerStrategy => 4
  end.

(** ** Objects *)

(** Object identities and the identifiers made by [generateUniqueId]. *)
Definition ObjId := nat.
Definition Key := nat.

(** A release listener is a function object.  Two kinds exist: a callback
    of the library's user, which is opaque (it is recorded when it runs and
    it may throw), and the [onRelease] closure that
    [WakeLock.setupSentinelListeners] builds around a sentinel. *)
Inductive Listener :=
| UserListener (id : nat) (throws : bool)
| OnRelease (sentinel : ObjId).

Global Instance Listener_eq_dec : EqDecision Listener.
Proof. solve_decision. Defined.

(** [interface InternalWakeLockSentinel], as the object literals of the
    four [createSentinel] / [createWrappedSentinel] functions build it.
    [s_class] tells which literal it is (which [release] closure it
    carries); [s_key] is the [sentinelId] captured by the closures of the
    video, audio and timer sentinels, [s_native] the [nativeSentinel]
    captured by a wrapped sentinel. *)
Record Sentinel := mkSentinel {
  s_type : WakeLockType;
  s_strategy : ObjId;
  s_releaseListeners : list Listener;
  s_released : bool;
  s_class : StrategyClass;
  s_key : Key;
  s_native : ObjId
}.

(** Listeners on a platform sentinel: the anonymous function that
    [createWrappedSentinel] installs for its wrapper, and the listeners the
    wrapper forwards. *)
Inductive NativeListener :=
| NativeAnon (wrapped : ObjId)
| NativeForward (l : Listener).

Global Instance NativeListener_eq_dec : EqDecision NativeListener.
Proof. solve_decision. Defined.

(** The platform's own [WakeLockSentinel] (an [EventTarget]). *)
Record NativeSentinel := mkNative {
  n_type : WakeLockType;
  n_released : bool;
  n_listeners : list NativeListener
}.

(** A strategy instance.  [activeSentinels] is the [Set] of
    [ScreenWakeLockStrategy]; [activeEntries] is the [Map] from sentinel
    identifier to entry of the other three classes ([activeElements],
    [activeContexts], [activeTimers]), of which only the [sentinel] field
    is kept: the media element, audio graph, worker and interval handles
    are platform resources.  Both are in insertion order, as in JavaScript. *)
Record Strategy := mkStrategy {
  cls : StrategyClass;
  activeSentinels : list ObjId;
  activeEntries : list (Key * ObjId)
}.

(** The platform's [BatteryManager]. *)
Record BatteryManager := mkBattery {
  level : Q;
  charging : bool;
  onlevelchange : bool;
  onchargingchange : bool
}.

(** ** The environment

    Static facts about the host, and the host's answers.  The answers are
    indexed by [tick], the number of platform interactions so far. *)
Record Env := mkEnv {
  (** [typeof window === 'undefined' || typeof document === 'undefined'] *)
  env_ssr : bool;
  (** ['wakeLock' in navigator && typeof navigator.wakeLock?.request === 'function'] *)
  env_wakeLock : bool;
  (** [navigator.wakeLock] is a truthy value whose [request] is not a
      function; it matters only where [env_wakeLock] is [false] *)
  env_wakeLockStub : bool;
  (** a video element can play mp4 and [MediaSource] exists *)
  env_video : bool;
  (** [AudioContext] or [webkitAudioContext] is a function *)
  env_audio : bool;
  (** ['permissions' in navigator && typeof navigator.permissions?.query === 'function'] *)
  env_permissions : bool;
  (** [window !== window.top] *)
  env_iframe : bool;
  (** [document.hasFocus()] *)
  env_hasFocus : bool;
  (** the user agent matches the mobile pattern *)
  env_mobile : bool;
  (** reading one of the heuristics' inputs throws *)
  env_heuristicsThrow : bool;
  (** the platform's sentinel fires its [release] event when [release()]
      is called on it, as the Screen Wake Lock API prescribes *)
  env_nativeFires : bool;
  (** the platform part of an acquisition: [None] when it succeeds, the
      thrown value when it fails (a rejection, the timeout or the abort
      signal winning the race, a DOM error) *)
  env_acquire : nat -> StrategyClass -> option Thrown;
  (** [nativeSentinel.release()] rejects *)
  env_nativeRelease : nat -> option Thrown;
  (** [navigator.permissions.query({ name })]: [None] when it rejects *)
  env_query : nat -> string -> option PermissionState;
  (** a sample taken by [collectMetrics] *)
  env_metrics : nat -> PerformanceMetrics
}.

(** What happened, in order: notifications emitted by the orchestrator,
    calls of a strategy's [request], calls of user release listeners, and
    queries of the platform's permission state. *)
Inductive Effect :=
| Emit (e : WakeLockEvent)
| StrategyRequest (k : ObjId) (ty : WakeLockType)
| ListenerCall (id : nat)
| PermissionQuery (name : string).

(** [class PermissionManager] *)
Record PermissionManager := mkPermissionManager {
  permissionCache : gmap string PermissionState;
  cacheTimestamps : gmap string Z
}.

(** [class PerformanceMonitor]; [pm_battery] tells whether [this.battery]
    holds the platform's battery object, [pm_timer] whether
    [this.monitoringTimer] is set, [pm_inThrottle] is the flag of the
    [throttle] closure around the [performance] emission. *)
Record PerformanceMonitor := mkPerformanceMonitor {
  pm_enabled : bool;
  pm_batteryThreshold : Q;
  pm_performanceThreshold : Q;
  pm_timer : bool;
  pm_battery : bool;
  pm_lastMetrics : option PerformanceMetrics;
  pm_isMonitoring : bool;
  pm_inThrottle : bool
}.

(** [interface WakeLockOptions], after the constructor filled the defaults. *)
Record WakeLockOptions := mkWakeLockOptions {
  opt_debug : bool;
  opt_batteryOptimization : bool;
  opt_performanceMonitoring : bool;
  opt_passive : bool
}.

(** [class WakeLock]: the private fields. *)
Record WakeLock := mkWakeLock {
  options : WakeLockOptions;
  strategies : list ObjId;
  activeSentinel : option ObjId;
  currentStrategy : option ObjId;
  isReleasing : bool
}.

(** ** The state of the whole system *)
Record Sys := mkSys {
  env : Env;
  tick : nat;
  clock : Z;                        (* Date.now() *)
  docHidden : bool;                 (* document.visibilityState === 'hidden' *)
  battery : option BatteryManager;  (* what navigator.getBattery() resolves to *)
  nextObj : ObjId;
  nextKey : Key;
  sentinels : gmap ObjId Sentinel;
  natives : gmap ObjId NativeSentinel;
  strategyObjs : ObjId -> Strategy;
  permissionManager : PermissionManager;
  performanceMonitor : PerformanceMonitor;
  wl : WakeLock;
  trace : list Effect
}.

(** Field updates. *)

Definition set_tick (v : nat) (st : Sys) : Sys :=
  mkSys (env st) v (clock st) (docHidden st) (battery st) (nextObj st) (nextKey st) (sentinels st) (natives st) (strategyObjs st) (permissionManager st) (performanceMonitor st) (wl st) (trace st).

Definition set_clock (v : Z) (st : Sys) : Sys :=
  mkSys (env st) (tick st) v (docHidden st) (battery st) (nextObj st) (nextKey st) (sentinels st) (natives st) (strategyObjs st) (permissionManager st) (performanceMonitor st) (wl st) (trace st).

Definition set_docHidden (v : bool) (st : Sys) : Sys :=
  mkSys (env st) (tick st) (clock st) v (battery st) (nextObj st) (nextKey st) (sentinels st) (natives st) (strategyObjs st) (permissionManager st) (performanceMonitor st) (wl st) (trace st).

Definition set_battery (v : option BatteryManager) (st : Sys) : Sys :=
  mkSys (env st) (tick st) (clock st) (docHidden st) v (nextObj st) (nextKey st) (sentinels st) (natives st) (strategyObjs st) (permissionManager st) (performanceMonitor st) (wl st) (trace st).

Definition set_nextObj (v : ObjId) (st : Sys) : Sys :=
  mkSys (env st) (tick st) (clock st) (docHidden st) (battery st) v (nextKey st) (sentinels st) (natives st) (strategyObjs st) (permissionManager st) (performanceMonitor st) (wl st) (trace st).

Definition set_nextKey (v : Key) (st : Sys) : Sys :=
  mkSys (env st) (tick st) (clock st) (docHidden st) (battery st) (nextObj st) v (sentinels st) (natives st) (strategyObjs st) (permissionManager st) (performanceMonitor st) (wl st) (trace st).

Definition set_sentinels (v : gmap ObjId Sentinel) (st : Sys) : Sys :=
  mkSys (env st) (tick st) (clock st) (docHidden st) (battery st) (nextObj st) (nextKey st) v (natives st) (strategyObjs st) (permissionManager st) (performanceMonitor st) (wl st) (trace st).

Definition set_natives (v : gmap ObjId NativeSentinel) (st : Sys) : Sys :=
  mkSys (env st) (tick st) (clock st) (docHidden st) (battery st) (nextObj st) (nextKey st) (sentinels st) v (strategyObjs st) (permissionManager st) (performanceMonitor st) (wl st) (trace st).

Definition set_strategyObjs (v : ObjId -> Strategy) (st : Sys) : Sys :=
  mkSys (env st) (tick st) (clock st) (docHidden st) (battery st) (nextObj st) (nextKey st) (sentinels st) (natives st) v (permissionManager st) (performanceMonitor st) (wl st) (trace st).

Definition set_permissionManager (v : PermissionManager) (st : Sys) : Sys :=
  mkSys (env st) (tick st) (clock st) (docHidden st) (battery st) (nextObj st) (nextKey st) (sentinels st) (natives st) (strategyObjs st) v (performanceMonitor st) (wl st) (trace st).

Definition set_performanceMonitor (v : PerformanceMonitor) (st : Sys) : Sys :=
  mkSys (env st) (tick st) (clock st) (docHidden st) (battery st) (nextObj st) (nextKey st) (sentinels st) (natives st) (strategyObjs st) (permissionManager st) v (wl st) (trace st).

Definition set_wl (v : WakeLock) (st : Sys) : Sys :=
  mkSys (env st) (tick st) (clock st) (docHidden st) (battery st) (nextObj st) (nextKey st) (sentinels st) (natives st) (strategyObjs st) (permissionManager st) (performanceMonitor st) v (trace st).

Definition set_trace (v : list Effect) (st : Sys) : Sys :=
  mkSys (env st) (tick st) (clock st) (docHidden st) (battery st) (nextObj st) (nextKey st) (sentinels st) (natives st) (strategyObjs st) (permissionManager st) (performanceMonitor st) (wl st) v.

Definition wl_set_activeSentinel (v : option ObjId) (w : WakeLock) : WakeLock :=
  mkWakeLock (options w) (strategies w) v (currentStrategy w) (isReleasing w).

Definition wl_set_currentStrategy (v : option ObjId) (w : WakeLock) : WakeLock :=
  mkWakeLock (options w) (strategies w) (activeSentinel w) v (isReleasing w).

Definition wl_set_isReleasing (v : bool) (w : WakeLock) : WakeLock :=
  mkWakeLock (options w) (strategies w) (activeSentinel w) (currentStrategy w) v.

Definition set_pm_timer (v : bool) (p : PerformanceMonitor) : PerformanceMonitor :=
  mkPerformanceMonitor (pm_enabled p) (pm_batteryThreshold p) (pm_performanceThreshold p) v (pm_battery p) (pm_lastMetrics p) (pm_isMonitoring p) (pm_inThrottle p).

Definition set_pm_battery (v : bool) (p : PerformanceMonitor) : PerformanceMonitor :=
  mkPerformanceMonitor (pm_enabled p) (pm_batteryThreshold p) (pm_performanceThreshold p) (pm_timer p) v (pm_lastMetrics p) (pm_isMonitoring p) (pm_inThrottle p).

Definition set_pm_lastMetrics (v : option PerformanceMetrics) (p : PerformanceMonitor) : PerformanceMonitor :=
  mkPerformanceMonitor (pm_enabled p) (pm_batteryThreshold p) (pm_performanceThreshold p) (pm_timer p) (pm_battery p) v (pm_isMonitoring p) (pm_inThrottle p).

Definition set_pm_isMonitoring (v : bool) (p : PerformanceMonitor) : PerformanceMonitor :=
  mkPerformanceMonitor (pm_enabled p) (pm_batteryThreshold p) (pm_performanceThreshold p) (pm_timer p) (pm_battery p) (pm_lastMetrics p) v (pm_inThrottle p).

Definition set_pm_inThrottle (v : bool) (p : PerformanceMonitor) : PerformanceMonitor :=
  mkPerformanceMonitor (pm_enabled p) (pm_batteryThreshold p) (pm_performanceThreshold p) (pm_timer p) (pm_battery p) (pm_lastMetrics p) (pm_isMonitoring p) v.

(** ** A state monad with exceptions

    A computation takes the state and gives a result, normal or thrown,
    with the state it left behind: what a function did before it threw
    stays done. *)

Inductive Res (A : Type) :=
| Ok (a : A)
| Throw (t : Thrown).
Arguments Ok {A} a.
Arguments Throw {A} t.

Definition M (A : Type) : Type := Sys -> Res A * Sys.

Definition ret {A} (a : A) : M A := fun st => (Ok a, st).

Definition throw {A} (t : Thrown) : M A := fun st => (Throw t, st).

Definition bind {A B} (m : M A) (f : A -> M B) : M B :=
  fun st =>
    match m st with
    | (Ok a, st1) => f a st1
    | (Throw t, st1) => (Throw t, st1)
    end.

Notation "'let*' x ':=' c1 'in' c2" := (bind c1 (fun x => c2))
  (at level 10, x name, c1 at level 100, c2 at level 200).
Notation "c1 ';;' c2" := (bind c1 (fun _ => c2))
  (at level 100, c2 at level 200, right associativity).

(** [try { body } catch (e) { handler(e) }] *)
Definition tryCatch {A} (body : M A) (handler : Thrown -> M A) : M A :=
  fun st =>
    match body st with
    | (Ok a, st1) => (Ok a, st1)
    | (Throw t, st1) => handler t st1
    end.

(** [try { body } finally { fin }]: a throw in [fin] replaces the outcome
    of [body]. *)
Definition tryFinally {A} (body : M A) (fin : M unit) : M A :=
  fun st =>
    match body st with
    | (r, st1) =>
        match fin st1 with
        | (Ok _, st2) => (r, st2)
        | (Throw t, st2) => (Throw t, st2)
        end
    end.

Definition gets {A} (f : Sys -> A) : M A := fun st => (Ok (f st), st).

Definition modify (f : Sys -> Sys) : M unit := fun st => (Ok tt, f st).

Definition when (b : bool) (m : M unit) : M unit := if b then m else ret tt.

Definition record (e : Effect) : M unit :=
  modify (fun st => set_trace (trace st ++ [e]) st).

(** [EventEmitter.emit] on the orchestrator.  The subscribers are callbacks
    of the user: [dispatchEvent] runs each inside [try]/[catch], so the
    emission itself never throws. *)
Definition emit (e : WakeLockEvent) : M unit := record (Emit e).

(** One more interaction with the platform. *)
Definition step : M nat :=
  fun st => (Ok (tick st), set_tick (S (tick st)) st).

(** [for (const x of xs) { f(x) }] *)
Fixpoint forEach {A} (f : A -> M unit) (xs : list A) : M unit :=
  match xs with
  | [] => ret tt
  | x :: xs' => f x ;; forEach f xs'
  end.

(** ** JavaScript collections

    A [Set] of objects and a [Map] keyed by identifiers, both iterated in
    insertion order. *)

Definition setAdd {A} `{EqDecision A} (x : A) (l : list A) : list A :=
  if bool_decide (x ∈ l) then l else l ++ [x].

Fixpoint setDelete {A} `{EqDecision A} (x : A) (l : list A) : list A :=
  match l with
  | [] => []
  | y :: l' => if decide (y = x) then setDelete x l' else y :: setDelete x l'
  end.

Fixpoint mapGet (k : Key) (m : list (Key * ObjId)) : option ObjId :=
  match m with
  | [] => None
  | (k', v) :: m' => if decide (k' = k) then Some v else mapGet k m'
  end.

Fixpoint mapSet (k : Key) (v : ObjId) (m : list (Key * ObjId)) : list (Key * ObjId) :=
  match m with
  | [] => [(k, v)]
  | (k', v') :: m' => if decide (k' = k) then (k, v) :: m' else (k', v') :: mapSet k v m'
  end.

Fixpoint mapDelete (k : Key) (m : list (Key * ObjId)) : list (Key * ObjId) :=
  match m with
  | [] => []
  | (k', v') :: m' => if decide (k' = k) then mapDelete k m' else (k', v') :: mapDelete k m'
  end.

(** [haystack.includes(needle)] *)
Fixpoint includes (needle haystack : string) : bool :=
  if String.prefix needle haystack then true
  else match haystack with
       | EmptyString => false
       | String _ rest => includes needle rest
       end.

(** ** [src/utils/helpers.ts] *)

Definition isSSR (st : Sys) : bool := env_ssr (env st).

Definition isWakeLockSupported (st : Sys) : bool :=
  if isSSR st then false else env_wakeLock (env st).

Definition isPermissionsSupported (st : Sys) : bool :=
  if isSSR st then false else env_permissions (env st).

Definition isDocumentHidden (st : Sys) : bool :=
  if isSSR st then false else docHidden st.

(** [generateUniqueId]: the time and a random suffix; embedded as a
    fresh identifier, which is what its name promises. *)
Definition generateUniqueId : M Key :=
  fun st => (Ok (nextKey st), set_nextKey (S (nextKey st)) st).

Definition checkPermission (name : string) : M (option PermissionState) :=
  let* supported := gets isPermissionsSupported in
  if negb supported then ret None
  else
    record (PermissionQuery name) ;;
    let* t := step in
    gets (fun st => env_query (env st) t name).

(** ** The object store *)

Definition dummySentinel : Sentinel :=
  mkSentinel screen 0%nat [] false TimerStrategy 0%nat 0%nat.
Definition dummyNative : NativeSentinel := mkNative screen false [].

(** Dereferencing.  References are always valid in JavaScript; the
    default is only there to make the lookup total.  Every identity denotes
    a strategy instance: the store of strategies is a total function. *)
Definition theSentinel (st : Sys) (sid : ObjId) : Sentinel :=
  default dummySentinel (sentinels st !! sid).
Definition theNative (st : Sys) (nid : ObjId) : NativeSentinel :=
  default dummyNative (natives st !! nid).
Definition theStrategy (st : Sys) (k : ObjId) : Strategy :=
  strategyObjs st k.

Definition updSentinel (sid : ObjId) (f : Sentinel -> Sentinel) : M unit :=
  modify (fun st => set_sentinels (alter f sid (sentinels st)) st).
Definition updNative (nid : ObjId) (f : NativeSentinel -> NativeSentinel) : M unit :=
  modify (fun st => set_natives (alter f nid (natives st)) st).
Definition updStrategy (k : ObjId) (f : Strategy -> Strategy) : M unit :=
  modify (fun st =>
    set_strategyObjs
      (fun k' => if decide (k' = k) then f (strategyObjs st k') else strategyObjs st k') st).

Definition newSentinel (s : Sentinel) : M ObjId :=
  fun st =>
    (Ok (nextObj st),
     set_nextObj (S (nextObj st)) (set_sentinels (<[nextObj st := s]> (sentinels st)) st)).

Definition newNative (n : NativeSentinel) : M ObjId :=
  fun st =>
    (Ok (nextObj st),
     set_nextObj (S (nextObj st)) (set_natives (<[nextObj st := n]> (natives st)) st)).

Definition s_set_released (b : bool) (s : Sentinel) : Sentinel :=
  mkSentinel (s_type s) (s_strategy s) (s_releaseListeners s) b (s_class s) (s_key s) (s_native s).
Definition s_set_listeners (ls : list Listener) (s : Sentinel) : Sentinel :=
  mkSentinel (s_type s) (s_strategy s) ls (s_released s) (s_class s) (s_key s) (s_native s).
Definition n_set_released (b : bool) (n : NativeSentinel) : NativeSentinel :=
  mkNative (n_type n) b (n_listeners n).
Definition n_set_listeners (ls : list NativeListener) (n : NativeSentinel) : NativeSentinel :=
  mkNative (n_type n) (n_released n) ls.
Definition set_activeSentinels (l : list ObjId) (s : Strategy) : Strategy :=
  mkStrategy (cls s) l (activeEntries s).
Definition set_activeEntries (m : list (Key * ObjId)) (s : Strategy) : Strategy :=
  mkStrategy (cls s) (activeSentinels s) m.

(** The sentinels a strategy currently tracks. *)
Definition activeOf (st : Sys) (k : ObjId) : list ObjId :=
  match cls (theStrategy st k) with
  | ScreenWakeLockStrategy => activeSentinels (theStrategy st k)
  | _ => (activeEntries (theStrategy st k)).*2
  end.

(** The [released] getter of a sentinel. *)
Definition released (st : Sys) (sid : ObjId) : bool :=
  let s := theSentinel st sid in
  match s_class s with
  | ScreenWakeLockStrategy => s_released s || n_released (theNative st (s_native s))
  | _ => s_released s
  end.

(** ** [PerformanceMonitor.stop] *)

Definition b_clear_handlers (b : BatteryManager) : BatteryManager :=
  mkBattery (level b) (charging b) false false.

Definition PerformanceMonitor_stop : M unit :=
  modify (fun st =>
    let p := performanceMonitor st in
    if negb (pm_isMonitoring p) then st
    else
      let st1 := set_performanceMonitor (set_pm_timer false (set_pm_isMonitoring false p)) st in
      if pm_battery p then set_battery (b_clear_handlers <$> battery st1) st1 else st1).

(** ** Release listeners *)

(** The closure [onRelease] of [WakeLock.setupSentinelListeners], built
    around [sentinel]. *)
Definition onRelease (sentinel : ObjId) : M unit :=
  let* active := gets (fun st => activeSentinel (wl st)) in
  if bool_decide (active = Some sentinel) then
    let* ty := gets (fun st => s_type (theSentinel st sentinel)) in
    emit (disabled ty "automatic-release") ;;
    modify (fun st => set_wl (wl_set_activeSentinel None (wl st)) st) ;;
    modify (fun st => set_wl (wl_set_currentStrategy None (wl st)) st) ;;
    PerformanceMonitor_stop
  else ret tt.

(** Calling a listener. *)
Definition callListener (l : Listener) : M unit :=
  match l with
  | UserListener id throws =>
      record (ListenerCall id) ;;
      if throws then throw (ThrownError "Error" "listener failed") else ret tt
  | OnRelease sentinel => onRelease sentinel
  end.

(** [for (const listener of listeners) { try { listener() } catch { console.error } }] *)
Definition notifyListeners (ls : list Listener) : M unit :=
  forEach (fun l => tryCatch (callListener l) (fun _ => ret tt)) ls.

(** ** Sentinels of the video, audio and timer strategies *)

(** [releaseSentinel] of [VideoElementStrategy], [AudioContextStrategy] and
    [TimerStrategy]: the three have the same text but for the teardown of
    their platform resource inside the [try], whose failure the [catch]
    swallows.  [k] is [this], [sentinel] the sentinel of the entry. *)
Definition releaseSentinel (k : ObjId) (sentinelId : Key) (sentinel : ObjId) : M unit :=
  let* r := gets (fun st => s_released (theSentinel st sentinel)) in
  if r then ret tt
  else
    tryFinally
      (tryCatch (let* _ := step in ret tt) (fun _ => ret tt))
      (updSentinel sentinel (s_set_released true) ;;
       updStrategy k (fun s => set_activeEntries (mapDelete sentinelId (activeEntries s)) s) ;;
       (let* ls := gets (fun st => s_releaseListeners (theSentinel st sentinel)) in
        notifyListeners ls) ;;
       updSentinel sentinel (s_set_listeners [])).

(** The [release] method of the sentinel literal in [createSentinel].  The
    video sentinel passes itself to [releaseSentinel]; the audio and timer
    sentinels pass the entry, whose [sentinel] field is used. *)
Definition entrySentinel_release (this : ObjId) : M unit :=
  let* s := gets (fun st => theSentinel st this) in
  if s_released s then ret tt
  else
    let* entry := gets (fun st => mapGet (s_key s) (activeEntries (theStrategy st (s_strategy s)))) in
    match entry with
    | Some sentinel =>
        match s_class s with
        | VideoElementStrategy => releaseSentinel (s_strategy s) (s_key s) this
        | _ => releaseSentinel (s_strategy s) (s_key s) sentinel
        end
    | None => ret tt
    end.

(** ** The platform's sentinel and its wrapper *)

(** The anonymous listener of [createWrappedSentinel]. *)
Definition nativeAnon (wrapped : ObjId) : M unit :=
  let* s := gets (fun st => theSentinel st wrapped) in
  if s_released s then ret tt
  else
    updSentinel wrapped (s_set_released true) ;;
    updStrategy (s_strategy s) (fun k => set_activeSentinels (setDelete wrapped (activeSentinels k)) k).

(** The platform fires [release] at a native sentinel; what a listener
    throws is reported by the platform and does not stop the dispatch. *)
Definition nativeDispatch (nid : ObjId) : M unit :=
  let* ls := gets (fun st => n_listeners (theNative st nid)) in
  forEach (fun l =>
             match l with
             | NativeAnon w => nativeAnon w
             | NativeForward l' => tryCatch (callListener l') (fun _ => ret tt)
             end) ls.

(** The platform releases a native sentinel: it is marked released and,
    on a platform that fires the event, its listeners run. *)
Definition nativeMarkReleased (nid : ObjId) : M unit :=
  let* n := gets (fun st => theNative st nid) in
  if n_released n then ret tt
  else
    updNative nid (n_set_released true) ;;
    let* fires := gets (fun st => env_nativeFires (env st)) in
    when fires (nativeDispatch nid).

(** [nativeSentinel.release()] *)
Definition native_release (nid : ObjId) : M unit :=
  let* t := step in
  let* failure := gets (fun st => env_nativeRelease (env st) t) in
  match failure with
  | Some e => throw e
  | None => nativeMarkReleased nid
  end.

(** The [release] method of the literal in [createWrappedSentinel]. *)
Definition wrappedSentinel_release (this : ObjId) : M unit :=
  let* s := gets (fun st => theSentinel st this) in
  if s_released s then ret tt
  else
    tryFinally
      (native_release (s_native s))
      (updSentinel this (s_set_released true) ;;
       updStrategy (s_strategy s)
         (fun k => set_activeSentinels (setDelete this (activeSentinels k)) k) ;;
       (let* ls := gets (fun st => s_releaseListeners (theSentinel st this)) in
        notifyListeners ls) ;;
       updSentinel this (s_set_listeners [])).

(** [sentinel.release()], whichever literal the sentinel is. *)
Definition sentinel_release (sid : ObjId) : M unit :=
  let* c := gets (fun st => s_class (theSentinel st sid)) in
  match c with
  | ScreenWakeLockStrategy => wrappedSentinel_release sid
  | _ => entrySentinel_release sid
  end.

(** [sentinel.addEventListener('release', listener)] *)
Definition sentinel_addEventListener (sid : ObjId) (listener : Listener) : M unit :=
  let* s := gets (fun st => theSentinel st sid) in
  updSentinel sid (fun s => s_set_listeners (setAdd listener (s_releaseListeners s)) s) ;;
  match s_class s with
  | ScreenWakeLockStrategy =>
      updNative (s_native s)
        (fun n => n_set_listeners (setAdd (NativeForward listener) (n_listeners n)) n)
  | _ => ret tt
  end.

(** [sentinel.removeEventListener('release', listener)] *)
Definition sentinel_removeEventListener (sid : ObjId) (listener : Listener) : M unit :=
  let* s := gets (fun st => theSentinel st sid) in
  updSentinel sid (fun s => s_set_listeners (setDelete listener (s_releaseListeners s)) s) ;;
  match s_class s with
  | ScreenWakeLockStrategy =>
      updNative (s_native s)
        (fun n => n_set_listeners (setDelete (NativeForward listener) (n_listeners n)) n)
  | _ => ret tt
  end.

(** ** The four strategies *)

(** [error instanceof Error ? error.message : d] ([WakeLockError] extends [Error]) *)
Definition messageOr (d : string) (t : Thrown) : string :=
  match t with
  | ThrownWakeLockError e => err_message e
  | ThrownError _ m => m
  | ThrownValue => d
  end.

(** [isSupported()] of each class. *)
Definition strategy_isSupported (st : Sys) (c : StrategyClass) : bool :=
  match c with
  | ScreenWakeLockStrategy => negb (isSSR st) && isWakeLockSupported st
  | VideoElementStrategy => if isSSR st then false else env_video (env st)
  | AudioContextStrategy => if isSSR st then false else env_audio (env st)
  | TimerStrategy => negb (isSSR st)
  end.

(** The platform part of an acquisition: [navigator.wakeLock.request],
    [setupVideoElement], [setupAudioContext], or the timer set-up, each
    possibly raced against the timeout and the abort signal. *)
Definition acquire (c : StrategyClass) : M unit :=
  let* t := step in
  let* failure := gets (fun st => env_acquire (env st) t c) in
  match failure with
  | Some e => throw e
  | None => ret tt
  end.

(** [ScreenWakeLockStrategy.createWrappedSentinel] *)
Definition createWrappedSentinel (this : ObjId) (nativeSentinel : ObjId) : M ObjId :=
  let* ty := gets (fun st => n_type (theNative st nativeSentinel)) in
  let* wrapped :=
    newSentinel (mkSentinel ty this [] false ScreenWakeLockStrategy 0%nat nativeSentinel) in
  updNative nativeSentinel
    (fun n => n_set_listeners (setAdd (NativeAnon wrapped) (n_listeners n)) n) ;;
  ret wrapped.

(** The error-code switch in the [catch] of [ScreenWakeLockStrategy.request]. *)
Definition screenErrorCode (name message : string) : WakeLockErrorCode :=
  if String.eqb name "NotAllowedError" then PERMISSION_DENIED
  else if String.eqb name "NotSupportedError" then NOT_SUPPORTED
  else if String.eqb name "AbortError" then TIMEOUT
  else if includes "timeout" message then TIMEOUT
  else UNKNOWN.

Definition ScreenWakeLockStrategy_request
    (this : ObjId) (ty : WakeLockType) (opts : RequestOptions) : M ObjId :=
  let name := className ScreenWakeLockStrategy in
  let* supported := gets (fun st => strategy_isSupported st ScreenWakeLockStrategy) in
  if negb supported then
    throw (ThrownWakeLockError
             (mkWakeLockError "Screen Wake Lock API is not supported" NOT_SUPPORTED (Some name)))
  else
    match ty with
    | system =>
        throw (ThrownWakeLockError
                 (mkWakeLockError
                    "System wake locks are not yet supported by the Screen Wake Lock API"
                    NOT_SUPPORTED (Some name)))
    | screen =>
        tryCatch
          (acquire ScreenWakeLockStrategy ;;
           let* nativeSentinel := newNative (mkNative ty false []) in
           let* wrappedSentinel := createWrappedSentinel this nativeSentinel in
           updStrategy this
             (fun k => set_activeSentinels (setAdd wrappedSentinel (activeSentinels k)) k) ;;
           ret wrappedSentinel)
          (fun e =>
             match e with
             | ThrownWakeLockError w =>
                 throw (ThrownWakeLockError
                          (mkWakeLockError
                             ("Screen Wake Lock request failed: " +:+ err_message w)
                             (screenErrorCode "WakeLockError" (err_message w)) (Some name)))
             | ThrownError n m =>
                 throw (ThrownWakeLockError
                          (mkWakeLockError
                             ("Screen Wake Lock request failed: " +:+ m)
                             (screenErrorCode n m) (Some name)))
             | ThrownValue =>
                 throw (ThrownWakeLockError
                          (mkWakeLockError
                             "Unknown error occurred while requesting screen wake lock"
                             UNKNOWN (Some name)))
             end)
    end.

(** [createSentinel] of the video and audio strategies. *)
Definition createSentinel
    (c : StrategyClass) (this : ObjId) (sentinelId : Key) (ty : WakeLockType) : M ObjId :=
  newSentinel (mkSentinel ty this [] false c sentinelId 0%nat).

(** The [catch] of the video and audio [request]. *)
Definition setupFailure (pre name : string) (e : Thrown) : Thrown :=
  ThrownWakeLockError
    (mkWakeLockError
       (pre +:+ messageOr "Unknown error" e)
       (match e with
        | ThrownValue => STRATEGY_FAILED
        | _ => if includes "timeout" (messageOr "" e) then TIMEOUT else STRATEGY_FAILED
        end)
       (Some name)).

Definition VideoElementStrategy_request
    (this : ObjId) (ty : WakeLockType) (opts : RequestOptions) : M ObjId :=
  let name := className VideoElementStrategy in
  let* supported := gets (fun st => strategy_isSupported st VideoElementStrategy) in
  if negb supported then
    throw (ThrownWakeLockError
             (mkWakeLockError "Video element strategy is not supported" NOT_SUPPORTED (Some name)))
  else
    match ty with
    | system =>
        throw (ThrownWakeLockError
                 (mkWakeLockError
                    "System wake locks are not supported by video element strategy"
                    NOT_SUPPORTED (Some name)))
    | screen =>
        tryCatch
          (let* sentinelId := generateUniqueId in
           acquire VideoElementStrategy ;;
           let* sentinel := createSentinel VideoElementStrategy this sentinelId ty in
           updStrategy this
             (fun k => set_activeEntries (mapSet sentinelId sentinel (activeEntries k)) k) ;;
           ret sentinel)
          (fun e => throw (setupFailure "Video element wake lock failed: " name e))
    end.

Definition AudioContextStrategy_request
    (this : ObjId) (ty : WakeLockType) (opts : RequestOptions) : M ObjId :=
  let name := className AudioContextStrategy in
  let* supported := gets (fun st => strategy_isSupported st AudioContextStrategy) in
  if negb supported then
    throw (ThrownWakeLockError
             (mkWakeLockError "Audio context strategy is not supported" NOT_SUPPORTED (Some name)))
  else
    match ty with
    | system =>
        throw (ThrownWakeLockError
                 (mkWakeLockError
                    "System wake locks are not supported by audio context strategy"
                    NOT_SUPPORTED (Some name)))
    | screen =>
        tryCatch
          (let* sentinelId := generateUniqueId in
           acquire AudioContextStrategy ;;
           let* sentinel := createSentinel AudioContextStrategy this sentinelId ty in
           updStrategy this
             (fun k => set_activeEntries (mapSet sentinelId sentinel (activeEntries k)) k) ;;
           ret sentinel)
          (fun e => throw (setupFailure "Audio context wake lock failed: " name e))
    end.

(** [TimerStrategy.createSentinel] also enters the sentinel in [activeTimers]. *)
Definition TimerStrategy_createSentinel
    (this : ObjId) (sentinelId : Key) (ty : WakeLockType) : M ObjId :=
  let* sentinel := newSentinel (mkSentinel ty this [] false TimerStrategy sentinelId 0%nat) in
  updStrategy this
    (fun k => set_activeEntries (mapSet sentinelId sentinel (activeEntries k)) k) ;;
  ret sentinel.

Definition TimerStrategy_request
    (this : ObjId) (ty : WakeLockType) (opts : RequestOptions) : M ObjId :=
  let name := className TimerStrategy in
  let* supported := gets (fun st => strategy_isSupported st TimerStrategy) in
  if negb supported then
    throw (ThrownWakeLockError
             (mkWakeLockError "Timer strategy is not supported in SSR environment"
                NOT_SUPPORTED (Some name)))
  else
    let* sentinelId := generateUniqueId in
    let* sentinel := TimerStrategy_createSentinel this sentinelId ty in
    tryCatch
      (acquire TimerStrategy ;; ret sentinel)
      (fun e =>
         throw (ThrownWakeLockError
                  (mkWakeLockError
                     ("Timer strategy failed to start: " +:+ messageOr "Unknown error" e)
                     STRATEGY_FAILED (Some name)))).

(** [strategy.name], [strategy.request(type, options)] and
    [strategy.release()] on a strategy object. *)
Definition strategyName (st : Sys) (k : ObjId) : string :=
  className (cls (theStrategy st k)).

Definition strategy_request (k : ObjId) (ty : WakeLockType) (opts : RequestOptions) : M ObjId :=
  record (StrategyRequest k ty) ;;
  let* c := gets (fun st => cls (theStrategy st k)) in
  match c with
  | ScreenWakeLockStrategy => ScreenWakeLockStrategy_request k ty opts
  | VideoElementStrategy => VideoElementStrategy_request k ty opts
  | AudioContextStrategy => AudioContextStrategy_request k ty opts
  | TimerStrategy => TimerStrategy_request k ty opts
  end.

(** [ScreenWakeLockStrategy.release]: every sentinel of a snapshot of the
    set is released, a rejection is caught, and the set is cleared. *)
Definition ScreenWakeLockStrategy_release (this : ObjId) : M unit :=
  let* snapshot := gets (fun st => activeSentinels (theStrategy st this)) in
  forEach (fun sentinel => tryCatch (sentinel_release sentinel) (fun _ => ret tt)) snapshot ;;
  updStrategy this (set_activeSentinels []).

(** [release] of the video, audio and timer strategies. *)
Definition entryStrategy_release (this : ObjId) : M unit :=
  let* snapshot := gets (fun st => activeEntries (theStrategy st this)) in
  forEach (fun e : Key * ObjId =>
             tryCatch (releaseSentinel this e.1 e.2) (fun _ => ret tt)) snapshot ;;
  updStrategy this (set_activeEntries []).

Definition strategy_release (k : ObjId) : M unit :=
  let* c := gets (fun st => cls (theStrategy st k)) in
  match c with
  | ScreenWakeLockStrategy => ScreenWakeLockStrategy_release k
  | _ => entryStrategy_release k
  end.

(** ** [class PermissionManager] *)

(** [cacheExpiryTime = 5 * 60 * 1000] milliseconds *)
Definition cacheExpiryTime : Z := 5 * 60 * 1000.

Definition typeName (ty : WakeLockType) : string :=
  match ty with screen => "screen" | system => "system" end.

(** [`wake-lock-${type}`] *)
Definition cacheKey (ty : WakeLockType) : string := "wake-lock-" +:+ typeName ty.

Definition pmgr_delete (key : string) (p : PermissionManager) : PermissionManager :=
  mkPermissionManager (delete key (permissionCache p)) (delete key (cacheTimestamps p)).

Definition pmgr_set (key : string) (v : PermissionState) (now : Z) (p : PermissionManager)
  : PermissionManager :=
  mkPermissionManager (<[key := v]> (permissionCache p)) (<[key := now]> (cacheTimestamps p)).

(** [!timestamp || Date.now() - timestamp > this.cacheExpiryTime]: the
    timestamp is missing, or falsy (zero), or too old. *)
Definition expired (now : Z) (timestamp : option Z) : bool :=
  match timestamp with
  | None => true
  | Some t => (t =? 0) || (now - t >? cacheExpiryTime)
  end.

Definition getCachedPermission (key : string) : M (option PermissionState) :=
  let* timestamp := gets (fun st => cacheTimestamps (permissionManager st) !! key) in
  let* now := gets clock in
  if expired now timestamp then
    modify (fun st => set_permissionManager (pmgr_delete key (permissionManager st)) st) ;;
    ret None
  else
    gets (fun st => permissionCache (permissionManager st) !! key).

Definition setCachedPermission (key : string) (permission : PermissionState) : M unit :=
  modify (fun st =>
    set_permissionManager (pmgr_set key permission (clock st) (permissionManager st)) st).

Definition checkSpecificPermission (name : string) : M (option PermissionState) :=
  let* supported := gets isPermissionsSupported in
  if negb supported then ret None
  else tryCatch (checkPermission name) (fun _ => ret None).

(** The [try] block of [checkWakeLockPermission] with its [catch]: the
    path taken when the cache has no answer. *)
Definition queryPermission (ty : WakeLockType) (passive : bool)
  : M (option PermissionState) :=
  tryCatch
    (let* wakeLockPermission := checkSpecificPermission "wake-lock" in
     match wakeLockPermission with
     | Some p => setCachedPermission (cacheKey ty) p ;; ret (Some p)
     | None =>
         let* screenPermission :=
           match ty with
           | screen => checkSpecificPermission "screen-wake-lock"
           | system => ret None
           end in
         match screenPermission with
         | Some p => setCachedPermission (cacheKey ty) p ;; ret (Some p)
         | None =>
             if passive then
               setCachedPermission (cacheKey ty) granted ;; ret (Some granted)
             else ret None
         end
     end)
    (fun e =>
       if passive then ret None
       else
         throw (ThrownWakeLockError
                  (mkWakeLockError
                     ("Failed to check " +:+ typeName ty +:+ " wake lock permission")
                     PERMISSION_DENIED (Some "permission-manager")))).

Definition checkWakeLockPermission (ty : WakeLockType) (passive : bool)
  : M (option PermissionState) :=
  let* ssr := gets isSSR in
  if ssr then ret None
  else
    let* cached := getCachedPermission (cacheKey ty) in
    match cached with
    | Some c => ret (Some c)
    | None => queryPermission ty passive
    end.

Definition canRequestWithoutPrompt (ty : WakeLockType) : M bool :=
  let* ssr := gets isSSR in
  if ssr then ret false
  else
    tryCatch
      (let* permission := checkWakeLockPermission ty true in
       match permission with
       | Some granted | Some denied => ret true
       | _ => ret false
       end)
      (fun _ => ret false).

(** [document.hasFocus() && Date.now() - this.getLastUserActivity() < 30000],
    where [getLastUserActivity] is [Date.now() - 1000]. *)
Definition hasRecentUserInteraction (st : Sys) : bool :=
  env_hasFocus (env st) && (clock st - (clock st - 1000) <? 30000).

Definition isPassiveModeRecommended (st : Sys) : bool :=
  if isSSR st then true
  else if env_heuristicsThrow (env st) then true
  else if env_iframe (env st) then true
  else if docHidden st then true
  else if negb (hasRecentUserInteraction st) then true
  else if env_mobile (env st) then true
  else false.

(** ** [class WakeLock]: release *)

Definition setActiveSentinel (v : option ObjId) : M unit :=
  modify (fun st => set_wl (wl_set_activeSentinel v (wl st)) st).
Definition setCurrentStrategy (v : option ObjId) : M unit :=
  modify (fun st => set_wl (wl_set_currentStrategy v (wl st)) st).
Definition setIsReleasing (v : bool) : M unit :=
  modify (fun st => set_wl (wl_set_isReleasing v (wl st)) st).

(** What reading [this.activeSentinel.type] throws when the field is
    [null] (the message is the engine's). *)
Definition nullTypeError : Thrown :=
  ThrownError "TypeError" "Cannot read properties of null (reading 'type')".

(** The error carried by the [error] notification of [release]. *)
Definition releaseError (e : Thrown) : WakeLockError :=
  match e with
  | ThrownWakeLockError w => w
  | ThrownError _ m => mkWakeLockError m UNKNOWN None
  | ThrownValue => mkWakeLockError "Failed to release wake lock" UNKNOWN None
  end.

Definition WakeLock_release : M unit :=
  let* active := gets (fun st => activeSentinel (wl st)) in
  match active with
  | None => ret tt
  | Some sentinel =>
      let* r := gets (fun st => released st sentinel) in
      let* releasing := gets (fun st => isReleasing (wl st)) in
      if r || releasing then ret tt
      else
        setIsReleasing true ;;
        tryFinally
          (tryCatch
             (sentinel_release sentinel ;;
              let* now := gets (fun st => activeSentinel (wl st)) in
              match now with
              | None => throw nullTypeError
              | Some s =>
                  let* ty := gets (fun st => s_type (theSentinel st s)) in
                  emit (disabled ty "manual-release")
              end)
             (fun e => emit (error (releaseError e))))
          (setActiveSentinel None ;;
           setCurrentStrategy None ;;
           setIsReleasing false ;;
           PerformanceMonitor_stop)
  end.

(** [this.release().catch(console.warn)] *)
Definition releaseAndWarn : M unit := tryCatch WakeLock_release (fun _ => ret tt).

(** The listeners that [initializeEventListeners] puts on the monitor. *)
Definition onBatteryChange (lvl : Q) (chg : bool) : M unit :=
  emit (battery_change lvl chg) ;;
  let* optimize := gets (fun st => opt_batteryOptimization (options (wl st))) in
  when (optimize && Qle_bool lvl (15 # 100) && negb chg) releaseAndWarn.

(** After re-emitting, the handler only writes to the console. *)
Definition onPerformance (m : PerformanceMetrics) : M unit :=
  emit (performance m).

(** ** [class PerformanceMonitor]: start and the sampling callbacks *)

Definition updMonitor (f : PerformanceMonitor -> PerformanceMonitor) : M unit :=
  modify (fun st => set_performanceMonitor (f (performanceMonitor st)) st).

(** The closure made by [throttle]; the flag is lowered by a timer. *)
Definition throttledEmitPerformance (m : PerformanceMetrics) : M unit :=
  let* inThrottle := gets (fun st => pm_inThrottle (performanceMonitor st)) in
  if inThrottle then ret tt
  else onPerformance m ;; updMonitor (set_pm_inThrottle true).

Definition collectMetrics : M PerformanceMetrics :=
  let* t := step in
  gets (fun st => env_metrics (env st) t).

Definition b_set_handlers (b : BatteryManager) : BatteryManager :=
  mkBattery (level b) (charging b) true true.

Definition initializeBatteryMonitoring : M unit :=
  let* b := gets battery in
  match b with
  | None => updMonitor (set_pm_battery false)
  | Some bm =>
      updMonitor (set_pm_battery true) ;;
      modify (fun st => set_battery (Some (b_set_handlers bm)) st) ;;
      onBatteryChange (level bm) (charging bm)
  end.

Definition PerformanceMonitor_start : M unit :=
  let* p := gets performanceMonitor in
  let* ssr := gets isSSR in
  if negb (pm_enabled p) || pm_isMonitoring p || ssr then ret tt
  else
    updMonitor (set_pm_isMonitoring true) ;;
    tryCatch
      (initializeBatteryMonitoring ;;
       updMonitor (set_pm_timer true) ;;
       let* initialMetrics := collectMetrics in
       updMonitor (set_pm_lastMetrics (Some initialMetrics)) ;;
       throttledEmitPerformance initialMetrics)
      (fun _ => updMonitor (set_pm_isMonitoring false)).

(** The [setInterval] callback of [startPerformanceMonitoring].  What
    [handlePerformanceOptimization] emits again is throttled away. *)
Definition monitoringTimerCallback : M unit :=
  let* p := gets performanceMonitor in
  if negb (pm_isMonitoring p) then ret tt
  else
    let* metrics := collectMetrics in
    updMonitor (set_pm_lastMetrics (Some metrics)) ;;
    throttledEmitPerformance metrics.

(** The platform changes the battery state and calls the handlers that
    [initializeBatteryMonitoring] installed. *)
Definition batteryChanged (lvl : Q) (chg : bool) : M unit :=
  let* b := gets battery in
  match b with
  | None => ret tt
  | Some bm =>
      modify (fun st =>
                set_battery (Some (mkBattery lvl chg (onlevelchange bm) (onchargingchange bm))) st) ;;
      let* hasBattery := gets (fun st => pm_battery (performanceMonitor st)) in
      when ((onlevelchange bm || onchargingchange bm) && hasBattery) (onBatteryChange lvl chg)
  end.

(** ** [class WakeLock]: request *)

(** [array.indexOf(x)], [None] standing for [-1]. *)
Fixpoint indexOf (x : ObjId) (l : list ObjId) : option nat :=
  match l with
  | [] => None
  | y :: l' => if decide (y = x) then Some 0%nat else S <$> indexOf x l'
  end.

(** [this.strategies[this.strategies.indexOf(strategy) + 1]] *)
Definition nextStrategy (all : list ObjId) (strategy : ObjId) : option ObjId :=
  match indexOf strategy all with
  | Some i => all !! S i
  | None => all !! 0%nat
  end.

(** [PerformanceMonitor.measureStrategy]: the samples around the operation
    only go into the measurement, which is written to the console. *)
Definition measureStrategy (strategyName : string) (operation : M unit) : M unit :=
  operation.

(** The body of the [try] in the loop of [tryStrategies]. *)
Definition attempt (strategy : ObjId) (ty : WakeLockType) (opts : RequestOptions) : M ObjId :=
  let* name := gets (fun st => strategyName st strategy) in
  measureStrategy name (let* _ := strategy_request strategy ty opts in ret tt) ;;
  let* sentinel := strategy_request strategy ty opts in
  setCurrentStrategy (Some strategy) ;;
  ret sentinel.

(** The [wakeLockError] of the [catch] in the loop. *)
Definition strategyError (name : string) (e : Thrown) : WakeLockError :=
  match e with
  | ThrownWakeLockError w => w
  | _ => mkWakeLockError (messageOr "Strategy failed" e) STRATEGY_FAILED (Some name)
  end.

(** [errors.map(e => e.message).join(', ')] *)
Definition joinMessages (errors : list WakeLockError) : string :=
  String.concat ", " (map err_message errors).

Definition allFailed (errors : list WakeLockError) : WakeLockError :=
  mkWakeLockError
    ("All wake lock strategies failed. Errors: " +:+ joinMessages errors)
    STRATEGY_FAILED None.

(** The [catch] of the loop: record the error and announce the fallback. *)
Definition recordFailure (all : list ObjId) (strategy : ObjId) (e : Thrown) : M WakeLockError :=
  let* name := gets (fun st => strategyName st strategy) in
  let wakeLockError := strategyError name e in
  match nextStrategy all strategy with
  | Some next =>
      let* nextName := gets (fun st => strategyName st next) in
      emit (fallback name nextName (err_message wakeLockError)) ;;
      ret wakeLockError
  | None => ret wakeLockError
  end.

(** The loop of [tryStrategies] over the rest of [this.strategies]. *)
Fixpoint tryLoop (all rest : list ObjId) (ty : WakeLockType) (opts : RequestOptions)
    (errors : list WakeLockError) : M ObjId :=
  match rest with
  | [] => throw (ThrownWakeLockError (allFailed errors))
  | strategy :: rest' =>
      tryCatch
        (attempt strategy ty opts)
        (fun e =>
           let* wakeLockError := recordFailure all strategy e in
           tryLoop all rest' ty opts (errors ++ [wakeLockError]))
  end.

Definition tryStrategies (ty : WakeLockType) (opts : RequestOptions) : M ObjId :=
  let* all := gets (fun st => strategies (wl st)) in
  tryLoop all all ty opts [].

Definition setupSentinelListeners (sentinel : ObjId) : M unit :=
  sentinel_addEventListener sentinel (OnRelease sentinel).

(** The [requestOptions] literal of [request]. *)
Definition mergeOptions (o : RequestOptions) (defaultPassive : bool) : RequestOptions :=
  mkRequestOptions
    (spread (Present (nullish (ro_passive o) defaultPassive)) (ro_passive o))
    (spread (Present (nullish (ro_timeout o) 30000)) (ro_timeout o))
    (spread (Present (nullish (ro_retryAttempts o) 3)) (ro_retryAttempts o)).

(** The error carried by the [error] notification of [request]. *)
Definition requestError (e : Thrown) : WakeLockError :=
  match e with
  | ThrownWakeLockError w => w
  | ThrownError _ m => mkWakeLockError m UNKNOWN None
  | ThrownValue => mkWakeLockError "Unknown error" UNKNOWN None
  end.

(** [this.activeSentinel && !this.activeSentinel.released] *)
Definition activeUnreleased (st : Sys) : option ObjId :=
  match activeSentinel (wl st) with
  | Some s => if released st s then None else Some s
  | None => None
  end.

Definition passiveDenied : WakeLockError :=
  mkWakeLockError "Wake lock would require user prompt, but passive mode is enabled"
    PERMISSION_DENIED None.

(** The permission gate of [request]. *)
Definition passiveGate (ty : WakeLockType) (requestOptions : RequestOptions) : M unit :=
  if truthy (ro_passive requestOptions) then
    let* canRequest := canRequestWithoutPrompt ty in
    let* recommended := gets isPassiveModeRecommended in
    if negb canRequest && recommended then throw (ThrownWakeLockError passiveDenied)
    else ret tt
  else ret tt.

(** "Start performance monitoring if enabled" *)
Definition startMonitoring : M unit :=
  let* monitoring := gets (fun st => opt_performanceMonitoring (options (wl st))) in
  when monitoring PerformanceMonitor_start.

(** What [request] does with the sentinel that [tryStrategies] returned. *)
Definition adopt (ty : WakeLockType) (sentinel : ObjId) : M ObjId :=
  setActiveSentinel (Some sentinel) ;;
  setupSentinelListeners sentinel ;;
  let* name :=
    gets (fun st =>
            match currentStrategy (wl st) with
            | Some k => strategyName st k
            | None => "unknown"
            end) in
  emit (enabled ty name) ;;
  ret sentinel.

(** The [try] block of [request]. *)
Definition requestBody (ty : WakeLockType) (requestOptions : RequestOptions) : M ObjId :=
  passiveGate ty requestOptions ;;
  startMonitoring ;;
  let* sentinel := tryStrategies ty requestOptions in
  adopt ty sentinel.

Definition ssrError : WakeLockError :=
  mkWakeLockError "Wake lock is not supported in server-side rendering" NOT_SUPPORTED None.

Definition WakeLock_request (ty : WakeLockType) (opts : RequestOptions) : M ObjId :=
  let* ssr := gets isSSR in
  if ssr then throw (ThrownWakeLockError ssrError)
  else
    let* existing := gets activeUnreleased in
    match existing with
    | Some s => ret s
    | None =>
        let* requestOptions :=
          gets (fun st => mergeOptions opts (opt_passive (options (wl st)))) in
        tryCatch
          (requestBody ty requestOptions)
          (fun e => emit (error (requestError e)) ;; throw e)
    end.

(** ** [class WakeLock]: the other public methods and the handlers *)

Definition WakeLock_isSupported (st : Sys) : bool :=
  negb (isSSR st) && (0 <? Z.of_nat (length (strategies (wl st)))).

Definition getSupportedStrategies (st : Sys) : list string :=
  map (strategyName st) (strategies (wl st)).

Definition checkPermissions (ty : WakeLockType) : M (option PermissionState) :=
  let* passive := gets (fun st => opt_passive (options (wl st))) in
  checkWakeLockPermission ty passive.

(** [removeAllListeners] drops the user's subscribers, which are opaque. *)
Definition WakeLock_destroy : M unit :=
  releaseAndWarn ;;
  PerformanceMonitor_stop.

(** [handleVisibilityChange], after the platform changed the visibility. *)
Definition visibilityChanged (hidden : bool) : M unit :=
  modify (set_docHidden hidden) ;;
  let* isHidden := gets isDocumentHidden in
  emit (visibility_change isHidden "none") ;;
  let* active := gets (fun st => activeSentinel (wl st)) in
  let* optimize := gets (fun st => opt_batteryOptimization (options (wl st))) in
  when (isHidden && bool_decide (active <> None) && optimize) releaseAndWarn.

(** The platform revokes a native sentinel (the page went to the
    background, for instance). *)
Definition nativeRevoked (nid : ObjId) : M unit :=
  let* _ := step in
  nativeMarkReleased nid.

(** ** The constructor *)

(** The arguments of [new WakeLock(options)], with the host it runs on.
    [cfg_objects] gives the class of each strategy instance the caller
    created; [cfg_strategies] is [options.strategies], a list of references
    to such instances, in which an instance may occur more than once.  The
    strategies are instances of the four classes of the library: an object
    of the caller's own that implements [FallbackStrategy] can be passed to
    the constructor as well, and is not covered by this development. *)
Record Config := mkConfig {
  cfg_env : Env;
  cfg_clock : Z;
  cfg_hidden : bool;
  cfg_battery : option BatteryManager;
  cfg_objects : ObjId -> StrategyClass;
  cfg_strategies : option (list ObjId);
  cfg_debug : Field bool;
  cfg_batteryOptimization : Field bool;
  cfg_performanceMonitoring : Field bool;
  cfg_passive : Field bool
}.

(** [getDefaultStrategies] *)
Definition defaultStrategies : list StrategyClass :=
  [ScreenWakeLockStrategy; VideoElementStrategy; AudioContextStrategy; TimerStrategy].

(** [Array.prototype.sort] with the comparator [a.priority - b.priority]
    (a stable sort), as an insertion sort. *)
Fixpoint insertBy (priority : ObjId -> Z) (x : ObjId) (l : list ObjId) : list ObjId :=
  match l with
  | [] => [x]
  | y :: l' => if priority y <=? priority x then y :: insertBy priority x l' else x :: y :: l'
  end.

Definition sortBy (priority : ObjId -> Z) (l : list ObjId) : list ObjId :=
  fold_left (fun acc x => insertBy priority x acc) l [].

(** Freshly constructed strategies of the given classes. *)
Definition objectStore (classes : ObjId -> StrategyClass) : ObjId -> Strategy :=
  fun k => mkStrategy (classes k) [] [].

Definition WakeLock_new (cfg : Config) : Sys :=
  let classes :=
    match cfg_strategies cfg with
    | Some _ => cfg_objects cfg
    | None => fun k => nth k defaultStrategies TimerStrategy
    end in
  let refs :=
    match cfg_strategies cfg with Some l => l | None => seq 0 (length defaultStrategies) end in
  let opts :=
    mkWakeLockOptions
      (nullish (cfg_debug cfg) false)
      (nullish (cfg_batteryOptimization cfg) true)
      (nullish (cfg_performanceMonitoring cfg) true)
      (nullish (cfg_passive cfg) false) in
  let st0 :=
    mkSys (cfg_env cfg) 0%nat (cfg_clock cfg) (cfg_hidden cfg) (cfg_battery cfg)
      0%nat 0%nat ∅ ∅ (objectStore classes)
      (mkPermissionManager ∅ ∅)
      (mkPerformanceMonitor (opt_performanceMonitoring opts) (15 # 100) 85
         false false None false false)
      (mkWakeLock opts [] None None false)
      [] in
  let sorted := sortBy (fun k => classPriority (cls (theStrategy st0 k))) refs in
  set_wl
    (mkWakeLock opts
       (filter (fun k => strategy_isSupported st0 (cls (theStrategy st0 k)) = true) sorted)
       None None false)
    st0.

(** ** What can happen to a running system *)

Inductive Op :=
| OpRequest (ty : WakeLockType) (opts : RequestOptions)
| OpRelease
| OpDestroy
| OpCheckPermissions (ty : WakeLockType)
| OpSentinelRelease (sid : ObjId)
| OpAddListener (sid : ObjId) (id : nat) (throws : bool)
| OpRemoveListener (sid : ObjId) (id : nat) (throws : bool)
| OpStrategyRequest (k : ObjId) (ty : WakeLockType) (opts : RequestOptions)
| OpStrategyRelease (k : ObjId)
| OpNativeRevoked (nid : ObjId)
| OpVisibility (hidden : bool)
| OpBattery (lvl : Q) (chg : bool)
| OpMonitorTimer
| OpThrottleTimer
| OpClock (now : Z).

Definition discard {A} (m : M A) : M unit := fun st => (Ok tt, (m st).2).

Definition perform (op : Op) : M unit :=
  match op with
  | OpRequest ty opts => discard (WakeLock_request ty opts)
  | OpRelease => discard WakeLock_release
  | OpDestroy => discard WakeLock_destroy
  | OpCheckPermissions ty => discard (checkPermissions ty)
  | OpSentinelRelease sid => discard (sentinel_release sid)
  | OpAddListener sid id throws => discard (sentinel_addEventListener sid (UserListener id throws))
  | OpRemoveListener sid id throws =>
      discard (sentinel_removeEventListener sid (UserListener id throws))
  | OpStrategyRequest k ty opts => discard (strategy_request k ty opts)
  | OpStrategyRelease k => discard (strategy_release k)
  | OpNativeRevoked nid => discard (nativeRevoked nid)
  | OpVisibility hidden => discard (visibilityChanged hidden)
  | OpBattery lvl chg => discard (batteryChanged lvl chg)
  | OpMonitorTimer => discard monitoringTimerCallback
  | OpThrottleTimer => updMonitor (set_pm_inThrottle false)
  | OpClock now => modify (set_clock now)
  end.

Definition run (ops : list Op) (st : Sys) : Sys :=
  fold_left (fun s op => (perform op s).2) ops st.

(** A state of a [WakeLock] instance: what a sequence of operations and
    platform events makes of a freshly constructed one. *)
Definition reachable (st : Sys) : Prop :=
  exists cfg ops, st = run ops (WakeLock_new cfg).

(** ** Notions used in the statements *)

(** The calls of strategies' [request] recorded in a trace. *)
Definition requestsOf (tr : list Effect) : list (ObjId * WakeLockType) :=
  omap (fun e => match e with StrategyRequest k ty => Some (k, ty) | _ => None end) tr.

(** The notifications recorded in a trace. *)
Definition emitted (tr : list Effect) : list WakeLockEvent :=
  omap (fun e => match e with Emit ev => Some ev | _ => None end) tr.

(** How often the user listener [id] was called. *)
Definition isCallOf (id : nat) (e : Effect) : bool :=
  match e with ListenerCall i => bool_decide (i = id) | _ => false end.

Definition callsOf (id : nat) (tr : list Effect) : nat :=
  length (filter (fun e => isCallOf id e = true) tr).

(** The orchestrator's view of a step that is not a successful request:
    the host and the strategy list stay, and the active sentinel stays or
    is dropped. *)
Definition orch_le (st st' : Sys) : Prop :=
  env st' = env st /\
  strategies (wl st') = strategies (wl st) /\
  (activeSentinel (wl st') = activeSentinel (wl st) \/ activeSentinel (wl st') = None).

(** What holds of every instance that has an active sentinel. *)
Definition adopted_ok (st : Sys) : Prop :=
  activeSentinel (wl st) <> None ->
  isSSR st = false /\ strategies (wl st) <> [].

(** What [request] does before it tries the strategies: the permission
    gate for passive requests, and the start of the monitor. *)
Definition prelude (ty : WakeLockType) (requestOptions : RequestOptions) : M unit :=
  passiveGate ty requestOptions ;; startMonitoring.

(** ** Sample hosts and instances *)

(** A browser with every capability, conforming to the Screen Wake Lock
    API, where every acquisition succeeds and the permission is granted. *)
Definition browser : Env :=
  {| env_ssr := false;
     env_wakeLock := true;
     env_wakeLockStub := false;
     env_video := true;
     env_audio := true;
     env_permissions := true;
     env_iframe := false;
     env_hasFocus := true;
     env_mobile := false;
     env_heuristicsThrow := false;
     env_nativeFires := true;
     env_acquire := fun _ _ => None;
     env_nativeRelease := fun _ => None;
     env_query := fun _ _ => Some granted;
     env_metrics := fun _ => mkMetrics 0 0 0 0 |}.

(** [new WakeLock({ strategies: [new TimerStrategy()] })] *)
Definition timerOnly : Config :=
  {| cfg_env := browser;
     cfg_clock := 1000;
     cfg_hidden := false;
     cfg_battery := None;
     cfg_objects := fun _ => TimerStrategy;
     cfg_strategies := Some [0%nat];
     cfg_debug := Absent;
     cfg_batteryOptimization := Absent;
     cfg_performanceMonitoring := Absent;
     cfg_passive := Absent |}.

(** ... after [await wakeLock.request('system')]. *)
Definition timerSystemHeld : Sys :=
  run [OpRequest system noOptions] (WakeLock_new timerOnly).

(** The trace only grows. *)
Definition trace_ext (st st' : Sys) : Prop :=
  exists rest, trace st' = trace st ++ rest.

(** [timerOnly] after [await wakeLock.checkPermissions('screen')]: the
    answer [granted] is cached at time 1000. *)
Definition grantedCached : Sys :=
  run [OpCheckPermissions screen] (WakeLock_new timerOnly).

(** A step that leaves the strategies and the orchestrator alone. *)
Definition quiet (st st' : Sys) : Prop :=
  requestsOf (trace st') = requestsOf (trace st) /\
  emitted (trace st') = emitted (trace st) /\
  strategyObjs st' = strategyObjs st /\
  sentinels st' = sentinels st /\
  natives st' = natives st /\
  wl st' = wl st.

(** A phone on which the permission would have to be asked for. *)
Definition phone : Env :=
  {| env_ssr := false;
     env_wakeLock := true;
     env_wakeLockStub := false;
     env_video := true;
     env_audio := true;
     env_permissions := true;
     env_iframe := false;
     env_hasFocus := true;
     env_mobile := true;
     env_heuristicsThrow := false;
     env_nativeFires := true;
     env_acquire := fun _ _ => None;
     env_nativeRelease := fun _ => None;
     env_query := fun _ _ => Some prompt;
     env_metrics := fun _ => mkMetrics 0 0 0 0 |}.

(** [new WakeLock()] on the phone. *)
Definition onPhone : Config :=
  {| cfg_env := phone;
     cfg_clock := 1000;
     cfg_hidden := false;
     cfg_battery := None;
     cfg_objects := fun _ => TimerStrategy;
     cfg_strategies := None;
     cfg_debug := Absent;
     cfg_batteryOptimization := Absent;
     cfg_performanceMonitoring := Absent;
     cfg_passive := Absent |}.

(** [{ passive: true }] *)
Definition passiveOptions : RequestOptions := mkRequestOptions (Present true) Absent Absent.

(** What the release paths do to the store: sentinels stay where they
    are, keep their class, their strategy and their native sentinel, and a
    set [_released] flag stays set; strategies keep their class. *)
Definition heap_le (st st' : Sys) : Prop :=
  (forall s x, sentinels st !! s = Some x ->
     exists x', sentinels st' !! s = Some x' /\
       s_class x' = s_class x /\ s_strategy x' = s_strategy x /\
       s_native x' = s_native x /\ s_key x' = s_key x /\ s_type x' = s_type x /\
       (s_released x = true -> s_released x' = true)) /\
  (forall n y, natives st !! n = Some y ->
     exists y', natives st' !! n = Some y' /\ (n_released y = true -> n_released y' = true)) /\
  (forall k, cls (theStrategy st' k) = cls (theStrategy st k)).

(** The sentinel [s] exists, and is a wrapped sentinel if [wrapped]. *)
Definition tracked_ok (wrapped : bool) (st : Sys) (s : ObjId) : Prop :=
  exists x, sentinels st !! s = Some x /\
            (wrapped = true -> s_class x = ScreenWakeLockStrategy).

(** The sentinel [s] exists and its [_released] flag is set. *)
Definition flagged (st : Sys) (s : ObjId) : Prop :=
  exists x, sentinels st !! s = Some x /\ s_released x = true.

(** A browser on which releasing a native sentinel always rejects. *)
Definition rejecting : Env :=
  {| env_ssr := false;
     env_wakeLock := true;
     env_wakeLockStub := false;
     env_video := true;
     env_audio := true;
     env_permissions := true;
     env_iframe := false;
     env_hasFocus := true;
     env_mobile := false;
     env_heuristicsThrow := false;
     env_nativeFires := true;
     env_acquire := fun _ _ => None;
     env_nativeRelease := fun _ => Some (ThrownError "InvalidStateError" "release failed");
     env_query := fun _ _ => Some granted;
     env_metrics := fun _ => mkMetrics 0 0 0 0 |}.

(** [new WakeLock()] there, after [await wakeLock.request('screen')]. *)
Definition screenHeldRejecting : Sys :=
  run [OpRequest screen noOptions]
    (WakeLock_new
       {| cfg_env := rejecting;
          cfg_clock := 1000;
          cfg_hidden := false;
          cfg_battery := None;
          cfg_objects := fun _ => TimerStrategy;
          cfg_strategies := None;
          cfg_debug := Absent;
          cfg_batteryOptimization := Absent;
          cfg_performanceMonitoring := Absent;
          cfg_passive := Absent |}).

(** A computation whose final state is always [R]-related to its
    initial state, whatever its result. *)
Definition preserves (R : Sys -> Sys -> Prop) {A} (m : M A) : Prop :=
  forall st, R st (m st).2.

(** What a call of a strategy's [request] leaves in place: the objects
    made before, the sentinels in the strategies' sets, and the entries of
    the strategies' maps under identifiers made before. *)
Definition frame (st st' : Sys) : Prop :=
  (nextObj st <= nextObj st')%nat /\
  (nextKey st <= nextKey st')%nat /\
  (forall s, (s < nextObj st)%nat -> sentinels st' !! s = sentinels st !! s) /\
  (forall n, (n < nextObj st)%nat -> natives st' !! n = natives st !! n) /\
  (forall k,
     cls (theStrategy st' k) = cls (theStrategy st k) /\
     (forall s, s ∈ activeSentinels (theStrategy st k) ->
                s ∈ activeSentinels (theStrategy st' k)) /\
     (forall key, (key < nextKey st)%nat ->
                  mapGet key (activeEntries (theStrategy st' k)) =
                  mapGet key (activeEntries (theStrategy st k)))).

(** The strategy [k] tracks the unreleased sentinel [s], which was made
    before, as was its native sentinel and the identifier it is filed under. *)
Definition alive (st : Sys) (k s : ObjId) : Prop :=
  (s < nextObj st)%nat /\
  released st s = false /\
  (s_class (theSentinel st s) = ScreenWakeLockStrategy ->
   (s_native (theSentinel st s) < nextObj st)%nat) /\
  match cls (theStrategy st k) with
  | ScreenWakeLockStrategy => s ∈ activeSentinels (theStrategy st k)
  | _ => exists key, (key < nextKey st)%nat /\
                     mapGet key (activeEntries (theStrategy st k)) = Some s
  end.

(** [new WakeLock()] in the [browser]. *)
Definition inBrowser : Config :=
  {| cfg_env := browser;
     cfg_clock := 1000;
     cfg_hidden := false;
     cfg_battery := None;
     cfg_objects := fun _ => TimerStrategy;
     cfg_strategies := None;
     cfg_debug := Absent;
     cfg_batteryOptimization := Absent;
     cfg_performanceMonitoring := Absent;
     cfg_passive := Absent |}.

(** A step during which no strategy's [request] is called. *)
Definition noreq (st st' : Sys) : Prop :=
  requestsOf (trace st') = requestsOf (trace st).

(** Every strategy of [rest], tried in turn from the state [st], fails:
    [errs] are the errors recorded for them, in order, and [st'] is the
    state after the last [catch]. *)
Inductive allFail (all : list ObjId) (ty : WakeLockType) (ro : RequestOptions)
  : list ObjId -> Sys -> list WakeLockError -> Sys -> Prop :=
| allFail_nil st : allFail all ty ro [] st [] st
| allFail_cons k rest st e st1 w st2 errs st3 :
    attempt k ty ro st = (Throw e, st1) ->
    recordFailure all k e st1 = (Ok w, st2) ->
    allFail all ty ro rest st2 errs st3 ->
    allFail all ty ro (k :: rest) st (w :: errs) st3.

(** [new WakeLock({ strategies: [] })] on the phone. *)
Definition noStrategiesOnPhone : Config :=
  {| cfg_env := phone;
     cfg_clock := 1000;
     cfg_hidden := false;
     cfg_battery := None;
     cfg_objects := fun _ => TimerStrategy;
     cfg_strategies := Some [];
     cfg_debug := Absent;
     cfg_batteryOptimization := Absent;
     cfg_performanceMonitoring := Absent;
     cfg_passive := Absent |}.

(** [const v = new VideoElementStrategy();
     new WakeLock({ strategies: [v, v], performanceMonitoring: false })]
    in the browser. *)
Definition sameStrategyTwice : Config :=
  {| cfg_env := browser;
     cfg_clock := 1000;
     cfg_hidden := false;
     cfg_battery := None;
     cfg_objects := fun _ => VideoElementStrategy;
     cfg_strategies := Some [0%nat; 0%nat];
     cfg_debug := Absent;
     cfg_batteryOptimization := Absent;
     cfg_performanceMonitoring := Present false;
     cfg_passive := Absent |}.

(** [timerOnly] after [await wakeLock.request('screen')]. *)
Definition timerScreenHeld : Sys :=
  run [OpRequest screen noOptions] (WakeLock_new timerOnly).

(** In the browser: [const s = new ScreenWakeLockStrategy()], then
    [const sentinel = await s.request('screen')] and
    [sentinel.addEventListener('release', f)] for a callback [f] (number 7)
    that does not throw. *)
Definition screenSentinelWithSubscriber : Sys :=
  run [OpStrategyRequest 0%nat screen noOptions; OpAddListener 1%nat 7%nat false]
    (WakeLock_new inBrowser).

(** A step during which the orchestrator notifies nothing. *)
Definition noemit (st st' : Sys) : Prop :=
  emitted (trace st') = emitted (trace st).

(** A browser without the Permissions API. *)
Definition withoutPermissionsApi : Env :=
  {| env_ssr := false;
     env_wakeLock := true;
     env_wakeLockStub := false;
     env_video := true;
     env_audio := true;
     env_permissions := false;
     env_iframe := false;
     env_hasFocus := true;
     env_mobile := true;
     env_heuristicsThrow := false;
     env_nativeFires := true;
     env_acquire := fun _ _ => None;
     env_nativeRelease := fun _ => None;
     env_query := fun _ _ => None;
     env_metrics := fun _ => mkMetrics 0 0 0 0 |}.

(** [new WakeLock()] there. *)
Definition unknownPermission : Sys :=
  WakeLock_new
    {| cfg_env := withoutPermissionsApi;
       cfg_clock := 1000;
       cfg_hidden := false;
       cfg_battery := None;
       cfg_objects := fun _ => TimerStrategy;
       cfg_strategies := None;
       cfg_debug := Absent;
       cfg_batteryOptimization := Absent;
       cfg_performanceMonitoring := Absent;
       cfg_passive := Absent |}.

(** The store is well formed: its objects were made before, and what
    the strategies track are sentinels of the store, wrapped ones in the
    sets of the native-lock strategy. *)
Definition store_ok (st : Sys) : Prop :=
  (forall s, is_Some (sentinels st !! s) -> (s < nextObj st)%nat) /\
  (forall n, is_Some (natives st !! n) -> (n < nextObj st)%nat) /\
  (forall k s, s ∈ activeSentinels (theStrategy st k) ->
     exists x, sentinels st !! s = Some x /\ s_class x = ScreenWakeLockStrategy) /\
  (forall k s, s ∈ (activeEntries (theStrategy st k)).*2 -> is_Some (sentinels st !! s)).

(** What a step may do to a sentinel and to a native sentinel: the class
    and the native sentinel stay, and a flag that is set stays set. *)
Definition sentinel_le (x x' : Sentinel) : Prop :=
  s_class x' = s_class x /\ s_native x' = s_native x /\
  (s_released x = true -> s_released x' = true).

Definition native_le (y y' : NativeSentinel) : Prop :=
  n_released y = true -> n_released y' = true.

(** A step that makes no object, clears no flag and lets no strategy
    track more. *)
Definition tidy (st st' : Sys) : Prop :=
  (nextObj st <= nextObj st')%nat /\
  (forall s, option_Forall2 sentinel_le (sentinels st !! s) (sentinels st' !! s)) /\
  (forall n, option_Forall2 native_le (natives st !! n) (natives st' !! n)) /\
  (forall k s, s ∈ activeSentinels (theStrategy st' k) ->
               s ∈ activeSentinels (theStrategy st k)) /\
  (forall k s, s ∈ (activeEntries (theStrategy st' k)).*2 ->
               s ∈ (activeEntries (theStrategy st k)).*2).

(** A step that keeps the store well formed, and after which every
    sentinel of the store is still there, and reads released if it did. *)
Definition sound (st st' : Sys) : Prop :=
  store_ok st ->
  store_ok st' /\
  forall s, is_Some (sentinels st !! s) ->
    is_Some (sentinels st' !! s) /\ (released st s = true -> released st' s = true).

(** * Further parts of the sources *)

From Stdlib Require Import DecimalString Sorting.Sorted Sorting.Permutation.

(** ** [WakeLock.getStatus] and the getters of [PerformanceMonitor] it reads *)

(** [interface WakeLockStatus] *)
Record WakeLockStatus := mkWakeLockStatus {
  status_isActive : bool;
  status_type : option WakeLockType;
  status_strategy : option string;
  status_startTime : option Z;
  status_batteryLevel : option Q;
  status_performanceMetrics : option PerformanceMetrics
}.

(** [PerformanceMonitor.getLastMetrics] *)
Definition getLastMetrics (st : Sys) : option PerformanceMetrics :=
  pm_lastMetrics (performanceMonitor st).

(** [PerformanceMonitor.isLowBattery]: [this.battery] is the platform's
    battery object once [initializeBatteryMonitoring] got it. *)
Definition isLowBattery (st : Sys) : bool :=
  if pm_battery (performanceMonitor st) then
    match battery st with
    | Some b => Qle_bool (level b) (pm_batteryThreshold (performanceMonitor st))
    | None => false
    end
  else false.

(** [PerformanceMonitor.isHighCpuUsage] *)
Definition isHighCpuUsage (st : Sys) : bool :=
  match getLastMetrics st with
  | Some m => Qle_bool (pm_performanceThreshold (performanceMonitor st)) (cpuUsage m)
  | None => false
  end.

Definition getStatus (st : Sys) : WakeLockStatus :=
  let performanceMetrics := getLastMetrics st in
  let batteryLevel :=
    if isLowBattery st then batteryDrain <$> getLastMetrics st else None in
  mkWakeLockStatus
    (match activeSentinel (wl st) with
     | Some s => negb (released st s)
     | None => false
     end)
    (match activeSentinel (wl st) with
     | Some s => Some (s_type (theSentinel st s))
     | None => None
     end)
    (match currentStrategy (wl st) with
     | Some k => Some (strategyName st k)
     | None => None
     end)
    (match activeSentinel (wl st) with
     | Some _ => Some (clock st)
     | None => None
     end)
    batteryLevel
    performanceMetrics.

(** ** [PermissionManager]: the rest of the class *)

(** [clearPermissionCache] *)
Definition clearPermissionCache : M unit :=
  modify (set_permissionManager (mkPermissionManager ∅ ∅)).

Definition permissionError (message : string) (code : WakeLockErrorCode) : Thrown :=
  ThrownWakeLockError (mkWakeLockError message code (Some "permission-manager")).

(** What calling [navigator.wakeLock.request] throws where [request] is
    not a function (the message is the engine's). *)
Definition requestNotCallable : Thrown :=
  ThrownError "TypeError" "navigator.wakeLock.request is not a function".

(** [requestWakeLockPermission].  The attempt is made where
    [navigator.wakeLock] is truthy, whether or not it has a [request]
    function: it asks the platform for a lock ([navigator.wakeLock.request])
    and releases what it got; [None] from the [try] statement stands for
    control leaving it without a [return] (no [navigator.wakeLock], or a
    thrown value that is not an [Error]). *)
Definition requestWakeLockPermission (ty : WakeLockType) : M PermissionState :=
  let* ssr := gets isSSR in
  if ssr then
    throw (permissionError "Wake lock not supported in server-side rendering" NOT_SUPPORTED)
  else
    let* currentPermission := checkWakeLockPermission ty true in
    match currentPermission with
    | Some granted => ret granted
    | _ =>
        let* answer :=
          tryCatch
            (let* present :=
               gets (fun st => env_wakeLock (env st) || env_wakeLockStub (env st)) in
             if present then
               let* callable := gets (fun st => env_wakeLock (env st)) in
               (if callable then acquire ScreenWakeLockStrategy
                else throw requestNotCallable) ;;
               let* wakeLock := newNative (mkNative ty false []) in
               native_release wakeLock ;;
               setCachedPermission (cacheKey ty) granted ;;
               ret (Some granted)
             else ret None)
            (fun e =>
               match e with
               | ThrownValue => ret None
               | _ =>
                   let name :=
                     match e with ThrownError n _ => n | _ => "WakeLockError" end in
                   if String.eqb name "NotAllowedError" then
                     setCachedPermission (cacheKey ty) denied ;;
                     ret (Some denied)
                   else
                     throw (permissionError
                              ("Failed to request " +:+ typeName ty +:+
                               " wake lock permission: " +:+ messageOr "" e)
                              PERMISSION_DENIED)
               end) in
        match answer with
        | Some p => ret p
        | None =>
            throw (permissionError ("Wake lock not supported for type: " +:+ typeName ty)
                     NOT_SUPPORTED)
        end
    end.

(** ** [createTimeout] of [src/utils/helpers.ts] *)

(** [`${ms}`] for a whole number of milliseconds below 10^21, where
    JavaScript prints all the digits. *)
Definition numberText (ms : N) : string :=
  NilZero.string_of_uint (N.to_uint ms).

(** What the timer of [createTimeout] rejects with, and what its abort
    listener rejects with. *)
Definition timeoutError (ms : N) : Thrown :=
  ThrownError "Error" ("Operation timed out after " +:+ numberText ms +:+ "ms").

Definition abortError : Thrown := ThrownError "Error" "Operation was aborted".

(** ** [class EventEmitter] of [src/utils/EventEmitter.ts] *)

Module EventEmitter.

(** A listener is a function object of the emitter's user, with an
    identity; called, it returns or throws.  Listeners that call back into
    the emitter while it dispatches are outside this model. *)
Record Listener := mkListener {
  l_id : nat;
  l_throws : bool
}.

#[global] Instance EventListener_eq_dec : EqDecision Listener.
Proof. solve_decision. Defined.

(** A [Map<keyof T, Set<EventListener>>], in insertion order. *)
Definition ListenerMap := list (string * list Listener).

Fixpoint get (type : string) (m : ListenerMap) : option (list Listener) :=
  match m with
  | [] => None
  | (k, v) :: m' => if String.eqb k type then Some v else get type m'
  end.

Definition has (type : string) (m : ListenerMap) : bool :=
  match get type m with Some _ => true | None => false end.

(** [m.set(type, v)] *)
Fixpoint set (type : string) (v : list Listener) (m : ListenerMap) : ListenerMap :=
  match m with
  | [] => [(type, v)]
  | (k, v') :: m' => if String.eqb k type then (k, v) :: m' else (k, v') :: set type v m'
  end.

(** [m.delete(type)] *)
Fixpoint delete (type : string) (m : ListenerMap) : ListenerMap :=
  match m with
  | [] => []
  | (k, v) :: m' => if String.eqb k type then delete type m' else (k, v) :: delete type m'
  end.

(** A method called on [m.get(type)] that changes the set in place. *)
Fixpoint update (type : string) (f : list Listener -> list Listener) (m : ListenerMap)
    : ListenerMap :=
  match m with
  | [] => []
  | (k, v) :: m' => if String.eqb k type then (k, f v) :: m' else (k, v) :: update type f m'
  end.

Definition keys (m : ListenerMap) : list string := m.*1.

(** The two private fields. *)
Record t := mk {
  listeners : ListenerMap;
  onceListeners : ListenerMap
}.

(** [new EventEmitter()] *)
Definition new : t := mk [] [].

(** [addEventListener(type, listener, options)]; [once] is
    [typeof options === 'object' ? options.once : false]. *)
Definition addEventListener (type : string) (listener : Listener) (once : bool) (e : t) : t :=
  let add (listenerMap : ListenerMap) : ListenerMap :=
    let listenerMap1 := if has type listenerMap then listenerMap else set type [] listenerMap in
    update type (setAdd listener) listenerMap1 in
  if once then mk (listeners e) (add (onceListeners e))
  else mk (add (listeners e)) (onceListeners e).

Definition removeEventListener (type : string) (listener : Listener) (e : t) : t :=
  mk (update type (setDelete listener) (listeners e))
     (update type (setDelete listener) (onceListeners e)).

(** A call of a listener: it is recorded with the event it got, then the
    listener returns or throws ([None]). *)
Definition invoke {Ev : Type} (listener : Listener) (event : Ev)
    (calls : list (Listener * Ev)) : option unit * list (Listener * Ev) :=
  (if l_throws listener then None else Some tt, calls ++ [(listener, event)]).

(** [for (const listener of set) { try { listener(event) } catch { console.error } }] *)
Fixpoint callAll {Ev : Type} (set : list Listener) (event : Ev)
    (calls : list (Listener * Ev)) : list (Listener * Ev) :=
  match set with
  | [] => calls
  | listener :: rest =>
      let (_, calls1) := invoke listener event calls in
      callAll rest event calls1
  end.

(** [dispatchEvent(type, event)]: the result, the emitter afterwards, and
    the calls made. *)
Definition dispatchEvent {Ev : Type} (type : string) (event : Ev) (e : t)
    : bool * t * list (Listener * Ev) :=
  let calls1 :=
    match get type (listeners e) with
    | Some regularListeners => callAll regularListeners event []
    | None => []
    end in
  match get type (onceListeners e) with
  | Some onceSet =>
      (true, mk (listeners e) (delete type (onceListeners e)), callAll onceSet event calls1)
  | None => (true, e, calls1)
  end.

Definition on (type : string) (listener : Listener) (e : t) : t :=
  addEventListener type listener false e.

Definition off (type : string) (listener : Listener) (e : t) : t :=
  removeEventListener type listener e.

Definition once (type : string) (listener : Listener) (e : t) : t :=
  addEventListener type listener true e.

Definition emit {Ev : Type} (type : string) (event : Ev) (e : t)
    : bool * t * list (Listener * Ev) :=
  dispatchEvent type event e.

(** [this.listeners.get(type)?.size ?? 0] *)
Definition size (type : string) (m : ListenerMap) : nat :=
  match get type m with Some s => length s | None => 0%nat end.

Definition listenerCount (type : string) (e : t) : nat :=
  (size type (listeners e) + size type (onceListeners e))%nat.

Definition hasListeners (type : string) (e : t) : bool :=
  negb (Nat.eqb (listenerCount type e) 0).

(** [removeAllListeners(type?)] *)
Definition removeAllListeners (type : option string) (e : t) : t :=
  match type with
  | Some ty => mk (delete ty (listeners e)) (delete ty (onceListeners e))
  | None => mk [] []
  end.

(** [eventNames()]: the keys of both maps, collected in a [Set]. *)
Definition eventNames (e : t) : list string :=
  fold_left (fun names name => setAdd name names)
    (keys (listeners e) ++ keys (onceListeners e)) [].

(** [m.get(type)] as a list: no listener when the type has no entry. *)
Definition registered (type : string) (m : ListenerMap) : list Listener :=
  default [] (get type m).

(** The listeners that a list of calls went to. *)
Definition called {Ev : Type} (calls : list (Listener * Ev)) : list Listener := calls.*1.

End EventEmitter.

(** ** Notions used in the further properties *)

(** A step that changes the class of no strategy. *)
Definition same_classes (st st' : Sys) : Prop :=
  forall k, cls (theStrategy st' k) = cls (theStrategy st k).

(** A browser in which no timer can be set up, and
    [new WakeLock({ strategies: [new TimerStrategy()] })] there. *)
Definition timerFailing : Config :=
  {| cfg_env :=
       {| env_ssr := false;
          env_wakeLock := true;
          env_wakeLockStub := false;
          env_video := true;
          env_audio := true;
          env_permissions := true;
          env_iframe := false;
          env_hasFocus := true;
          env_mobile := false;
          env_heuristicsThrow := false;
          env_nativeFires := true;
          env_acquire := fun _ c =>
            match c with
            | TimerStrategy => Some (ThrownError "Error" "no timers")
            | _ => None
            end;
          env_nativeRelease := fun _ => None;
          env_query := fun _ _ => Some granted;
          env_metrics := fun _ => mkMetrics 0 0 0 0 |};
     cfg_clock := 1000;
     cfg_hidden := false;
     cfg_battery := None;
     cfg_objects := fun _ => TimerStrategy;
     cfg_strategies := Some [0%nat];
     cfg_debug := Absent;
     cfg_batteryOptimization := Absent;
     cfg_performanceMonitoring := Absent;
     cfg_passive := Absent |}.

(** A browser in which every acquisition loses the race against the
    timeout of 10 seconds, and [new WakeLock()] there. *)
Definition timingOut : Config :=
  {| cfg_env :=
       {| env_ssr := false;
          env_wakeLock := true;
          env_wakeLockStub := false;
          env_video := true;
          env_audio := true;
          env_permissions := true;
          env_iframe := false;
          env_hasFocus := true;
          env_mobile := false;
          env_heuristicsThrow := false;
          env_nativeFires := true;
          env_acquire := fun _ _ => Some (timeoutError 10000);
          env_nativeRelease := fun _ => None;
          env_query := fun _ _ => Some granted;
          env_metrics := fun _ => mkMetrics 0 0 0 0 |};
     cfg_clock := 1000;
     cfg_hidden := false;
     cfg_battery := None;
     cfg_objects := fun _ => TimerStrategy;
     cfg_strategies := None;
     cfg_debug := Absent;
     cfg_batteryOptimization := Absent;
     cfg_performanceMonitoring := Absent;
     cfg_passive := Absent |}.

(** A step during which time does not pass on the host. *)
Definition same_time (st st' : Sys) : Prop :=
  clock st' = clock st /\ env st' = env st.

(** A step after which no [release] is under way when none was before. *)
Definition idle_le (st st' : Sys) : Prop :=
  isReleasing (wl st) = false -> isReleasing (wl st') = false.

(** The [performance] notifications recorded in a trace. *)
Definition performancesOf (tr : list Effect) : list PerformanceMetrics :=
  omap (fun e => match e with Emit (performance m) => Some m | _ => None end) tr.

(** The notifications of a trace that come from the monitor. *)
Definition monitorEvents (tr : list Effect) : list WakeLockEvent :=
  omap (fun e =>
          match e with
          | Emit (performance m) => Some (performance m)
          | Emit (battery_change l c) => Some (battery_change l c)
          | _ => None
          end) tr.

(** A phone with a battery at 50%, not charging, and
    [new WakeLock({ strategies: [new TimerStrategy()] })] on it. *)
Definition withBattery : Config :=
  {| cfg_env := browser;
     cfg_clock := 1000;
     cfg_hidden := false;
     cfg_battery := Some (mkBattery (1 # 2) false false false);
     cfg_objects := fun _ => TimerStrategy;
     cfg_strategies := Some [0%nat];
     cfg_debug := Absent;
     cfg_batteryOptimization := Absent;
     cfg_performanceMonitoring := Absent;
     cfg_passive := Absent |}.

(** ... after [await wakeLock.request('screen')]. *)
Definition lockHeldOnBattery : Sys :=
  run [OpRequest screen noOptions] (WakeLock_new withBattery).

(** The same with [performanceMonitoring: false]. *)
Definition unmonitored : Config :=
  {| cfg_env := browser;
     cfg_clock := 1000;
     cfg_hidden := false;
     cfg_battery := Some (mkBattery (1 # 2) false false false);
     cfg_objects := fun _ => TimerStrategy;
     cfg_strategies := Some [0%nat];
     cfg_debug := Absent;
     cfg_batteryOptimization := Absent;
     cfg_performanceMonitoring := Present false;
     cfg_passive := Absent |}.

(** A step within one window of the throttle: at most one [performance]
    notification is added, none if the window was open before, and the
    window is open after a notification. *)
Definition throttled (st st' : Sys) : Prop :=
  let n := length (performancesOf (trace st)) in
  let n' := length (performancesOf (trace st')) in
  (n <= n')%nat /\
  (n' <= n + (if pm_inThrottle (performanceMonitor st) then 0 else 1))%nat /\
  (pm_inThrottle (performanceMonitor st) = true \/ (n < n')%nat ->
   pm_inThrottle (performanceMonitor st') = true).

(** A computation that never throws. *)
Definition safe {A} (m : M A) : Prop :=
  forall st, exists a st', m st = (Ok a, st').

(** The monitor has its handlers on the battery only while it runs. *)
Definition listening_ok (st : Sys) : Prop :=
  pm_isMonitoring (performanceMonitor st) = false ->
  pm_battery (performanceMonitor st) = true ->
  forall bm, battery st = Some bm -> onlevelchange bm = false /\ onchargingchange bm = false.

Definition listening_le (st st' : Sys) : Prop :=
  listening_ok st -> listening_ok st'.

(** A monitor that was disabled when the instance was constructed, in
    its initial state. *)
Definition monitor_off (st : Sys) : Prop :=
  pm_enabled (performanceMonitor st) = false /\
  pm_isMonitoring (performanceMonitor st) = false /\
  pm_battery (performanceMonitor st) = false /\
  pm_lastMetrics (performanceMonitor st) = None.

Definition off_le (st st' : Sys) : Prop :=
  monitor_off st ->
  monitor_off st' /\ monitorEvents (trace st') = monitorEvents (trace st).

(** [withBattery] after a request and the release of the lock. *)
Definition lockReleasedOnBattery : Sys :=
  run [OpRequest screen noOptions; OpRelease] (WakeLock_new withBattery).

(** A step that leaves the host, the orchestrator and the monitor alone. *)
Definition gate_le (st st' : Sys) : Prop :=
  env st' = env st /\ wl st' = wl st /\ performanceMonitor st' = performanceMonitor st.

(** A step that neither adopts a sentinel nor stops a running monitor. *)
Definition unheld_le (st st' : Sys) : Prop :=
  activeSentinel (wl st) = None /\ pm_isMonitoring (performanceMonitor st) = true ->
  activeSentinel (wl st') = None /\ pm_isMonitoring (performanceMonitor st') = true.

(** A step that leaves the orchestrator's fields as they are. *)
Definition same_wl (st st' : Sys) : Prop := wl st' = wl st.

(** A step that, made while no unreleased sentinel is held, leaves the
    orchestrator's fields as they are. *)
Definition blocked_le (st st' : Sys) : Prop :=
  activeUnreleased st = None -> activeUnreleased st' = None /\ wl st' = wl st.

(** What a step may do to a sentinel: the class, the strategy and the
    identifier it was made with stay, and a [_released] flag that is set
    stays set. *)
Definition fields_le (x x' : Sentinel) : Prop :=
  s_class x' = s_class x /\ s_strategy x' = s_strategy x /\ s_key x' = s_key x /\
  (s_released x = true -> s_released x' = true).

(** A step that makes no sentinel and changes no map of a strategy, but
    the map of the strategy [only] if one is given. *)
Definition loose (only : option ObjId) (st st' : Sys) : Prop :=
  (nextKey st <= nextKey st')%nat /\
  (forall s, option_Forall2 fields_le (sentinels st !! s) (sentinels st' !! s)) /\
  (forall k, Some k <> only ->
     activeEntries (theStrategy st' k) = activeEntries (theStrategy st k)).

(** Every unreleased sentinel of a video, audio or timer strategy is
    filed in the map of the strategy that made it, under the identifier it
    was made with; identifiers are handed out in order. *)
Definition filed_ok (st : Sys) : Prop :=
  forall s x, sentinels st !! s = Some x -> s_class x <> ScreenWakeLockStrategy ->
    (s_key x < nextKey st)%nat /\
    (s_released x = false ->
     mapGet (s_key x) (activeEntries (theStrategy st (s_strategy x))) = Some s).

Definition filed_le (st st' : Sys) : Prop :=
  store_ok st /\ filed_ok st -> store_ok st' /\ filed_ok st'.

(** The sentinel that the orchestrator holds is an object of the store. *)
Definition adopted_stored (st : Sys) : Prop :=
  forall s, activeSentinel (wl st) = Some s -> is_Some (sentinels st !! s).

(** A step that keeps the sentinels filed. *)
Definition keeps_filed (st st' : Sys) : Prop := filed_ok st -> filed_ok st'.

(** How the wrappers of the native-lock strategy are wired: a wrapper is
    made right after the platform's sentinel it wraps, and the anonymous
    listener on a platform sentinel is the one of its wrapper. *)
Definition wired_ok (st : Sys) : Prop :=
  (forall s x, sentinels st !! s = Some x -> s_class x = ScreenWakeLockStrategy ->
     s = S (s_native x)) /\
  (forall n y w, natives st !! n = Some y -> NativeAnon w ∈ n_listeners y -> w = S n).

Definition keeps_wired (st st' : Sys) : Prop := wired_ok st -> wired_ok st'.

(** A step that leaves the sentinel [s1] as it is, with the platform's
    sentinel [n1] if one is given, and in the collections that hold it. *)
Definition spares (s1 : ObjId) (n1 : option ObjId) (st st' : Sys) : Prop :=
  sentinels st' !! s1 = sentinels st !! s1 /\
  (forall n, n1 = Some n -> natives st' !! n = natives st !! n) /\
  (forall k, cls (theStrategy st' k) = cls (theStrategy st k)) /\
  (forall k, s1 ∈ activeSentinels (theStrategy st k) ->
             s1 ∈ activeSentinels (theStrategy st' k)) /\
  (forall k key, mapGet key (activeEntries (theStrategy st k)) = Some s1 ->
                 mapGet key (activeEntries (theStrategy st' k)) = Some s1).

(** * Properties *)

(** ** Reasoning about computations *)

Lemma bind_Ok {A B} (m : M A) (f : A -> M B) st a st1 :
  m st = (Ok a, st1) -> bind m f st = f a st1.
Proof. intros H. unfold bind. by rewrite H. Qed.

Lemma bind_Throw {A B} (m : M A) (f : A -> M B) st t st1 :
  m st = (Throw t, st1) -> bind m f st = (Throw t, st1).
Proof. intros H. unfold bind. by rewrite H. Qed.

Lemma bind_inv {A B} (m : M A) (f : A -> M B) st r st' :
  bind m f st = (r, st') ->
  (exists a st1, m st = (Ok a, st1) /\ f a st1 = (r, st')) \/
  (exists t, m st = (Throw t, st') /\ r = Throw t).
Proof.
  unfold bind. destruct (m st) as [[a|t] st1]; intros H.
  - left. eauto.
  - right. exists t. by inversion H.
Qed.

Section Preserves.
Context (R : Sys -> Sys -> Prop) `{!Reflexive R} `{!Transitive R}.

Lemma preserves_ret {A} (a : A) : preserves R (ret a).
Proof. intros st. apply reflexivity. Qed.

Lemma preserves_throw {A} t : preserves R (@throw A t).
Proof. intros st. apply reflexivity. Qed.

Lemma preserves_gets {A} (f : Sys -> A) : preserves R (gets f).
Proof. intros st. apply reflexivity. Qed.

Lemma preserves_modify f : (forall st, R st (f st)) -> preserves R (modify f).
Proof. intros H st. apply H. Qed.

Lemma preserves_bind {A B} (m : M A) (f : A -> M B) :
  preserves R m -> (forall a, preserves R (f a)) -> preserves R (bind m f).
Proof.
  intros Hm Hf st. unfold bind. specialize (Hm st).
  destruct (m st) as [[a|t] st1]; simpl in *; [|done].
  etrans; [done|]. apply Hf.
Qed.

Lemma preserves_tryCatch {A} (m : M A) h :
  preserves R m -> (forall t, preserves R (h t)) -> preserves R (tryCatch m h).
Proof.
  intros Hm Hh st. unfold tryCatch. specialize (Hm st).
  destruct (m st) as [[a|t] st1]; simpl in *; [done|].
  etrans; [done|]. apply Hh.
Qed.

Lemma preserves_tryFinally {A} (m : M A) fin :
  preserves R m -> preserves R fin -> preserves R (tryFinally m fin).
Proof.
  intros Hm Hf st. unfold tryFinally. specialize (Hm st).
  destruct (m st) as [r st1]; simpl in *. specialize (Hf st1).
  destruct (fin st1) as [[[]|t] st2]; simpl in *; by etrans.
Qed.

Lemma preserves_when b m : preserves R m -> preserves R (when b m).
Proof. intros H. destruct b; [done|]. apply preserves_ret. Qed.

Lemma preserves_forEach {A} (f : A -> M unit) xs :
  (forall x, preserves R (f x)) -> preserves R (forEach f xs).
Proof.
  intros H. induction xs as [|x xs IH]; simpl.
  - apply preserves_ret.
  - apply preserves_bind; [apply H | intros _; apply IH].
Qed.

Lemma preserves_discard {A} (m : M A) : preserves R m -> preserves R (discard m).
Proof. intros H st. apply H. Qed.
End Preserves.

(** Breaks a goal [preserves R m] down along the structure of [m];
    [prim] closes the goals about single field updates. *)
Ltac preserves_with prim :=
  repeat match goal with
    | |- Reflexive _ => apply _
    | |- Transitive _ => apply _
    | |- preserves _ (ret _) => apply preserves_ret
    | |- preserves _ (throw _) => apply preserves_throw
    | |- preserves _ (gets _) => apply preserves_gets
    | |- preserves _ (bind _ _) => apply preserves_bind
    | |- preserves _ (tryCatch _ _) => apply preserves_tryCatch
    | |- preserves _ (tryFinally _ _) => apply preserves_tryFinally
    | |- preserves _ (when _ _) => apply preserves_when
    | |- preserves _ (forEach _ _) => apply preserves_forEach
    | |- preserves _ (discard _) => apply preserves_discard
    | |- preserves _ (modify _) => apply preserves_modify; [try apply _ ..|]; intros ?; prim
    | |- preserves _ (if ?b then _ else _) => destruct b
    | |- preserves _ (match ?x with _ => _ end) => destruct x
    | |- forall _, preserves _ _ => intros ?
    end.

(** ** The orchestrator's slots under everything but a successful request *)

Global Instance orch_le_refl : Reflexive orch_le.
Proof. intros st. unfold orch_le. auto. Qed.

Global Instance orch_le_trans : Transitive orch_le.
Proof.
  intros a b c (E1 & S1 & A1) (E2 & S2 & A2). unfold orch_le.
  split; [congruence|]. split; [congruence|].
  destruct A2 as [A2|A2]; [|by right]. rewrite A2. done.
Qed.

Ltac orch_prim :=
  unfold orch_le; simpl; repeat case_match; simpl; auto.

Create HintDb orch discriminated.

Ltac orch := preserves_with ltac:(orch_prim); try solve [auto with orch].

Lemma orch_record e : preserves orch_le (record e).
Proof. unfold record. orch. Qed.
Lemma orch_emit e : preserves orch_le (emit e).
Proof. apply orch_record. Qed.
Lemma orch_step : preserves orch_le step.
Proof. intros st. orch_prim. Qed.
Lemma orch_generateUniqueId : preserves orch_le generateUniqueId.
Proof. intros st. orch_prim. Qed.
Lemma orch_updSentinel s f : preserves orch_le (updSentinel s f).
Proof. unfold updSentinel. orch. Qed.
Lemma orch_updNative s f : preserves orch_le (updNative s f).
Proof. unfold updNative. orch. Qed.
Lemma orch_updStrategy s f : preserves orch_le (updStrategy s f).
Proof. unfold updStrategy. orch. Qed.
Lemma orch_updMonitor f : preserves orch_le (updMonitor f).
Proof. unfold updMonitor. orch. Qed.
Lemma orch_newSentinel s : preserves orch_le (newSentinel s).
Proof. intros st. orch_prim. Qed.
Lemma orch_newNative s : preserves orch_le (newNative s).
Proof. intros st. orch_prim. Qed.
Lemma orch_setCurrentStrategy v : preserves orch_le (setCurrentStrategy v).
Proof. unfold setCurrentStrategy. orch. Qed.
Lemma orch_setIsReleasing v : preserves orch_le (setIsReleasing v).
Proof. unfold setIsReleasing. orch. Qed.
Lemma orch_clearActiveSentinel : preserves orch_le (setActiveSentinel None).
Proof. unfold setActiveSentinel. orch. Qed.
Lemma orch_stop : preserves orch_le PerformanceMonitor_stop.
Proof. unfold PerformanceMonitor_stop. orch. Qed.
#[export] Hint Resolve orch_record orch_emit orch_step orch_generateUniqueId orch_updSentinel
  orch_updNative orch_updStrategy orch_updMonitor orch_newSentinel orch_newNative
  orch_setCurrentStrategy orch_setIsReleasing orch_clearActiveSentinel orch_stop : orch.

Lemma orch_onRelease s : preserves orch_le (onRelease s).
Proof. unfold onRelease. orch. Qed.
#[export] Hint Resolve orch_onRelease : orch.
Lemma orch_callListener l : preserves orch_le (callListener l).
Proof. unfold callListener. orch. Qed.
#[export] Hint Resolve orch_callListener : orch.
Lemma orch_notifyListeners ls : preserves orch_le (notifyListeners ls).
Proof. unfold notifyListeners. orch. Qed.
#[export] Hint Resolve orch_notifyListeners : orch.
Lemma orch_releaseSentinel k i s : preserves orch_le (releaseSentinel k i s).
Proof. unfold releaseSentinel. orch. Qed.
#[export] Hint Resolve orch_releaseSentinel : orch.
Lemma orch_entrySentinel_release s : preserves orch_le (entrySentinel_release s).
Proof. unfold entrySentinel_release. orch. Qed.
Lemma orch_nativeAnon s : preserves orch_le (nativeAnon s).
Proof. unfold nativeAnon. orch. Qed.
#[export] Hint Resolve orch_entrySentinel_release orch_nativeAnon : orch.
Lemma orch_nativeDispatch n : preserves orch_le (nativeDispatch n).
Proof. unfold nativeDispatch. orch. Qed.
#[export] Hint Resolve orch_nativeDispatch : orch.
Lemma orch_nativeMarkReleased n : preserves orch_le (nativeMarkReleased n).
Proof. unfold nativeMarkReleased. orch. Qed.
#[export] Hint Resolve orch_nativeMarkReleased : orch.
Lemma orch_native_release n : preserves orch_le (native_release n).
Proof. unfold native_release. orch. Qed.
#[export] Hint Resolve orch_native_release : orch.
Lemma orch_wrappedSentinel_release s : preserves orch_le (wrappedSentinel_release s).
Proof. unfold wrappedSentinel_release. orch. Qed.
#[export] Hint Resolve orch_wrappedSentinel_release : orch.
Lemma orch_sentinel_release s : preserves orch_le (sentinel_release s).
Proof. unfold sentinel_release. orch. Qed.
Lemma orch_addEventListener s l : preserves orch_le (sentinel_addEventListener s l).
Proof. unfold sentinel_addEventListener. orch. Qed.
Lemma orch_removeEventListener s l : preserves orch_le (sentinel_removeEventListener s l).
Proof. unfold sentinel_removeEventListener. orch. Qed.
#[export] Hint Resolve orch_sentinel_release orch_addEventListener orch_removeEventListener : orch.

Lemma orch_acquire c : preserves orch_le (acquire c).
Proof. unfold acquire. orch. Qed.
#[export] Hint Resolve orch_acquire : orch.
Lemma orch_createWrappedSentinel k n : preserves orch_le (createWrappedSentinel k n).
Proof. unfold createWrappedSentinel. orch. Qed.
#[export] Hint Resolve orch_createWrappedSentinel : orch.
Lemma orch_strategy_request k ty o : preserves orch_le (strategy_request k ty o).
Proof.
  unfold strategy_request, ScreenWakeLockStrategy_request, VideoElementStrategy_request,
    AudioContextStrategy_request, TimerStrategy_request, TimerStrategy_createSentinel,
    createSentinel.
  orch.
Qed.
Lemma orch_strategy_release k : preserves orch_le (strategy_release k).
Proof.
  unfold strategy_release, ScreenWakeLockStrategy_release, entryStrategy_release. orch.
Qed.
#[export] Hint Resolve orch_strategy_request orch_strategy_release : orch.

Lemma orch_checkWakeLockPermission ty p : preserves orch_le (checkWakeLockPermission ty p).
Proof.
  unfold checkWakeLockPermission, queryPermission, getCachedPermission, setCachedPermission,
    checkSpecificPermission, checkPermission.
  orch.
Qed.
#[export] Hint Resolve orch_checkWakeLockPermission : orch.
Lemma orch_canRequestWithoutPrompt ty : preserves orch_le (canRequestWithoutPrompt ty).
Proof. unfold canRequestWithoutPrompt. orch. Qed.
#[export] Hint Resolve orch_canRequestWithoutPrompt : orch.

Lemma orch_release : preserves orch_le WakeLock_release.
Proof. unfold WakeLock_release. orch. Qed.
#[export] Hint Resolve orch_release : orch.
Lemma orch_releaseAndWarn : preserves orch_le releaseAndWarn.
Proof. unfold releaseAndWarn. orch. Qed.
#[export] Hint Resolve orch_releaseAndWarn : orch.
Lemma orch_onBatteryChange l c : preserves orch_le (onBatteryChange l c).
Proof. unfold onBatteryChange. orch. Qed.
#[export] Hint Resolve orch_onBatteryChange : orch.
Lemma orch_throttled m : preserves orch_le (throttledEmitPerformance m).
Proof. unfold throttledEmitPerformance, onPerformance. orch. Qed.
#[export] Hint Resolve orch_throttled : orch.
Lemma orch_start : preserves orch_le PerformanceMonitor_start.
Proof.
  unfold PerformanceMonitor_start, initializeBatteryMonitoring, collectMetrics. orch.
Qed.
#[export] Hint Resolve orch_start : orch.
Lemma orch_passiveGate ty o : preserves orch_le (passiveGate ty o).
Proof. unfold passiveGate. orch. Qed.
#[export] Hint Resolve orch_passiveGate : orch.
Lemma orch_attempt k ty o : preserves orch_le (attempt k ty o).
Proof. unfold attempt, measureStrategy. orch. Qed.
Lemma orch_recordFailure all k e : preserves orch_le (recordFailure all k e).
Proof. unfold recordFailure. orch. Qed.
#[export] Hint Resolve orch_attempt orch_recordFailure : orch.
Lemma orch_tryLoop all rest ty o errs : preserves orch_le (tryLoop all rest ty o errs).
Proof. revert errs. induction rest as [|k rest IH]; intros errs; simpl; orch. Qed.
#[export] Hint Resolve orch_tryLoop : orch.
Lemma orch_tryStrategies ty o : preserves orch_le (tryStrategies ty o).
Proof. unfold tryStrategies. orch. Qed.
#[export] Hint Resolve orch_tryStrategies : orch.

(** ** The shape of [request] *)

Lemma request_existing ty opts st s :
  isSSR st = false -> activeUnreleased st = Some s ->
  WakeLock_request ty opts st = (Ok s, st).
Proof.
  intros Hssr Hact. unfold WakeLock_request, bind, gets. by rewrite Hssr, Hact.
Qed.

Lemma request_ssr ty opts st :
  isSSR st = true ->
  WakeLock_request ty opts st = (Throw (ThrownWakeLockError ssrError), st).
Proof. intros Hssr. unfold WakeLock_request, bind, gets. by rewrite Hssr. Qed.

Lemma request_fresh ty opts st :
  isSSR st = false -> activeUnreleased st = None ->
  WakeLock_request ty opts st =
  tryCatch (requestBody ty (mergeOptions opts (opt_passive (options (wl st)))))
    (fun e => emit (error (requestError e)) ;; throw e) st.
Proof. intros Hssr Hact. unfold WakeLock_request, bind, gets. by rewrite Hssr, Hact. Qed.

Lemma tryStrategies_empty ty o st :
  strategies (wl st) = [] ->
  tryStrategies ty o st = (Throw (ThrownWakeLockError (allFailed [])), st).
Proof. intros H. unfold tryStrategies, bind, gets. by rewrite H. Qed.

Lemma tryStrategies_Ok_nonempty ty o st s st' :
  tryStrategies ty o st = (Ok s, st') -> strategies (wl st) <> [].
Proof. intros H E. rewrite (tryStrategies_empty _ _ _ E) in H. done. Qed.

Lemma orch_startMonitoring : preserves orch_le startMonitoring.
Proof. unfold startMonitoring. orch. Qed.
#[export] Hint Resolve orch_startMonitoring : orch.

(** ** Reading the store after an update *)

Lemma sentinel_alter_field {A} (proj : Sentinel -> A) f (m : gmap ObjId Sentinel) s x :
  (forall v, proj (f v) = proj v) ->
  proj (default dummySentinel (alter f s m !! x)) = proj (default dummySentinel (m !! x)).
Proof.
  intros H. rewrite lookup_alter. case_decide; [subst|done].
  destruct (m !! x); simpl; auto.
Qed.

Lemma native_alter_field {A} (proj : NativeSentinel -> A) f (m : gmap ObjId NativeSentinel) s x :
  (forall v, proj (f v) = proj v) ->
  proj (default dummyNative (alter f s m !! x)) = proj (default dummyNative (m !! x)).
Proof.
  intros H. rewrite lookup_alter. case_decide; [subst|done].
  destruct (m !! x); simpl; auto.
Qed.

Lemma released_ext st st' :
  (forall x, s_released (theSentinel st' x) = s_released (theSentinel st x)) ->
  (forall x, s_class (theSentinel st' x) = s_class (theSentinel st x)) ->
  (forall x, s_native (theSentinel st' x) = s_native (theSentinel st x)) ->
  (forall n, n_released (theNative st' n) = n_released (theNative st n)) ->
  forall x, released st' x = released st x.
Proof.
  intros H1 H2 H3 H4 x. unfold released. by rewrite H1, H2, H3, H4.
Qed.

(** The state [adopt] leaves. *)
Lemma adopt_facts ty s st :
  exists st',
    adopt ty s st = (Ok s, st') /\
    env st' = env st /\
    strategies (wl st') = strategies (wl st) /\
    activeSentinel (wl st') = Some s /\
    currentStrategy (wl st') = currentStrategy (wl st) /\
    strategyObjs st' = strategyObjs st /\
    nextObj st' = nextObj st /\
    (forall x, released st' x = released st x) /\
    trace st' =
      trace st ++ [Emit (enabled ty (match currentStrategy (wl st) with
                                     | Some k => strategyName st k
                                     | None => "unknown"
                                     end))].
Proof.
  unfold adopt, setActiveSentinel, setupSentinelListeners, sentinel_addEventListener,
    updSentinel, updNative, emit, record, bind, gets, modify, ret; simpl.
  destruct (s_class (theSentinel _ s)) eqn:Hc; simpl;
    (eexists; split; [reflexivity|]; simpl; repeat split; try done;
     apply released_ext; intros; unfold theSentinel, theNative; simpl;
     first [ by apply sentinel_alter_field | by apply native_alter_field | done ]).
Qed.

Lemma preserves_eq {A} R (m : M A) st r st' :
  preserves R m -> m st = (r, st') -> R st st'.
Proof. intros H E. specialize (H st). by rewrite E in H. Qed.

Lemma bind_assoc {A B C} (m : M A) (f : A -> M B) (g : B -> M C) st :
  bind (bind m f) g st = bind m (fun a => bind (f a) g) st.
Proof. unfold bind. by destruct (m st) as [[a|t] st1]. Qed.

Lemma orch_prelude ty ro : preserves orch_le (prelude ty ro).
Proof. unfold prelude. orch. Qed.
#[export] Hint Resolve orch_prelude : orch.

Lemma requestBody_inv ty ro st r st' :
  requestBody ty ro st = (r, st') ->
  (exists t, prelude ty ro st = (Throw t, st') /\ r = Throw t) \/
  (exists u st1, prelude ty ro st = (Ok u, st1) /\
     ((exists t, tryStrategies ty ro st1 = (Throw t, st') /\ r = Throw t) \/
      (exists s st2, tryStrategies ty ro st1 = (Ok s, st2) /\ adopt ty s st2 = (r, st')))).
Proof.
  intros H.
  assert (E : requestBody ty ro st =
              bind (prelude ty ro) (fun _ => bind (tryStrategies ty ro) (adopt ty)) st).
  { unfold requestBody, prelude. by rewrite bind_assoc. }
  rewrite E in H. clear E.
  apply bind_inv in H as [(u & st1 & Hp & H)|(t & Hp & ->)]; [|left; eauto].
  right. exists u, st1. split; [done|].
  apply bind_inv in H as [(s & st2 & Ht & H)|(t & Ht & ->)]; [right|left]; eauto.
Qed.

(** The outcomes of a request that is not answered with the existing
    sentinel: rejected (with an [error] notification), or a sentinel
    adopted. *)
Lemma request_outcome ty opts st r st' :
  isSSR st = false -> activeUnreleased st = None ->
  WakeLock_request ty opts st = (r, st') ->
  let ro := mergeOptions opts (opt_passive (options (wl st))) in
  (exists t st1, r = Throw t /\
     st' = set_trace (trace st1 ++ [Emit (error (requestError t))]) st1 /\
     (prelude ty ro st = (Throw t, st1) \/
      exists u st0, prelude ty ro st = (Ok u, st0) /\ tryStrategies ty ro st0 = (Throw t, st1))) \/
  (exists u st0 s st1, r = Ok s /\
     prelude ty ro st = (Ok u, st0) /\ tryStrategies ty ro st0 = (Ok s, st1) /\
     adopt ty s st1 = (Ok s, st')).
Proof.
  intros Hssr Hact H ro. rewrite request_fresh in H by done. fold ro in H.
  unfold tryCatch in H. destruct (requestBody ty ro st) as [[s|t] st1] eqn:Hb.
  - right. apply requestBody_inv in Hb as [(t & _ & ?)|(u & st0 & Hp & [(t & _ & ?)|(s' & st2 & Ht & Ha)])];
      [done|done|].
    destruct (adopt_facts ty s' st2) as (st3 & Ha' & _). rewrite Ha' in Ha.
    inversion Ha; subst. inversion H; subst. exists u, st0, s, st2. auto.
  - left. exists t, st1. inversion H; subst. split; [done|]. split; [done|].
    apply requestBody_inv in Hb as [(t' & Hp & E)|(u & st0 & Hp & [(t' & Ht & E)|(s' & st2 & Ht & Ha)])].
    + inversion E; subst. by left.
    + inversion E; subst. right. eauto.
    + destruct (adopt_facts ty s' st2) as (st3 & Ha' & _). rewrite Ha' in Ha. done.
Qed.

(** ** Every instance with an active sentinel runs outside server-side
       rendering and has a strategy *)

Lemma adopted_ok_le st st' : orch_le st st' -> adopted_ok st -> adopted_ok st'.
Proof.
  intros (E & S & A) H Hact. unfold isSSR. rewrite E, S.
  apply H. destruct A as [A|A]; congruence.
Qed.

Lemma adopted_ok_emit st e :
  adopted_ok st -> adopted_ok (set_trace (trace st ++ [e]) st).
Proof. done. Qed.

Lemma request_adopted ty opts st :
  adopted_ok st -> adopted_ok (WakeLock_request ty opts st).2.
Proof.
  intros Hok. destruct (isSSR st) eqn:Hssr.
  { by rewrite request_ssr. }
  destruct (activeUnreleased st) as [s|] eqn:Hact.
  { by rewrite (request_existing _ _ _ s). }
  destruct (WakeLock_request ty opts st) as [r st'] eqn:H. simpl.
  apply request_outcome in H as [(t & st1 & -> & -> & H)|(u & st0 & s & st1 & -> & Hp & Ht & Ha)];
    [| |done..].
  - apply adopted_ok_emit. eapply adopted_ok_le; [|done].
    destruct H as [H|(u & st0 & Hp & Ht)].
    + eapply preserves_eq; [|done]. auto with orch.
    + etrans; (eapply preserves_eq; [|done]); auto with orch.
  - intros _.
    assert (L0 : orch_le st st0) by (eapply preserves_eq; [|done]; auto with orch).
    assert (L1 : orch_le st0 st1) by (eapply preserves_eq; [|done]; auto with orch).
    destruct (adopt_facts ty s st1) as (st2 & Ha' & E2 & S2 & _).
    rewrite Ha' in Ha. inversion Ha; subst st2.
    destruct L0 as (E0 & S0 & _), L1 as (E1 & S1 & _).
    unfold isSSR in *. rewrite E2, E1, E0, S2, S1. split; [done|].
    eapply tryStrategies_Ok_nonempty. done.
Qed.

Lemma orch_perform op :
  (forall ty opts, op <> OpRequest ty opts) -> preserves orch_le (perform op).
Proof.
  intros Hop. destruct op; simpl; try (by destruct (Hop ty opts));
    unfold checkPermissions, WakeLock_destroy, nativeRevoked, visibilityChanged,
      batteryChanged, monitoringTimerCallback, collectMetrics;
    orch.
Qed.

Lemma perform_adopted op st : adopted_ok st -> adopted_ok (perform op st).2.
Proof.
  intros H. destruct op; try (by apply request_adopted);
    (eapply adopted_ok_le; [|done]; apply orch_perform; done).
Qed.

Lemma run_adopted ops st : adopted_ok st -> adopted_ok (run ops st).
Proof.
  revert st. induction ops as [|op ops IH]; intros st H; simpl; [done|].
  apply IH. by apply perform_adopted.
Qed.

Lemma new_adopted cfg : adopted_ok (WakeLock_new cfg).
Proof. intros H. by destruct H. Qed.

Lemma reachable_adopted st : reachable st -> adopted_ok st.
Proof. intros (cfg & ops & ->). apply run_adopted, new_adopted. Qed.

Lemma activeUnreleased_Some st s :
  activeSentinel (wl st) = Some s -> released st s = false -> activeUnreleased st = Some s.
Proof. intros H1 H2. unfold activeUnreleased. by rewrite H1, H2. Qed.

Lemma reachable_request_existing st s ty opts :
  reachable st -> activeSentinel (wl st) = Some s -> released st s = false ->
  WakeLock_request ty opts st = (Ok s, st).
Proof.
  intros Hr Ha Hrel. apply request_existing.
  - apply (reachable_adopted _ Hr). by rewrite Ha.
  - by apply activeUnreleased_Some.
Qed.

(** ** Re-requesting while a sentinel is held *)

(** C1. For every [WakeLock] instance that holds an active, unreleased
    sentinel, a further [request], of either kind and with any options,
    returns that same sentinel and leaves the whole state as it was: in
    particular no strategy's [request] is called and nothing is emitted. *)
Theorem request_returns_held_sentinel st s ty opts :
  reachable st ->
  activeSentinel (wl st) = Some s ->
  released st s = false ->
  WakeLock_request ty opts st = (Ok s, st).
Proof.
  intros Hr Ha Hrel.
  destruct (reachable_adopted st Hr) as (Hssr & _); [by rewrite Ha|].
  unfold WakeLock_request, bind, gets. rewrite Hssr.
  unfold activeUnreleased. by rewrite Ha, Hrel.
Qed.

Lemma request_returns_held_sentinel_witness :
  WakeLock_request system noOptions timerSystemHeld = (Ok 1%nat, timerSystemHeld).
Proof.
  apply (request_returns_held_sentinel timerSystemHeld 1%nat system noOptions).
  - exists timerOnly, [OpRequest system noOptions]. reflexivity.
  - vm_compute. reflexivity.
  - vm_compute. reflexivity.
Defined.

(** C10. When the held sentinel is of kind [screen] and [system] is
    requested, or the other way round, [request] returns the held sentinel
    of the other kind, without an error: it answers exactly as it answers a
    request for the sentinel's own kind, the requested kind is not looked
    at. *)
Theorem request_ignores_requested_kind st s ty opts :
  reachable st ->
  activeSentinel (wl st) = Some s ->
  released st s = false ->
  (s_type (theSentinel st s) = screen /\ ty = system) \/
  (s_type (theSentinel st s) = system /\ ty = screen) ->
  WakeLock_request ty opts st = (Ok s, st) /\
  WakeLock_request ty opts st = WakeLock_request (s_type (theSentinel st s)) opts st.
Proof.
  intros Hr Ha Hrel _.
  rewrite !(reachable_request_existing st s) by done. done.
Qed.

Lemma request_ignores_requested_kind_witness :
  s_type (theSentinel timerSystemHeld 1%nat) = system /\
  WakeLock_request screen noOptions timerSystemHeld = (Ok 1%nat, timerSystemHeld).
Proof.
  split; [vm_compute; reflexivity|].
  apply (request_ignores_requested_kind timerSystemHeld 1%nat screen noOptions).
  - exists timerOnly, [OpRequest system noOptions]. reflexivity.
  - vm_compute. reflexivity.
  - vm_compute. reflexivity.
  - right. split; [vm_compute; reflexivity | reflexivity].
Defined.

(** ** The permission cache *)

Lemma getCachedPermission_fresh key st v t :
  permissionCache (permissionManager st) !! key = Some v ->
  cacheTimestamps (permissionManager st) !! key = Some t ->
  t <> 0 -> clock st - t <= cacheExpiryTime ->
  getCachedPermission key st = (Ok (Some v), st).
Proof.
  intros Hv Ht Hz Hage. unfold getCachedPermission, bind, gets. rewrite Ht. simpl.
  destruct (Z.eqb_spec t 0); [done|].
  destruct (Z.gtb_spec (clock st - t) cacheExpiryTime); [lia|]. simpl. by rewrite Hv.
Qed.

Lemma getCachedPermission_expired key st t :
  cacheTimestamps (permissionManager st) !! key = Some t ->
  clock st - t > cacheExpiryTime ->
  getCachedPermission key st =
  (Ok None, set_permissionManager (pmgr_delete key (permissionManager st)) st).
Proof.
  intros Ht Hage. unfold getCachedPermission, bind, gets. rewrite Ht. simpl.
  destruct (Z.gtb_spec (clock st - t) cacheExpiryTime); [|lia].
  by rewrite orb_true_r.
Qed.

Lemma getCachedPermission_hit key st r st' :
  getCachedPermission key st = (Ok (Some r), st') ->
  st' = st /\
  permissionCache (permissionManager st) !! key = Some r /\
  exists t, cacheTimestamps (permissionManager st) !! key = Some t /\
            clock st - t <= cacheExpiryTime.
Proof.
  unfold getCachedPermission, bind, gets, modify, ret. simpl.
  destruct (cacheTimestamps (permissionManager st) !! key) as [t|] eqn:Ht; simpl; [|done].
  destruct (Z.eqb_spec t 0); simpl; [done|].
  destruct (Z.gtb_spec (clock st - t) cacheExpiryTime); simpl; [done|].
  intros Heq. inversion Heq; subst. eauto.
Qed.

Global Instance trace_ext_refl : Reflexive trace_ext.
Proof. intros st. exists []. by rewrite app_nil_r. Qed.

Global Instance trace_ext_trans : Transitive trace_ext.
Proof.
  intros a b c [r1 H1] [r2 H2]. exists (r1 ++ r2). by rewrite H2, H1, app_assoc.
Qed.

Ltac trace_prim :=
  unfold trace_ext; simpl; first [ by eexists | by exists []; rewrite app_nil_r ].

Create HintDb tr discriminated.

Ltac tr := preserves_with ltac:(trace_prim); try solve [auto with tr].

Lemma tr_record e : preserves trace_ext (record e).
Proof. unfold record. tr. Qed.
Lemma tr_step : preserves trace_ext step.
Proof. intros st. trace_prim. Qed.
#[export] Hint Resolve tr_record tr_step : tr.

Lemma checkSpecificPermission_supported name st :
  isPermissionsSupported st = true ->
  checkSpecificPermission name st =
  (Ok (env_query (env st) (tick st) name),
   set_tick (S (tick st)) (set_trace (trace st ++ [PermissionQuery name]) st)).
Proof.
  intros Hsup.
  unfold checkSpecificPermission, checkPermission, tryCatch, bind, gets, record, modify, step.
  repeat (rewrite Hsup; cbn beta iota delta [negb]). reflexivity.
Qed.

Lemma tryCatch_bind_trace {A B} (m : M A) (K : A -> M B) (H : Thrown -> M B) st a st1 :
  m st = (Ok a, st1) ->
  (forall x, preserves trace_ext (K x)) ->
  (forall t, preserves trace_ext (H t)) ->
  trace_ext st1 (tryCatch (bind m K) H st).2.
Proof.
  intros E HK HH. unfold tryCatch, bind. rewrite E.
  specialize (HK a st1). destruct (K a st1) as [[b|t] st2]; simpl in *; [done|].
  etrans; [done|]. apply HH.
Qed.

Lemma queryPermission_queries ty passive st :
  isPermissionsSupported st = true ->
  exists rest,
    trace (queryPermission ty passive st).2 = trace st ++ PermissionQuery "wake-lock" :: rest.
Proof.
  intros Hsup. unfold queryPermission.
  match goal with
  | |- context [tryCatch (bind _ ?K) ?H] =>
      destruct (tryCatch_bind_trace _ K H st _ _
                  (checkSpecificPermission_supported "wake-lock" st Hsup)) as [rest Hrest]
  end.
  - intros x. unfold setCachedPermission, checkSpecificPermission, checkPermission. tr.
  - intros t. tr.
  - exists rest. rewrite Hrest. simpl. by rewrite <- app_assoc.
Qed.

(** C8. With a permission state [v] cached for a kind at time [t] (the
    expiry being 5 minutes, in milliseconds): while the entry is at most 5
    minutes old, [checkWakeLockPermission] answers [v] from the cache and
    changes nothing; the cache only ever answers from an entry that is at
    most 5 minutes old; and once the entry is older than 5 minutes,
    [getCachedPermission] deletes it from both maps and answers [null], and
    [checkWakeLockPermission] goes on exactly as it does without an entry and
    asks the platform again. *)
Theorem cached_permission_expires st ty passive v t :
  isSSR st = false ->
  permissionCache (permissionManager st) !! cacheKey ty = Some v ->
  cacheTimestamps (permissionManager st) !! cacheKey ty = Some t ->
  cacheExpiryTime = 300000 /\
  (t <> 0 -> clock st - t <= cacheExpiryTime ->
   checkWakeLockPermission ty passive st = (Ok (Some v), st)) /\
  (forall r st', getCachedPermission (cacheKey ty) st = (Ok (Some r), st') ->
   clock st - t <= cacheExpiryTime /\ r = v /\ st' = st) /\
  (clock st - t > cacheExpiryTime ->
   let st1 := set_permissionManager (pmgr_delete (cacheKey ty) (permissionManager st)) st in
   getCachedPermission (cacheKey ty) st = (Ok None, st1) /\
   permissionCache (permissionManager st1) !! cacheKey ty = None /\
   cacheTimestamps (permissionManager st1) !! cacheKey ty = None /\
   checkWakeLockPermission ty passive st = queryPermission ty passive st1 /\
   (isPermissionsSupported st = true ->
    exists rest,
      trace (checkWakeLockPermission ty passive st).2 =
      trace st ++ PermissionQuery "wake-lock" :: rest)).
Proof.
  intros Hssr Hv Ht. split; [reflexivity|]. split; [|split].
  - intros Hz Hage. unfold checkWakeLockPermission, bind, gets. rewrite Hssr.
    by rewrite (getCachedPermission_fresh _ _ v t).
  - intros r st' H. apply getCachedPermission_hit in H as (-> & Hr & t' & Ht' & Hage).
    rewrite Ht in Ht'. inversion Ht'; subst t'. rewrite Hv in Hr. inversion Hr. done.
  - intros Hage st1.
    assert (Hc : checkWakeLockPermission ty passive st = queryPermission ty passive st1).
    { unfold checkWakeLockPermission, bind, gets. rewrite Hssr.
      by rewrite (getCachedPermission_expired _ _ t). }
    split; [by apply (getCachedPermission_expired _ _ t)|].
    split; [apply lookup_delete_eq|]. split; [apply lookup_delete_eq|]. split; [done|].
    intros Hsup. rewrite Hc. apply (queryPermission_queries ty passive st1 Hsup).
Qed.

Lemma cached_permission_expires_witness :
  checkWakeLockPermission screen false grantedCached = (Ok (Some granted), grantedCached).
Proof.
  refine (proj1 (proj2 (cached_permission_expires grantedCached screen false granted 1000
                          _ _ _)) _ _).
  - vm_compute. reflexivity.
  - vm_compute. reflexivity.
  - vm_compute. reflexivity.
  - discriminate.
  - vm_compute. discriminate.
Defined.

(** ** The permission gate *)

Global Instance quiet_refl : Reflexive quiet.
Proof. intros st. unfold quiet. auto 10. Qed.

Global Instance quiet_trans : Transitive quiet.
Proof.
  intros a b c (A1 & A2 & A3 & A4 & A5 & A6) (B1 & B2 & B3 & B4 & B5 & B6).
  unfold quiet. repeat split; congruence.
Qed.

Lemma requestsOf_app tr1 tr2 : requestsOf (tr1 ++ tr2) = requestsOf tr1 ++ requestsOf tr2.
Proof. apply omap_app. Qed.

Lemma emitted_app tr1 tr2 : emitted (tr1 ++ tr2) = emitted tr1 ++ emitted tr2.
Proof. apply omap_app. Qed.

Ltac quiet_prim :=
  unfold quiet; simpl; rewrite ?requestsOf_app, ?emitted_app; simpl; rewrite ?app_nil_r;
  repeat case_match; auto 10.

Create HintDb quiet discriminated.

Ltac quiet_tac := preserves_with ltac:(quiet_prim); try solve [auto with quiet].

Lemma quiet_step : preserves quiet step.
Proof. intros st. quiet_prim. Qed.
#[export] Hint Resolve quiet_step : quiet.

Lemma quiet_query name : preserves quiet (record (PermissionQuery name)).
Proof. unfold record. quiet_tac. Qed.
#[export] Hint Resolve quiet_query : quiet.

Lemma quiet_checkWakeLockPermission ty p : preserves quiet (checkWakeLockPermission ty p).
Proof.
  unfold checkWakeLockPermission, queryPermission, getCachedPermission, setCachedPermission,
    checkSpecificPermission, checkPermission.
  quiet_tac.
Qed.
#[export] Hint Resolve quiet_checkWakeLockPermission : quiet.

Lemma quiet_canRequestWithoutPrompt ty : preserves quiet (canRequestWithoutPrompt ty).
Proof. unfold canRequestWithoutPrompt. quiet_tac. Qed.

Lemma canRequestWithoutPrompt_spec ty st :
  exists b st',
    canRequestWithoutPrompt ty st = (Ok b, st') /\
    (b = true <->
     (checkWakeLockPermission ty true st).1 = Ok (Some granted) \/
     (checkWakeLockPermission ty true st).1 = Ok (Some denied)).
Proof.
  unfold canRequestWithoutPrompt, tryCatch, bind, gets.
  destruct (isSSR st) eqn:Hssr.
  - exists false, st. split; [done|].
    unfold checkWakeLockPermission, bind, gets. rewrite Hssr. simpl.
    split; [done|]. intros [?|?]; done.
  - destruct (checkWakeLockPermission ty true st) as [[[[]|]|t] st1]; simpl;
      eexists _, _; (split; [reflexivity|]); split; try done; auto;
      intros [?|?]; done.
Qed.

Lemma passiveGate_denied ty ro st st1 :
  truthy (ro_passive ro) = true ->
  canRequestWithoutPrompt ty st = (Ok false, st1) ->
  isPassiveModeRecommended st1 = true ->
  passiveGate ty ro st = (Throw (ThrownWakeLockError passiveDenied), st1).
Proof.
  intros Hp Hc Hr. unfold passiveGate. rewrite Hp. unfold bind, gets. rewrite Hc, Hr. done.
Qed.

(** The gate of a passive request.  A request whose merged options have
    the passive flag set, made where it reaches the permission check (not
    under server-side rendering, no unreleased sentinel held): if
    [canRequestWithoutPrompt] returns [false] and [isPassiveModeRecommended]
    then returns [true], the request rejects with the PERMISSION_DENIED
    error, after an [error] notification and nothing else: no strategy's
    [request] has been called, and the strategies, the sentinels and the
    orchestrator's slots are as before.  And [canRequestWithoutPrompt] never
    throws and returns [true] exactly when the state that
    [checkWakeLockPermission] reports in passive mode is [granted] or
    [denied]. *)
Theorem passive_request_denied_before_strategies st ty opts :
  (exists b st',
     canRequestWithoutPrompt ty st = (Ok b, st') /\
     (b = true <->
      (checkWakeLockPermission ty true st).1 = Ok (Some granted) \/
      (checkWakeLockPermission ty true st).1 = Ok (Some denied))) /\
  (forall st1,
     isSSR st = false ->
     activeUnreleased st = None ->
     truthy (ro_passive (mergeOptions opts (opt_passive (options (wl st))))) = true ->
     canRequestWithoutPrompt ty st = (Ok false, st1) ->
     isPassiveModeRecommended st1 = true ->
     WakeLock_request ty opts st =
       (Throw (ThrownWakeLockError passiveDenied),
        set_trace (trace st1 ++ [Emit (error passiveDenied)]) st1) /\
     err_code passiveDenied = PERMISSION_DENIED /\
     requestsOf (trace st1 ++ [Emit (error passiveDenied)]) = requestsOf (trace st) /\
     strategyObjs st1 = strategyObjs st /\
     sentinels st1 = sentinels st /\
     wl st1 = wl st).
Proof.
  split; [apply canRequestWithoutPrompt_spec|].
  intros st1 Hssr Hact Hp Hc Hr.
  pose proof (preserves_eq _ _ _ _ _ (quiet_canRequestWithoutPrompt ty) Hc)
    as (Q1 & _ & Q3 & Q4 & _ & Q6).
  split; [|repeat split; try done].
  - rewrite request_fresh by done. unfold tryCatch, requestBody.
    rewrite (bind_Throw _ _ _ _ _ (passiveGate_denied _ _ _ _ Hp Hc Hr)).
    reflexivity.
  - rewrite requestsOf_app. simpl. by rewrite app_nil_r.
Qed.

Lemma passive_request_denied_before_strategies_witness :
  WakeLock_request screen passiveOptions (WakeLock_new onPhone) =
  (Throw (ThrownWakeLockError passiveDenied),
   set_trace (trace (canRequestWithoutPrompt screen (WakeLock_new onPhone)).2
              ++ [Emit (error passiveDenied)])
     (canRequestWithoutPrompt screen (WakeLock_new onPhone)).2).
Proof.
  refine (proj1 (proj2 (passive_request_denied_before_strategies
                          (WakeLock_new onPhone) screen passiveOptions) _ _ _ _ _ _)).
  - vm_compute. reflexivity.
  - vm_compute. reflexivity.
  - vm_compute. reflexivity.
  - vm_compute. reflexivity.
  - vm_compute. reflexivity.
Defined.

(** ** Releasing never un-releases *)

Global Instance heap_le_refl : Reflexive heap_le.
Proof.
  intros st. split; [|split]; [intros s x H; eauto 10 | intros n y H; eauto | done].
Qed.

Global Instance heap_le_trans : Transitive heap_le.
Proof.
  intros a b c (A1 & A2 & A3) (B1 & B2 & B3). split; [|split].
  - intros s x H. destruct (A1 s x H) as (x' & H' & ? & ? & ? & ? & ? & ?).
    destruct (B1 s x' H') as (x'' & H'' & ? & ? & ? & ? & ? & ?).
    exists x''. repeat split; try congruence. auto.
  - intros n y H. destruct (A2 n y H) as (y' & H' & ?).
    destruct (B2 n y' H') as (y'' & H'' & ?). eauto.
  - intros k. by rewrite B3.
Qed.

Lemma heap_le_same st st' :
  sentinels st' = sentinels st -> natives st' = natives st ->
  strategyObjs st' = strategyObjs st -> heap_le st st'.
Proof.
  intros E1 E2 E3. split; [|split].
  - intros s x H. rewrite E1. eauto 10.
  - intros n y H. rewrite E2. eauto.
  - intros k. unfold theStrategy. by rewrite E3.
Qed.

Ltac heap_prim :=
  apply heap_le_same; simpl; repeat case_match; reflexivity.

Create HintDb heap discriminated.

Ltac heap_tac := preserves_with ltac:(heap_prim); try solve [auto with heap].

Lemma heap_updSentinel s f :
  (forall v, s_class (f v) = s_class v /\ s_strategy (f v) = s_strategy v /\
             s_native (f v) = s_native v /\ s_key (f v) = s_key v /\ s_type (f v) = s_type v /\
             (s_released v = true -> s_released (f v) = true)) ->
  preserves heap_le (updSentinel s f).
Proof.
  intros Hf st. split; [|split]; simpl; [|eauto|done].
  intros s' x H. rewrite lookup_alter. case_decide; [subst|eauto 10].
  rewrite H. simpl. exists (f x). split; [done|]. apply Hf.
Qed.

Lemma heap_set_released s : preserves heap_le (updSentinel s (s_set_released true)).
Proof. apply heap_updSentinel. intros v. simpl. auto 10. Qed.

Lemma heap_set_listeners s ls : preserves heap_le (updSentinel s (s_set_listeners ls)).
Proof. apply heap_updSentinel. intros v. simpl. auto 10. Qed.

Lemma heap_updStrategy k f :
  (forall v, cls (f v) = cls v) -> preserves heap_le (updStrategy k f).
Proof.
  intros Hf st. split; [|split]; simpl; [eauto 10|eauto|].
  intros k'. unfold theStrategy. simpl. case_decide; [subst|done]. apply Hf.
Qed.

Lemma heap_updNative_released n : preserves heap_le (updNative n (n_set_released true)).
Proof.
  intros st. split; [|split]; simpl; [eauto 10| |done].
  intros n' y H. rewrite lookup_alter. case_decide; [subst|eauto].
  rewrite H. simpl. eauto.
Qed.

Lemma heap_record e : preserves heap_le (record e).
Proof. unfold record. heap_tac. Qed.
Lemma heap_step : preserves heap_le step.
Proof. intros st. heap_prim. Qed.
Lemma heap_stop : preserves heap_le PerformanceMonitor_stop.
Proof. unfold PerformanceMonitor_stop. heap_tac. Qed.
#[export] Hint Resolve heap_set_released heap_set_listeners heap_updNative_released
  heap_record heap_step heap_stop : heap.
#[export] Hint Extern 1 (preserves heap_le (updStrategy _ _)) =>
  (apply heap_updStrategy; intros ?; reflexivity) : heap.

Lemma heap_onRelease s : preserves heap_le (onRelease s).
Proof. unfold onRelease, emit. heap_tac. Qed.
#[export] Hint Resolve heap_onRelease : heap.
Lemma heap_callListener l : preserves heap_le (callListener l).
Proof. unfold callListener. heap_tac. Qed.
#[export] Hint Resolve heap_callListener : heap.
Lemma heap_notifyListeners ls : preserves heap_le (notifyListeners ls).
Proof. unfold notifyListeners. heap_tac. Qed.
#[export] Hint Resolve heap_notifyListeners : heap.
Lemma heap_releaseSentinel k i s : preserves heap_le (releaseSentinel k i s).
Proof. unfold releaseSentinel. heap_tac. Qed.
#[export] Hint Resolve heap_releaseSentinel : heap.
Lemma heap_entrySentinel_release s : preserves heap_le (entrySentinel_release s).
Proof. unfold entrySentinel_release. heap_tac. Qed.
Lemma heap_nativeAnon s : preserves heap_le (nativeAnon s).
Proof. unfold nativeAnon. heap_tac. Qed.
#[export] Hint Resolve heap_entrySentinel_release heap_nativeAnon : heap.
Lemma heap_nativeDispatch n : preserves heap_le (nativeDispatch n).
Proof. unfold nativeDispatch. heap_tac. Qed.
#[export] Hint Resolve heap_nativeDispatch : heap.
Lemma heap_nativeMarkReleased n : preserves heap_le (nativeMarkReleased n).
Proof. unfold nativeMarkReleased. heap_tac. Qed.
#[export] Hint Resolve heap_nativeMarkReleased : heap.
Lemma heap_native_release n : preserves heap_le (native_release n).
Proof. unfold native_release. heap_tac. Qed.
#[export] Hint Resolve heap_native_release : heap.
Lemma heap_wrappedSentinel_release s : preserves heap_le (wrappedSentinel_release s).
Proof. unfold wrappedSentinel_release. heap_tac. Qed.
#[export] Hint Resolve heap_wrappedSentinel_release : heap.
Lemma heap_sentinel_release s : preserves heap_le (sentinel_release s).
Proof. unfold sentinel_release. heap_tac. Qed.
#[export] Hint Resolve heap_sentinel_release : heap.

(** ** Releasing everything a strategy tracks *)

Lemma tryFinally_state {A} (m : M A) fin st :
  (tryFinally m fin st).2 = (fin (m st).2).2.
Proof.
  unfold tryFinally. destruct (m st) as [r st1]. simpl.
  by destruct (fin st1) as [[[]|t] st2].
Qed.

Lemma swallow_Ok (m : M unit) st :
  tryCatch m (fun _ => ret tt) st = (Ok tt, (m st).2).
Proof. unfold tryCatch. by destruct (m st) as [[[]|t] st1]. Qed.

Section ForEach.
Context {A : Type} (R : Sys -> Sys -> Prop) `{!Reflexive R} `{!Transitive R}.
Context (f : A -> M unit) (Pre Post : A -> Sys -> Prop).
Hypothesis f_R : forall x, preserves R (f x).
Hypothesis Pre_R : forall x st st', R st st' -> Pre x st -> Pre x st'.
Hypothesis Post_R : forall x st st', R st st' -> Post x st -> Post x st'.
Hypothesis f_post : forall x st, Pre x st -> Post x (f x st).2.

(** A loop whose body swallows what it throws runs to its end, and
    establishes for every element what the body establishes for one,
    when later iterations do not undo it. *)
Lemma forEach_swallow xs st :
  (forall x, x ∈ xs -> Pre x st) ->
  exists st',
    forEach (fun x => tryCatch (f x) (fun _ => ret tt)) xs st = (Ok tt, st') /\
    R st st' /\
    (forall x, x ∈ xs -> Post x st').
Proof.
  revert st. induction xs as [|x xs IH]; intros st Hpre; simpl.
  - exists st. split; [done|]. split; [done|]. intros x Hx. by apply elem_of_nil in Hx.
  - unfold bind. rewrite swallow_Ok.
    destruct (IH (f x st).2) as (st' & E & HR & Hpost).
    { intros y Hy. eapply Pre_R; [apply f_R|]. apply Hpre. by right. }
    exists st'. split; [done|]. split; [by etrans; [apply f_R|]|].
    intros y Hy. apply elem_of_cons in Hy as [->|Hy]; [|by apply Hpost].
    eapply Post_R; [done|]. apply f_post, Hpre. by left.
Qed.
End ForEach.

Lemma flagged_le s st st' : heap_le st st' -> flagged st s -> flagged st' s.
Proof.
  intros (H & _) (x & Hx & Hr). destruct (H s x Hx) as (x' & Hx' & _ & _ & _ & _ & _ & Hr').
  exists x'. auto.
Qed.

Lemma tracked_ok_le w s st st' : heap_le st st' -> tracked_ok w st s -> tracked_ok w st' s.
Proof.
  intros (H & _) (x & Hx & Hc). destruct (H s x Hx) as (x' & Hx' & Hc' & _).
  exists x'. split; [done|]. intros Hw. rewrite Hc'. auto.
Qed.

Lemma flagged_released st s : flagged st s -> released st s = true.
Proof.
  intros (x & Hx & Hr). unfold released, theSentinel. rewrite Hx. simpl. rewrite Hr.
  by destruct (s_class x).
Qed.

Lemma flag_then {A} w s (rest : M A) st :
  preserves heap_le rest ->
  tracked_ok w st s ->
  flagged (bind (updSentinel s (s_set_released true)) (fun _ => rest) st).2 s.
Proof.
  intros Hrest (x & Hx & _). unfold bind, updSentinel, modify. simpl.
  eapply flagged_le; [apply Hrest|].
  exists (s_set_released true x). split; [|done]. simpl.
  by rewrite lookup_alter_eq, Hx.
Qed.

Lemma preserves_at {A} R (m : M A) st : preserves R m -> R st (m st).2.
Proof. intros H. apply H. Qed.

Lemma releaseSentinel_flags w k key s st :
  tracked_ok w st s -> flagged (releaseSentinel k key s st).2 s.
Proof.
  intros Hs. unfold releaseSentinel. unfold bind at 1, gets at 1.
  destruct (s_released (theSentinel st s)) eqn:Hr.
  - destruct Hs as (x & Hx & _). exists x. split; [done|].
    unfold theSentinel in Hr. by rewrite Hx in Hr.
  - rewrite tryFinally_state. apply (flag_then w); [heap_tac|].
    eapply tracked_ok_le; [|done]. apply preserves_at. heap_tac.
Qed.

Lemma wrappedSentinel_release_flags w s st :
  tracked_ok w st s -> flagged (wrappedSentinel_release s st).2 s.
Proof.
  intros Hs. unfold wrappedSentinel_release. unfold bind at 1, gets at 1.
  destruct (s_released (theSentinel st s)) eqn:Hr.
  - destruct Hs as (x & Hx & _). exists x. split; [done|].
    unfold theSentinel in Hr. by rewrite Hx in Hr.
  - rewrite tryFinally_state. apply (flag_then w); [heap_tac|].
    eapply tracked_ok_le; [|done]. apply preserves_at. heap_tac.
Qed.

Lemma sentinel_release_flags s st :
  tracked_ok true st s -> flagged (sentinel_release s st).2 s.
Proof.
  intros Hs. unfold sentinel_release, bind, gets.
  destruct Hs as (x & Hx & Hc). unfold theSentinel at 1. rewrite Hx. simpl.
  rewrite Hc by done. apply (wrappedSentinel_release_flags true). by exists x.
Qed.

Lemma cleared_entries k st :
  activeEntries (theStrategy (updStrategy k (set_activeEntries []) st).2 k) = [].
Proof.
  unfold theStrategy, updStrategy, modify. simpl. by rewrite decide_True.
Qed.

Lemma cleared_sentinels k st :
  activeSentinels (theStrategy (updStrategy k (set_activeSentinels []) st).2 k) = [].
Proof.
  unfold theStrategy, updStrategy, modify. simpl. by rewrite decide_True.
Qed.

Lemma heap_le_cls st st' k : heap_le st st' -> cls (theStrategy st' k) = cls (theStrategy st k).
Proof. intros (_ & _ & H). apply H. Qed.

Lemma entryStrategy_release_all k st :
  cls (theStrategy st k) <> ScreenWakeLockStrategy ->
  (forall s, s ∈ activeOf st k -> tracked_ok false st s) ->
  exists st',
    entryStrategy_release k st = (Ok tt, st') /\
    activeOf st' k = [] /\
    (forall s, s ∈ activeOf st k -> flagged st' s).
Proof.
  intros Hc Hs. unfold entryStrategy_release. unfold bind at 1, gets at 1.
  edestruct (forEach_swallow heap_le (fun e : Key * ObjId => releaseSentinel k e.1 e.2)
               (fun e st => tracked_ok false st e.2) (fun e st => flagged st e.2)
               (fun e => heap_releaseSentinel k e.1 e.2)
               (fun e a b => tracked_ok_le false e.2 a b)
               (fun e a b => flagged_le e.2 a b)
               (fun e a => releaseSentinel_flags false k e.1 e.2 a)
               (activeEntries (theStrategy st k)) st)
    as (st1 & E & HR & Hpost).
  - intros e He. apply Hs. unfold activeOf.
    destruct (cls (theStrategy st k)); [done|..]; apply list_elem_of_fmap; eauto.
  - unfold bind. rewrite E.
    set (st2 := (updStrategy k (set_activeEntries []) st1).2).
    assert (HR2 : heap_le st1 st2).
    { apply preserves_at. apply heap_updStrategy. done. }
    exists st2. split; [done|]. split.
    + unfold activeOf. rewrite (heap_le_cls st1 st2), (heap_le_cls st st1) by done.
      subst st2. rewrite cleared_entries. by destruct (cls (theStrategy st k)).
    + intros s Hin. eapply flagged_le; [done|].
      unfold activeOf in Hin. destruct (cls (theStrategy st k)); [done|..];
        apply list_elem_of_fmap in Hin as (e & -> & He); by apply (Hpost e).
Qed.

Lemma ScreenWakeLockStrategy_release_all k st :
  cls (theStrategy st k) = ScreenWakeLockStrategy ->
  (forall s, s ∈ activeOf st k -> tracked_ok true st s) ->
  exists st',
    ScreenWakeLockStrategy_release k st = (Ok tt, st') /\
    activeOf st' k = [] /\
    (forall s, s ∈ activeOf st k -> flagged st' s).
Proof.
  intros Hc Hs. unfold ScreenWakeLockStrategy_release. unfold bind at 1, gets at 1.
  edestruct (forEach_swallow heap_le sentinel_release
               (fun s st => tracked_ok true st s) (fun s st => flagged st s)
               heap_sentinel_release
               (fun s a b => tracked_ok_le true s a b)
               (fun s a b => flagged_le s a b)
               sentinel_release_flags
               (activeSentinels (theStrategy st k)) st)
    as (st1 & E & HR & Hpost).
  - intros s Hin. apply Hs. unfold activeOf. by rewrite Hc.
  - unfold bind. rewrite E.
    set (st2 := (updStrategy k (set_activeSentinels []) st1).2).
    assert (HR2 : heap_le st1 st2).
    { apply preserves_at. apply heap_updStrategy. done. }
    exists st2. split; [done|]. split.
    + unfold activeOf. rewrite (heap_le_cls st1 st2), (heap_le_cls st st1), Hc by done.
      subst st2. apply cleared_sentinels.
    + intros s Hin. eapply flagged_le; [done|].
      unfold activeOf in Hin. rewrite Hc in Hin. by apply Hpost.
Qed.

(** [release()] of a strategy whose collection holds sentinels of the
    store (wrapped ones for the native-lock strategy) resolves, leaves the
    collection empty and every sentinel of it released. *)
Lemma strategy_release_all_tracked st k :
  (forall s, s ∈ activeOf st k ->
     exists x, sentinels st !! s = Some x /\
       (cls (theStrategy st k) = ScreenWakeLockStrategy ->
        s_class x = ScreenWakeLockStrategy)) ->
  exists st',
    strategy_release k st = (Ok tt, st') /\
    activeOf st' k = [] /\
    (forall s, s ∈ activeOf st k ->
       s_released (theSentinel st' s) = true /\ released st' s = true).
Proof.
  intros Hs. unfold strategy_release, bind, gets.
  assert (Hfin : forall st',
             (forall s, s ∈ activeOf st k -> flagged st' s) ->
             forall s, s ∈ activeOf st k ->
               s_released (theSentinel st' s) = true /\ released st' s = true).
  { intros st' Hf s Hin. specialize (Hf s Hin). split; [|by apply flagged_released].
    destruct Hf as (x & Hx & Hr). unfold theSentinel. by rewrite Hx. }
  assert (Hentry : cls (theStrategy st k) <> ScreenWakeLockStrategy ->
            exists st', entryStrategy_release k st = (Ok tt, st') /\
              activeOf st' k = [] /\
              (forall s, s ∈ activeOf st k ->
                 s_released (theSentinel st' s) = true /\ released st' s = true)).
  { intros Hc. destruct (entryStrategy_release_all k st Hc) as (st' & E & Ha & Hf).
    - intros s Hin. destruct (Hs s Hin) as (x & Hx & _). exists x. done.
    - exists st'. auto. }
  destruct (cls (theStrategy st k)) eqn:Hc; try (by apply Hentry).
  destruct (ScreenWakeLockStrategy_release_all k st Hc) as (st' & E & Ha & Hf).
  - intros s Hin. destruct (Hs s Hin) as (x & Hx & Hcx). exists x. auto.
  - exists st'. auto.
Qed.

(** ** What a strategy's [request] makes and leaves *)

Lemma mapGet_mapSet_eq key s m : mapGet key (mapSet key s m) = Some s.
Proof.
  induction m as [|[k' v'] m IH]; simpl.
  - by rewrite decide_True.
  - case_decide; simpl; [by rewrite decide_True|]. by rewrite decide_False.
Qed.

Lemma mapGet_mapSet_ne key key' s m :
  key' <> key -> mapGet key' (mapSet key s m) = mapGet key' m.
Proof.
  intros Hne. induction m as [|[k' v'] m IH]; simpl.
  - by rewrite decide_False.
  - case_decide; simpl; [subst; by rewrite !decide_False|].
    case_decide; [done|]. apply IH.
Qed.

Lemma mapGet_Some_elem key s m : mapGet key m = Some s -> s ∈ m.*2.
Proof.
  induction m as [|[k' v'] m IH]; simpl; [done|].
  case_decide; intros Hg.
  - inversion Hg; subst. by left.
  - right. auto.
Qed.

Lemma elem_setAdd (x y : ObjId) l : x ∈ l -> x ∈ setAdd y l.
Proof.
  intros H. unfold setAdd. case_bool_decide; [done|]. apply elem_of_app. by left.
Qed.

Lemma elem_setAdd_new (y : ObjId) l : y ∈ setAdd y l.
Proof.
  unfold setAdd. case_bool_decide; [done|]. apply elem_of_app. right. by left.
Qed.

Ltac run_request :=
  unfold strategy_request, ScreenWakeLockStrategy_request, VideoElementStrategy_request,
    AudioContextStrategy_request, TimerStrategy_request, TimerStrategy_createSentinel,
    createSentinel, createWrappedSentinel, acquire, newSentinel, newNative, updStrategy,
    updNative, generateUniqueId, step, record, tryCatch, bind, gets, modify, ret, throw,
    strategy_isSupported, isWakeLockSupported, isSSR, theStrategy;
  simpl.

Ltac frame_solve :=
  unfold frame, theStrategy; simpl;
  repeat split; intros;
  rewrite ?lookup_alter_ne, ?lookup_insert_ne by lia;
  repeat case_decide; subst; simpl;
  rewrite ?mapGet_mapSet_ne by lia;
  auto using elem_setAdd; try lia.

Lemma strategy_request_frame k ty o st : frame st (strategy_request k ty o st).2.
Proof.
  run_request.
  destruct (cls (strategyObjs st k)); simpl;
    destruct (env_ssr (env st)); simpl; try frame_solve;
    try (destruct (env_wakeLock (env st)); simpl; try frame_solve);
    try (destruct (env_video (env st)); simpl; try frame_solve);
    try (destruct (env_audio (env st)); simpl; try frame_solve);
    destruct ty; simpl; try frame_solve;
    repeat (match goal with |- context [env_acquire ?e ?t ?c] =>
              destruct (env_acquire e t c) as [[| |]|] end; simpl); frame_solve.
Qed.

Lemma strategy_request_Ok k ty o st s st' :
  strategy_request k ty o st = (Ok s, st') ->
  alive st' k s /\ (nextObj st <= s)%nat /\
  trace st' = trace st ++ [StrategyRequest k ty] /\ wl st' = wl st.
Proof.
  run_request.
  destruct (cls (strategyObjs st k)) eqn:Hc; simpl;
    destruct (env_ssr (env st)); simpl; try (intros Heq; discriminate);
    try (destruct (env_wakeLock (env st)); simpl; try (intros Heq; discriminate));
    try (destruct (env_video (env st)); simpl; try (intros Heq; discriminate));
    try (destruct (env_audio (env st)); simpl; try (intros Heq; discriminate));
    destruct ty; simpl; try (intros Heq; discriminate);
    repeat (match goal with |- context [env_acquire ?e ?t ?c] =>
              destruct (env_acquire e t c) as [[| |]|] end; simpl);
    try (intros Heq; discriminate);
    intros Heq; injection Heq as <- <-.
  all: unfold alive, released, theSentinel, theNative, theStrategy; simpl.
  all: rewrite ?lookup_insert_eq, ?lookup_alter_eq; simpl.
  all: rewrite ?lookup_insert_eq; simpl.
  all: rewrite ?decide_True by done; simpl; rewrite ?Hc; simpl.
  all: repeat split; try lia; try done.
  all: first [ apply elem_setAdd_new
             | exists (nextKey st); split; [lia | apply mapGet_mapSet_eq] ].
Qed.

Lemma alive_frame st st' k s : frame st st' -> alive st k s -> alive st' k s.
Proof.
  intros (Ho & Hk & Hs & Hn & Hst) (Hlt & Hrel & Hnat & Htr).
  destruct (Hst k) as (Hc & Hset & Hmap).
  assert (Es : theSentinel st' s = theSentinel st s).
  { unfold theSentinel. by rewrite Hs. }
  unfold alive. rewrite Es, Hc. split; [lia|]. split; [|split].
  - unfold released in *. rewrite Es.
    destruct (s_class (theSentinel st s)); [|done..].
    unfold theNative in *. rewrite Hn; [done|]. by apply Hnat.
  - intros E. specialize (Hnat E). lia.
  - destruct (cls (theStrategy st k)); [by apply Hset|..];
      destruct Htr as (key & Hkey & Hg); exists key; (split; [lia|]); by rewrite Hmap.
Qed.

Lemma alive_active st k s : alive st k s -> s ∈ activeOf st k.
Proof.
  intros (_ & _ & _ & H). unfold activeOf.
  destruct (cls (theStrategy st k)); [done|..];
    destruct H as (key & _ & Hg); by apply (mapGet_Some_elem key).
Qed.

(** Two successful calls in a row leave two different unreleased
    sentinels in the strategy's collection. *)
Lemma attempt_Ok k ty o st s st' :
  attempt k ty o st = (Ok s, st') ->
  exists s1,
    s1 <> s /\
    s1 ∈ activeOf st' k /\ s ∈ activeOf st' k /\
    released st' s1 = false /\ released st' s = false /\
    currentStrategy (wl st') = Some k /\
    trace st' = trace st ++ [StrategyRequest k ty; StrategyRequest k ty].
Proof.
  unfold attempt, measureStrategy. unfold bind at 1, gets at 1. intros H.
  rewrite bind_assoc in H.
  apply bind_inv in H as [(s1 & st1 & H1 & H)|(t & _ & ?)]; [|done].
  unfold bind at 1, ret at 1 in H.
  apply bind_inv in H as [(s2 & st2 & H2 & H)|(t & _ & ?)]; [|done].
  unfold setCurrentStrategy, bind, modify, ret in H. injection H as <- <-.
  apply strategy_request_Ok in H1 as (A1 & _ & T1 & _).
  pose proof (strategy_request_frame k ty o st1) as F. rewrite H2 in F. simpl in F.
  apply strategy_request_Ok in H2 as (A2 & L2 & T2 & _).
  assert (Hlt : (s1 < nextObj st1)%nat) by (by destruct A1).
  apply (alive_frame _ _ _ _ F) in A1.
  exists s1. split; [lia|].
  split; [by apply alive_active in A1|]. split; [by apply alive_active in A2|].
  split; [by destruct A1 as (_ & ? & _)|]. split; [by destruct A2 as (_ & ? & _)|].
  split; [done|]. simpl. rewrite T2, T1. by rewrite <- app_assoc.
Qed.


Lemma tryLoop_Ok all rest ty o errs st s st' :
  tryLoop all rest ty o errs st = (Ok s, st') ->
  exists k st0, k ∈ rest /\ attempt k ty o st0 = (Ok s, st').
Proof.
  revert errs st. induction rest as [|k rest IH]; intros errs st; simpl; [done|].
  unfold tryCatch. destruct (attempt k ty o st) as [[s0|t] st1] eqn:Ha.
  - intros Heq. injection Heq as <- <-. exists k, st. split; [by left|done].
  - intros H. apply bind_inv in H as [(w & st2 & _ & H)|(t' & _ & ?)]; [|done].
    apply IH in H as (k' & st0 & Hin & H). exists k', st0. split; [by right|done].
Qed.



(** ** The store of a running instance *)

Global Instance sentinel_le_refl : Reflexive sentinel_le.
Proof. intros x. unfold sentinel_le. auto. Qed.

Global Instance sentinel_le_trans : Transitive sentinel_le.
Proof.
  intros a b c (A1 & A2 & A3) (B1 & B2 & B3). unfold sentinel_le.
  split; [congruence|]. split; [congruence|auto].
Qed.

Global Instance native_le_refl : Reflexive native_le.
Proof. intros y Hy. exact Hy. Qed.

Global Instance native_le_trans : Transitive native_le.
Proof. intros a b c H1 H2 Hy. apply H2, H1, Hy. Qed.

Global Instance tidy_refl : Reflexive tidy.
Proof. intros st. unfold tidy. repeat split; auto; intros; reflexivity. Qed.

Global Instance tidy_trans : Transitive tidy.
Proof.
  intros a b c (A1 & A2 & A3 & A4 & A5) (B1 & B2 & B3 & B4 & B5).
  split; [lia|]. split; [intros s; etrans; [apply A2 | apply B2]|].
  split; [intros n; etrans; [apply A3 | apply B3]|].
  split; auto.
Qed.

Lemma tidy_sentinel st st' s x :
  tidy st st' -> sentinels st !! s = Some x ->
  exists x', sentinels st' !! s = Some x' /\ sentinel_le x x'.
Proof.
  intros (_ & T & _) Hx. specialize (T s). rewrite Hx in T.
  inversion T; subst. eauto.
Qed.

Lemma tidy_sentinel_back st st' s :
  tidy st st' -> is_Some (sentinels st' !! s) -> is_Some (sentinels st !! s).
Proof.
  intros (_ & T & _) [x' Hx']. specialize (T s). rewrite Hx' in T.
  inversion T; subst. eauto.
Qed.

Lemma tidy_native_back st st' n :
  tidy st st' -> is_Some (natives st' !! n) -> is_Some (natives st !! n).
Proof.
  intros (_ & _ & T & _) [y' Hy']. specialize (T n). rewrite Hy' in T.
  inversion T; subst. eauto.
Qed.

Lemma store_ok_tidy st st' : tidy st st' -> store_ok st -> store_ok st'.
Proof.
  intros HT (A & A' & B & C).
  pose proof HT as (T1 & _ & _ & T4 & T5).
  split; [|split; [|split]].
  - intros s Hs. apply (tidy_sentinel_back _ _ _ HT) in Hs. specialize (A s Hs). lia.
  - intros n Hn. apply (tidy_native_back _ _ _ HT) in Hn. specialize (A' n Hn). lia.
  - intros k s Hin. destruct (B k s (T4 k s Hin)) as (x & Hx & Hc).
    destruct (tidy_sentinel _ _ _ _ HT Hx) as (x' & Hx' & Hc' & _).
    exists x'. split; [done|congruence].
  - intros k s Hin. destruct (C k s (T5 k s Hin)) as (x & Hx).
    destruct (tidy_sentinel _ _ _ _ HT Hx) as (x' & Hx' & _). eauto.
Qed.

Lemma released_tidy st st' s :
  tidy st st' -> is_Some (sentinels st !! s) ->
  is_Some (sentinels st' !! s) /\ (released st s = true -> released st' s = true).
Proof.
  intros HT [x Hx].
  destruct (tidy_sentinel _ _ _ _ HT Hx) as (x' & Hx' & Hc & Hn & Hr).
  split; [eauto|]. unfold released, theSentinel. rewrite Hx, Hx'. simpl.
  rewrite Hc, Hn. destruct (s_class x); [|done..].
  intros H. apply orb_true_iff in H as [H|H]; apply orb_true_iff; [left; auto|right].
  unfold theNative in *. destruct HT as (_ & _ & T & _). specialize (T (s_native x)).
  destruct (natives st !! s_native x) as [y|]; [|done].
  inversion T as [? y' Hle|]; subst. simpl in *. auto.
Qed.

Global Instance sound_refl : Reflexive sound.
Proof. intros st H. split; [exact H|]. auto. Qed.

Global Instance sound_trans : Transitive sound.
Proof.
  intros a b c H1 H2 Ha. destruct (H1 Ha) as (Hb & R1). destruct (H2 Hb) as (Hc & R2).
  split; [exact Hc|]. intros s Hs. destruct (R1 s Hs) as (Hs1 & F1).
  destruct (R2 s Hs1) as (Hs2 & F2). auto.
Qed.

Lemma tidy_sound {A} (m : M A) : preserves tidy m -> preserves sound m.
Proof.
  intros H st Hok. split; [apply (store_ok_tidy st); [apply H | exact Hok]|].
  intros s Hs. apply released_tidy; [apply H | exact Hs].
Qed.

Lemma tidy_same st st' :
  nextObj st' = nextObj st -> sentinels st' = sentinels st -> natives st' = natives st ->
  strategyObjs st' = strategyObjs st -> tidy st st'.
Proof.
  intros E1 E2 E3 E4. unfold tidy, theStrategy. rewrite E1, E2, E3, E4.
  repeat split; auto; intros; reflexivity.
Qed.

Ltac tidy_prim :=
  apply tidy_same; simpl; repeat case_match; reflexivity.

Create HintDb tidy discriminated.

Ltac tidy_tac := preserves_with ltac:(tidy_prim); try solve [auto with tidy].

Lemma tidy_updSentinel s f :
  (forall v, sentinel_le v (f v)) -> preserves tidy (updSentinel s f).
Proof.
  intros Hf st. split; [done|]. split; [|repeat split; auto; intros; reflexivity].
  intros s'. simpl. rewrite lookup_alter. case_decide; [subst|reflexivity].
  destruct (sentinels st !! s'); simpl; constructor. apply Hf.
Qed.

Lemma tidy_updNative n f :
  (forall v, native_le v (f v)) -> preserves tidy (updNative n f).
Proof.
  intros Hf st. split; [done|]. split; [intros; reflexivity|].
  split; [|split; auto].
  intros n'. simpl. rewrite lookup_alter. case_decide; [subst|reflexivity].
  destruct (natives st !! n'); simpl; constructor. apply Hf.
Qed.

Lemma elem_setDelete (x y : ObjId) l : x ∈ setDelete y l -> x ∈ l.
Proof.
  induction l as [|z l IH]; simpl; [done|].
  case_decide; [right; auto|].
  intros Hx. apply elem_of_cons in Hx as [->|Hx]; [by left|right; auto].
Qed.

Lemma elem_mapDelete (x : ObjId) key m : x ∈ (mapDelete key m).*2 -> x ∈ m.*2.
Proof.
  induction m as [|[k' v'] m IH]; simpl; [done|].
  case_decide; [right; auto|]. simpl.
  intros Hx. apply elem_of_cons in Hx as [->|Hx]; [by left|right; auto].
Qed.

Lemma tidy_updStrategy k f :
  (forall v s, s ∈ activeSentinels (f v) -> s ∈ activeSentinels v) ->
  (forall v s, s ∈ (activeEntries (f v)).*2 -> s ∈ (activeEntries v).*2) ->
  preserves tidy (updStrategy k f).
Proof.
  intros H1 H2 st. split; [done|]. split; [intros; reflexivity|].
  split; [intros; reflexivity|].
  split; intros k' s; unfold theStrategy; simpl; case_decide; subst; auto.
Qed.

Lemma tidy_record e : preserves tidy (record e).
Proof. unfold record. tidy_tac. Qed.
Lemma tidy_emit e : preserves tidy (emit e).
Proof. apply tidy_record. Qed.
Lemma tidy_step : preserves tidy step.
Proof. intros st. tidy_prim. Qed.
Lemma tidy_updMonitor f : preserves tidy (updMonitor f).
Proof. unfold updMonitor. tidy_tac. Qed.
Lemma tidy_setCurrentStrategy v : preserves tidy (setCurrentStrategy v).
Proof. unfold setCurrentStrategy. tidy_tac. Qed.
Lemma tidy_setIsReleasing v : preserves tidy (setIsReleasing v).
Proof. unfold setIsReleasing. tidy_tac. Qed.
Lemma tidy_setActiveSentinel v : preserves tidy (setActiveSentinel v).
Proof. unfold setActiveSentinel. tidy_tac. Qed.
Lemma tidy_stop : preserves tidy PerformanceMonitor_stop.
Proof. unfold PerformanceMonitor_stop. tidy_tac. Qed.
#[export] Hint Resolve tidy_record tidy_emit tidy_step tidy_updMonitor
  tidy_setCurrentStrategy tidy_setIsReleasing tidy_setActiveSentinel tidy_stop : tidy.
#[export] Hint Extern 1 (preserves tidy (updSentinel _ _)) =>
  (apply tidy_updSentinel; intros ?; unfold sentinel_le; simpl; auto) : tidy.
#[export] Hint Extern 1 (preserves tidy (updNative _ _)) =>
  (apply tidy_updNative; intros ?; unfold native_le; simpl; auto) : tidy.
#[export] Hint Extern 1 (preserves tidy (updStrategy _ _)) =>
  (apply tidy_updStrategy; simpl; intros ? ?;
   first [ done | apply elem_setDelete | apply elem_mapDelete
         | intros Hnil; by apply elem_of_nil in Hnil ]) : tidy.

Lemma tidy_onRelease s : preserves tidy (onRelease s).
Proof. unfold onRelease. tidy_tac. Qed.
#[export] Hint Resolve tidy_onRelease : tidy.
Lemma tidy_callListener l : preserves tidy (callListener l).
Proof. unfold callListener. tidy_tac. Qed.
#[export] Hint Resolve tidy_callListener : tidy.
Lemma tidy_notifyListeners ls : preserves tidy (notifyListeners ls).
Proof. unfold notifyListeners. tidy_tac. Qed.
#[export] Hint Resolve tidy_notifyListeners : tidy.
Lemma tidy_releaseSentinel k i s : preserves tidy (releaseSentinel k i s).
Proof. unfold releaseSentinel. tidy_tac. Qed.
#[export] Hint Resolve tidy_releaseSentinel : tidy.
Lemma tidy_entrySentinel_release s : preserves tidy (entrySentinel_release s).
Proof. unfold entrySentinel_release. tidy_tac. Qed.
Lemma tidy_nativeAnon s : preserves tidy (nativeAnon s).
Proof. unfold nativeAnon. tidy_tac. Qed.
#[export] Hint Resolve tidy_entrySentinel_release tidy_nativeAnon : tidy.
Lemma tidy_nativeDispatch n : preserves tidy (nativeDispatch n).
Proof. unfold nativeDispatch. tidy_tac. Qed.
#[export] Hint Resolve tidy_nativeDispatch : tidy.
Lemma tidy_nativeMarkReleased n : preserves tidy (nativeMarkReleased n).
Proof. unfold nativeMarkReleased. tidy_tac. Qed.
#[export] Hint Resolve tidy_nativeMarkReleased : tidy.
Lemma tidy_native_release n : preserves tidy (native_release n).
Proof. unfold native_release. tidy_tac. Qed.
#[export] Hint Resolve tidy_native_release : tidy.
Lemma tidy_wrappedSentinel_release s : preserves tidy (wrappedSentinel_release s).
Proof. unfold wrappedSentinel_release. tidy_tac. Qed.
#[export] Hint Resolve tidy_wrappedSentinel_release : tidy.
Lemma tidy_sentinel_release s : preserves tidy (sentinel_release s).
Proof. unfold sentinel_release. tidy_tac. Qed.
Lemma tidy_addEventListener s l : preserves tidy (sentinel_addEventListener s l).
Proof. unfold sentinel_addEventListener. tidy_tac. Qed.
Lemma tidy_removeEventListener s l : preserves tidy (sentinel_removeEventListener s l).
Proof. unfold sentinel_removeEventListener. tidy_tac. Qed.
#[export] Hint Resolve tidy_sentinel_release tidy_addEventListener tidy_removeEventListener : tidy.
Lemma tidy_strategy_release k : preserves tidy (strategy_release k).
Proof.
  unfold strategy_release, ScreenWakeLockStrategy_release, entryStrategy_release. tidy_tac.
Qed.
#[export] Hint Resolve tidy_strategy_release : tidy.
Lemma tidy_checkWakeLockPermission ty p : preserves tidy (checkWakeLockPermission ty p).
Proof.
  unfold checkWakeLockPermission, queryPermission, getCachedPermission, setCachedPermission,
    checkSpecificPermission, checkPermission.
  tidy_tac.
Qed.
#[export] Hint Resolve tidy_checkWakeLockPermission : tidy.
Lemma tidy_canRequestWithoutPrompt ty : preserves tidy (canRequestWithoutPrompt ty).
Proof. unfold canRequestWithoutPrompt. tidy_tac. Qed.
#[export] Hint Resolve tidy_canRequestWithoutPrompt : tidy.
Lemma tidy_release : preserves tidy WakeLock_release.
Proof. unfold WakeLock_release. tidy_tac. Qed.
#[export] Hint Resolve tidy_release : tidy.
Lemma tidy_releaseAndWarn : preserves tidy releaseAndWarn.
Proof. unfold releaseAndWarn. tidy_tac. Qed.
#[export] Hint Resolve tidy_releaseAndWarn : tidy.
Lemma tidy_onBatteryChange l c : preserves tidy (onBatteryChange l c).
Proof. unfold onBatteryChange. tidy_tac. Qed.
#[export] Hint Resolve tidy_onBatteryChange : tidy.
Lemma tidy_throttled m : preserves tidy (throttledEmitPerformance m).
Proof. unfold throttledEmitPerformance, onPerformance. tidy_tac. Qed.
#[export] Hint Resolve tidy_throttled : tidy.
Lemma tidy_start : preserves tidy PerformanceMonitor_start.
Proof.
  unfold PerformanceMonitor_start, initializeBatteryMonitoring, collectMetrics. tidy_tac.
Qed.
#[export] Hint Resolve tidy_start : tidy.
Lemma tidy_passiveGate ty o : preserves tidy (passiveGate ty o).
Proof. unfold passiveGate. tidy_tac. Qed.
Lemma tidy_startMonitoring : preserves tidy startMonitoring.
Proof. unfold startMonitoring. tidy_tac. Qed.
#[export] Hint Resolve tidy_passiveGate tidy_startMonitoring : tidy.
Lemma tidy_recordFailure all k e : preserves tidy (recordFailure all k e).
Proof. unfold recordFailure. tidy_tac. Qed.
Lemma tidy_adopt ty s : preserves tidy (adopt ty s).
Proof. unfold adopt, setupSentinelListeners. tidy_tac. Qed.
#[export] Hint Resolve tidy_recordFailure tidy_adopt : tidy.

Lemma tidy_perform op :
  (forall ty opts, op <> OpRequest ty opts) ->
  (forall k ty opts, op <> OpStrategyRequest k ty opts) ->
  preserves tidy (perform op).
Proof.
  intros H1 H2. destruct op; simpl;
    try (by destruct (H1 ty opts)); try (by destruct (H2 k ty opts));
    unfold checkPermissions, WakeLock_destroy, nativeRevoked, visibilityChanged,
      batteryChanged, monitoringTimerCallback, collectMetrics;
    tidy_tac.
Qed.

Lemma elem_setAdd_inv (x y : ObjId) l : x ∈ setAdd y l -> x = y \/ x ∈ l.
Proof.
  unfold setAdd. case_bool_decide; [by right|].
  intros Hx. apply elem_of_app in Hx as [Hx|Hx]; [by right|].
  apply list_elem_of_singleton in Hx. by left.
Qed.

Lemma elem_mapSet_inv (x v : ObjId) key m : x ∈ (mapSet key v m).*2 -> x = v \/ x ∈ m.*2.
Proof.
  induction m as [|[k' v'] m IH]; simpl.
  - intros Hx. apply list_elem_of_singleton in Hx. by left.
  - case_decide; simpl; intros Hx; apply elem_of_cons in Hx as [->|Hx].
    + by left.
    + right. by right.
    + right. by left.
    + destruct (IH Hx) as [->|Hin]; [by left|right; by right].
Qed.

(** A strategy's [request] makes its objects under fresh identifiers and
    enters the sentinel it made in its collection. *)
Lemma strategy_request_store_ok k ty o st :
  store_ok st -> store_ok (strategy_request k ty o st).2.
Proof.
  run_request.
  destruct (cls (strategyObjs st k)); simpl;
    destruct (env_ssr (env st)); simpl;
    try (destruct (env_wakeLock (env st)); simpl);
    try (destruct (env_video (env st)); simpl);
    try (destruct (env_audio (env st)); simpl);
    destruct ty; simpl;
    repeat (match goal with |- context [env_acquire ?e ?t ?c] =>
              destruct (env_acquire e t c) as [[| |]|] end; simpl).
  all: intros (A & A' & B & C); unfold store_ok, theStrategy; simpl.
  all: split; [|split; [|split]].
  all: try (intros s Hs; rewrite ?lookup_alter in Hs; repeat case_decide; subst;
            try lia; rewrite ?lookup_insert in Hs; repeat case_decide; subst;
            try lia; first [specialize (A s Hs) | specialize (A' s Hs)]; lia).
  all: intros k0 s Hin; try case_decide; subst; simpl in Hin.
  all: try (apply elem_setAdd_inv in Hin as [->|Hin];
            [rewrite lookup_insert_eq; eauto|]).
  all: try (apply elem_mapSet_inv in Hin as [->|Hin];
            [rewrite lookup_insert_eq; eauto|]).
  all: try (destruct (B _ _ Hin) as (x & Hx & Hc);
            pose proof (A s (mk_is_Some _ _ Hx)) as Hlt;
            exists x; rewrite ?lookup_insert_ne by lia; done).
  all: try (specialize (C _ _ Hin);
            pose proof (A s C) as Hlt;
            rewrite ?lookup_insert_ne by lia; done).
Qed.

Lemma released_frame st st' s :
  frame st st' -> store_ok st -> is_Some (sentinels st !! s) ->
  is_Some (sentinels st' !! s) /\ (released st s = true -> released st' s = true).
Proof.
  intros (_ & _ & Hs & Hn & _) (A & A' & _) Hin.
  unfold released, theSentinel, theNative, ObjId in *.
  pose proof (A s Hin) as Hlt. rewrite !(Hs s Hlt). split; [done|].
  destruct Hin as [x Hx]. rewrite Hx. simpl.
  destruct (s_class x); [|done..].
  intros H. apply orb_true_iff in H as [H|H]; apply orb_true_iff; [by left|right].
  match type of H with
  | context [default dummyNative ?o] => destruct o as [y|] eqn:Hy; [|done]
  end.
  rewrite Hn; [by rewrite Hy|]. apply A'. rewrite Hy. eauto.
Qed.

Lemma sound_strategy_request k ty o : preserves sound (strategy_request k ty o).
Proof.
  intros st Hok. split; [by apply strategy_request_store_ok|].
  intros s Hs. apply released_frame; [apply strategy_request_frame|done..].
Qed.

Create HintDb sound discriminated.

#[export] Hint Resolve sound_strategy_request : sound.
#[export] Hint Extern 5 (preserves sound _) =>
  (apply tidy_sound; solve [auto with tidy]) : sound.

Ltac sound_tac := preserves_with ltac:(idtac); try solve [auto with sound].

Lemma sound_attempt k ty o : preserves sound (attempt k ty o).
Proof. unfold attempt, measureStrategy. sound_tac. Qed.
#[export] Hint Resolve sound_attempt : sound.

Lemma sound_tryLoop all rest ty o errs : preserves sound (tryLoop all rest ty o errs).
Proof. revert errs. induction rest as [|k rest IH]; intros errs; simpl; sound_tac. Qed.
#[export] Hint Resolve sound_tryLoop : sound.

Lemma sound_request ty opts : preserves sound (WakeLock_request ty opts).
Proof. unfold WakeLock_request, requestBody, tryStrategies. sound_tac. Qed.

Lemma sound_perform op : preserves sound (perform op).
Proof.
  destruct op;
    try (apply tidy_sound, tidy_perform; intros; discriminate).
  - apply sound_request.
  - apply sound_strategy_request.
Qed.

Lemma sound_run ops st : sound st (run ops st).
Proof.
  revert st. induction ops as [|op ops IH]; intros st; simpl; [reflexivity|].
  etrans; [apply sound_perform | apply IH].
Qed.

Lemma new_store_ok cfg : store_ok (WakeLock_new cfg).
Proof.
  split; [|split; [|split]]; simpl.
  - intros s Hs. rewrite lookup_empty in Hs. by destruct Hs.
  - intros s Hs. rewrite lookup_empty in Hs. by destruct Hs.
  - intros k s Hin. by apply elem_of_nil in Hin.
  - intros k s Hin. by apply elem_of_nil in Hin.
Qed.

(** In every state of an instance the store is well formed. *)
Lemma reachable_store_ok st : reachable st -> store_ok st.
Proof. intros (cfg & ops & ->). apply sound_run, new_store_ok. Qed.

(** Whatever happens to an instance, a sentinel that reads released
    keeps reading released. *)
Lemma released_never_reverts st ops s :
  reachable st -> is_Some (sentinels st !! s) -> released st s = true ->
  is_Some (sentinels (run ops st) !! s) /\ released (run ops st) s = true.
Proof.
  intros Hr Hs Hrel.
  destruct (sound_run ops st (reachable_store_ok st Hr)) as (_ & H).
  destruct (H s Hs) as (Hs' & Hrel'). auto.
Qed.

(** ** Releasing a strategy *)

(** C6. In every state of an instance, for a strategy of any of the four
    classes: [release()] resolves, whatever the platform answers to the
    individual releases, also when releases of native sentinels reject;
    afterwards the strategy's active collection is empty, and every sentinel
    that was in it is released. *)
Theorem strategy_release_releases_all st k :
  reachable st ->
  exists st',
    strategy_release k st = (Ok tt, st') /\
    activeOf st' k = [] /\
    (forall s, s ∈ activeOf st k ->
       s_released (theSentinel st' s) = true /\ released st' s = true).
Proof.
  intros Hr. apply strategy_release_all_tracked.
  destruct (reachable_store_ok st Hr) as (_ & _ & B & C).
  intros s Hin. unfold activeOf in Hin.
  destruct (cls (theStrategy st k)) eqn:Hc.
  - destruct (B k s Hin) as (x & Hx & Hcx). eauto.
  - destruct (C k s Hin) as (x & Hx). exists x. split; [done|]. intros E. discriminate E.
  - destruct (C k s Hin) as (x & Hx). exists x. split; [done|]. intros E. discriminate E.
  - destruct (C k s Hin) as (x & Hx). exists x. split; [done|]. intros E. discriminate E.
Qed.

Lemma strategy_release_releases_all_witness :
  activeOf screenHeldRejecting 0%nat = [1%nat; 3%nat] /\
  exists st',
    strategy_release 0%nat screenHeldRejecting = (Ok tt, st') /\
    activeOf st' 0%nat = [] /\
    (forall s, s ∈ activeOf screenHeldRejecting 0%nat ->
       s_released (theSentinel st' s) = true /\ released st' s = true).
Proof.
  split; [vm_compute; reflexivity|].
  apply (strategy_release_releases_all screenHeldRejecting 0%nat).
  eexists _, _. reflexivity.
Defined.

(** ** Where strategies are asked *)

Global Instance noreq_refl : Reflexive noreq.
Proof. by intros st. Qed.

Global Instance noreq_trans : Transitive noreq.
Proof. intros a b c H1 H2. unfold noreq in *. congruence. Qed.

Ltac noreq_prim :=
  unfold noreq; simpl; rewrite ?requestsOf_app; simpl; rewrite ?app_nil_r;
  repeat case_match; auto.

Create HintDb noreq discriminated.

Ltac noreq_tac := preserves_with ltac:(noreq_prim); try solve [auto with noreq].

Lemma noreq_emit e : preserves noreq (emit e).
Proof. unfold emit, record. noreq_tac. Qed.
Lemma noreq_call id : preserves noreq (record (ListenerCall id)).
Proof. unfold record. noreq_tac. Qed.
Lemma noreq_query n : preserves noreq (record (PermissionQuery n)).
Proof. unfold record. noreq_tac. Qed.
Lemma noreq_step : preserves noreq step.
Proof. intros st. noreq_prim. Qed.
Lemma noreq_updSentinel s f : preserves noreq (updSentinel s f).
Proof. unfold updSentinel. noreq_tac. Qed.
Lemma noreq_updNative s f : preserves noreq (updNative s f).
Proof. unfold updNative. noreq_tac. Qed.
Lemma noreq_updStrategy s f : preserves noreq (updStrategy s f).
Proof. unfold updStrategy. noreq_tac. Qed.
Lemma noreq_updMonitor f : preserves noreq (updMonitor f).
Proof. unfold updMonitor. noreq_tac. Qed.
Lemma noreq_setCurrentStrategy v : preserves noreq (setCurrentStrategy v).
Proof. unfold setCurrentStrategy. noreq_tac. Qed.
Lemma noreq_setIsReleasing v : preserves noreq (setIsReleasing v).
Proof. unfold setIsReleasing. noreq_tac. Qed.
Lemma noreq_setActiveSentinel v : preserves noreq (setActiveSentinel v).
Proof. unfold setActiveSentinel. noreq_tac. Qed.
Lemma noreq_stop : preserves noreq PerformanceMonitor_stop.
Proof. unfold PerformanceMonitor_stop. noreq_tac. Qed.
#[export] Hint Resolve noreq_emit noreq_call noreq_query noreq_step noreq_updSentinel
  noreq_updNative noreq_updStrategy noreq_updMonitor noreq_setCurrentStrategy
  noreq_setIsReleasing noreq_setActiveSentinel noreq_stop : noreq.

Lemma noreq_onRelease s : preserves noreq (onRelease s).
Proof. unfold onRelease. noreq_tac. Qed.
#[export] Hint Resolve noreq_onRelease : noreq.
Lemma noreq_callListener l : preserves noreq (callListener l).
Proof. unfold callListener. noreq_tac. Qed.
#[export] Hint Resolve noreq_callListener : noreq.
Lemma noreq_notifyListeners ls : preserves noreq (notifyListeners ls).
Proof. unfold notifyListeners. noreq_tac. Qed.
#[export] Hint Resolve noreq_notifyListeners : noreq.
Lemma noreq_releaseSentinel k i s : preserves noreq (releaseSentinel k i s).
Proof. unfold releaseSentinel. noreq_tac. Qed.
#[export] Hint Resolve noreq_releaseSentinel : noreq.
Lemma noreq_entrySentinel_release s : preserves noreq (entrySentinel_release s).
Proof. unfold entrySentinel_release. noreq_tac. Qed.
Lemma noreq_nativeAnon s : preserves noreq (nativeAnon s).
Proof. unfold nativeAnon. noreq_tac. Qed.
#[export] Hint Resolve noreq_entrySentinel_release noreq_nativeAnon : noreq.
Lemma noreq_nativeDispatch n : preserves noreq (nativeDispatch n).
Proof. unfold nativeDispatch. noreq_tac. Qed.
#[export] Hint Resolve noreq_nativeDispatch : noreq.
Lemma noreq_nativeMarkReleased n : preserves noreq (nativeMarkReleased n).
Proof. unfold nativeMarkReleased. noreq_tac. Qed.
#[export] Hint Resolve noreq_nativeMarkReleased : noreq.
Lemma noreq_native_release n : preserves noreq (native_release n).
Proof. unfold native_release. noreq_tac. Qed.
#[export] Hint Resolve noreq_native_release : noreq.
Lemma noreq_wrappedSentinel_release s : preserves noreq (wrappedSentinel_release s).
Proof. unfold wrappedSentinel_release. noreq_tac. Qed.
#[export] Hint Resolve noreq_wrappedSentinel_release : noreq.
Lemma noreq_sentinel_release s : preserves noreq (sentinel_release s).
Proof. unfold sentinel_release. noreq_tac. Qed.
#[export] Hint Resolve noreq_sentinel_release : noreq.
Lemma noreq_checkWakeLockPermission ty p : preserves noreq (checkWakeLockPermission ty p).
Proof.
  unfold checkWakeLockPermission, queryPermission, getCachedPermission, setCachedPermission,
    checkSpecificPermission, checkPermission.
  noreq_tac.
Qed.
#[export] Hint Resolve noreq_checkWakeLockPermission : noreq.
Lemma noreq_release : preserves noreq WakeLock_release.
Proof. unfold WakeLock_release. noreq_tac. Qed.
#[export] Hint Resolve noreq_release : noreq.
Lemma noreq_prelude ty ro : preserves noreq (prelude ty ro).
Proof.
  unfold prelude, passiveGate, canRequestWithoutPrompt, startMonitoring,
    PerformanceMonitor_start, initializeBatteryMonitoring, onBatteryChange, releaseAndWarn,
    collectMetrics, throttledEmitPerformance, onPerformance.
  noreq_tac.
Qed.
Lemma noreq_recordFailure all k e : preserves noreq (recordFailure all k e).
Proof. unfold recordFailure. noreq_tac. Qed.

(** ** All strategies failing *)

Lemma recordFailure_Ok all k e st :
  exists st', recordFailure all k e st = (Ok (strategyError (strategyName st k) e), st').
Proof.
  unfold recordFailure, bind, gets, emit, record, modify, ret.
  destruct (nextStrategy all k); eauto.
Qed.

Lemma tryLoop_allFail all ty ro rest st errs st' :
  allFail all ty ro rest st errs st' ->
  forall errs0,
    tryLoop all rest ty ro errs0 st =
    (Throw (ThrownWakeLockError (allFailed (errs0 ++ errs))), st').
Proof.
  induction 1 as [st|k rest st e st1 w st2 errs st3 Ha Hr _ IH]; intros errs0; simpl.
  - by rewrite app_nil_r.
  - unfold tryCatch. rewrite Ha. unfold bind. rewrite Hr. rewrite IH.
    by rewrite <- app_assoc.
Qed.

Lemma tryLoop_Throw all ty ro rest errs0 st t st' :
  tryLoop all rest ty ro errs0 st = (Throw t, st') ->
  exists errs,
    allFail all ty ro rest st errs st' /\
    t = ThrownWakeLockError (allFailed (errs0 ++ errs)).
Proof.
  revert errs0 st. induction rest as [|k rest IH]; intros errs0 st; simpl.
  - intros Heq. injection Heq as <- <-. exists []. rewrite app_nil_r. split; [constructor|done].
  - unfold tryCatch. destruct (attempt k ty ro st) as [[s|e] st1] eqn:Ha; [done|].
    destruct (recordFailure_Ok all k e st1) as (st2 & Hr). unfold bind. rewrite Hr.
    intros H. apply IH in H as (errs & Hf & ->).
    exists (strategyError (strategyName st1 k) e :: errs). split.
    + econstructor; done.
    + by rewrite <- app_assoc.
Qed.

Lemma allFail_length all ty ro rest st errs st' :
  allFail all ty ro rest st errs st' -> length errs = length rest.
Proof. induction 1; simpl; auto. Qed.

Lemma request_allFail ty opts st u st0 errs st1 :
  let ro := mergeOptions opts (opt_passive (options (wl st))) in
  isSSR st = false -> activeUnreleased st = None ->
  prelude ty ro st = (Ok u, st0) ->
  allFail (strategies (wl st)) ty ro (strategies (wl st)) st0 errs st1 ->
  WakeLock_request ty opts st =
  (Throw (ThrownWakeLockError (allFailed errs)),
   set_trace (trace st1 ++ [Emit (error (allFailed errs))]) st1).
Proof.
  intros ro Hssr Hact Hp Hf. rewrite request_fresh by done. fold ro.
  pose proof (preserves_eq _ _ _ _ _ (orch_prelude ty _) Hp) as (_ & Hstr & _).
  assert (E : requestBody ty ro st =
              bind (prelude ty ro) (fun _ => bind (tryStrategies ty ro) (adopt ty)) st).
  { unfold requestBody, prelude. by rewrite bind_assoc. }
  unfold tryCatch. rewrite E. unfold bind at 1. rewrite Hp.
  unfold bind at 1. unfold tryStrategies at 1. unfold bind at 1, gets at 1.
  rewrite Hstr. rewrite (tryLoop_allFail _ _ _ _ _ _ _ Hf []). reflexivity.
Qed.

Lemma tryCatch_total (m : M unit) h :
  (forall t st, exists st', h t st = (Ok tt, st')) ->
  forall st, exists st', tryCatch m h st = (Ok tt, st').
Proof.
  intros Hh st. unfold tryCatch. destruct (m st) as [[[]|t] s1]; [by eexists|]. apply Hh.
Qed.

Lemma startMonitoring_Ok st : exists st', startMonitoring st = (Ok tt, st').
Proof.
  unfold startMonitoring, bind, gets, when.
  destruct (opt_performanceMonitoring _); [|by eexists].
  unfold PerformanceMonitor_start, bind, gets.
  destruct (_ || _); [by eexists|]. unfold updMonitor at 1, modify at 1.
  apply tryCatch_total. intros t s1. by eexists.
Qed.

Lemma passiveGate_outcome ty ro st :
  (exists st1, passiveGate ty ro st = (Throw (ThrownWakeLockError passiveDenied), st1) /\
               truthy (ro_passive ro) = true) \/
  (exists st1, passiveGate ty ro st = (Ok tt, st1)).
Proof.
  unfold passiveGate. destruct (truthy (ro_passive ro)) eqn:Hp; [|right; by eexists].
  destruct (canRequestWithoutPrompt_spec ty st) as (b & st1 & Hc & _).
  rewrite (bind_Ok _ _ _ _ _ Hc). unfold bind, gets.
  destruct (negb b && isPassiveModeRecommended st1); [left|right]; by eexists.
Qed.

(** The prelude fails in one way only. *)
Lemma prelude_outcome ty ro st :
  (exists st1, prelude ty ro st = (Throw (ThrownWakeLockError passiveDenied), st1) /\
               truthy (ro_passive ro) = true) \/
  (exists st1, prelude ty ro st = (Ok tt, st1)).
Proof.
  unfold prelude.
  destruct (passiveGate_outcome ty ro st) as [(st1 & Hg & Hp)|(st1 & Hg)].
  - left. exists st1. by rewrite (bind_Throw _ _ _ _ _ Hg).
  - right. destruct (startMonitoring_Ok st1) as (st2 & Hs). exists st2.
    by rewrite (bind_Ok _ _ _ _ _ Hg).
Qed.

Lemma requestBody_prelude ty ro st :
  requestBody ty ro st =
  bind (prelude ty ro) (fun _ => bind (tryStrategies ty ro) (adopt ty)) st.
Proof. unfold requestBody, prelude. by rewrite bind_assoc. Qed.

Lemma request_prelude_Throw ty opts st t st1 :
  isSSR st = false -> activeUnreleased st = None ->
  prelude ty (mergeOptions opts (opt_passive (options (wl st)))) st = (Throw t, st1) ->
  WakeLock_request ty opts st =
  (Throw t, set_trace (trace st1 ++ [Emit (error (requestError t))]) st1).
Proof.
  intros Hssr Hact Hp. rewrite request_fresh by done.
  unfold tryCatch. rewrite requestBody_prelude. by rewrite (bind_Throw _ _ _ _ _ Hp).
Qed.

Lemma reachable_empty_idle st :
  reachable st -> strategies (wl st) = [] -> activeUnreleased st = None.
Proof.
  intros Hr He. unfold activeUnreleased.
  destruct (activeSentinel (wl st)) as [s|] eqn:Ha; [|done].
  destruct (reachable_adopted st Hr) as (_ & Hne); [by rewrite Ha|done].
Qed.




(** ** Where the code departs from its specification *)

(** C7. Where the permission state cannot be determined,
    [canRequestWithoutPrompt] answers [true].  In a browser without the
    Permissions API and with nothing cached ([unknownPermission]),
    [checkWakeLockPermission(type)] answers [null] for either kind, and
    [canRequestWithoutPrompt(type)] resolves with [true].  So it is on every
    host: outside server-side rendering, whenever the plain check answers
    [null], [canRequestWithoutPrompt] resolves with [true], because it reads
    the state in passive mode, in which an undetermined state is taken as
    [granted]. *)
Theorem canRequestWithoutPrompt_true_when_undetermined :
  (forall ty,
     (checkWakeLockPermission ty false unknownPermission).1 = Ok None /\
     (canRequestWithoutPrompt ty unknownPermission).1 = Ok true) /\
  (forall ty st,
     isSSR st = false ->
     (checkWakeLockPermission ty false st).1 = Ok None ->
     (canRequestWithoutPrompt ty st).1 = Ok true).
Proof.
  split.
  { intros ty. destruct ty; split; vm_compute; reflexivity. }
  intros ty st Hssr.
  unfold canRequestWithoutPrompt, tryCatch, bind at 1, gets at 1. rewrite Hssr.
  unfold bind at 1.
  unfold checkWakeLockPermission, bind at 1 3, gets at 1 2. rewrite Hssr.
  unfold bind at 1 2.
  destruct (getCachedPermission (cacheKey ty) st) as [[[c|]|t] s1]; simpl; [done| |done].
  unfold queryPermission, tryCatch, bind, ret, setCachedPermission, modify.
  destruct (checkSpecificPermission "wake-lock" s1) as [[[p|]|t] s2]; simpl; [done| |done].
  destruct ty; simpl; [|done].
  destruct (checkSpecificPermission "screen-wake-lock" s2) as [[[p|]|t] s3]; simpl; done.
Qed.

(** C4. The instance built from [[v, v]], one video strategy listed
    twice, asked for a [system] lock: both attempts fail, and a [fallback]
    is notified after each of them, also after the second one, when no
    strategy is left and the chain ends with STRATEGY_FAILED. *)
Theorem fallback_after_the_last_attempt :
  strategies (wl (WakeLock_new sameStrategyTwice)) = [0%nat; 0%nat] /\
  exists e st',
    WakeLock_request system noOptions (WakeLock_new sameStrategyTwice) =
      (Throw (ThrownWakeLockError e), st') /\
    err_code e = STRATEGY_FAILED /\
    trace st' =
      [StrategyRequest 0%nat system;
       Emit (fallback "video-element" "video-element"
               "System wake locks are not supported by video element strategy");
       StrategyRequest 0%nat system;
       Emit (fallback "video-element" "video-element"
               "System wake locks are not supported by video element strategy");
       Emit (error e)].
Proof.
  split; [vm_compute; reflexivity|].
  eexists _, _. split; [vm_compute; reflexivity|].
  split; vm_compute; reflexivity.
Qed.

(** C3. The instance holding a timer sentinel (number 1): [release()]
    resolves and releases the sentinel, but what it notifies is [disabled]
    with the reason [automatic-release], from the sentinel's own release
    listener, which also empties the slot, and then [error]: reading the
    kind of the sentinel from the emptied slot throws.  No [disabled] with
    the reason [manual-release] is notified. *)
Theorem release_notifies_error_after_success :
  activeSentinel (wl timerScreenHeld) = Some 1%nat /\
  released timerScreenHeld 1%nat = false /\
  exists st',
    WakeLock_release timerScreenHeld = (Ok tt, st') /\
    released st' 1%nat = true /\
    activeSentinel (wl st') = None /\
    currentStrategy (wl st') = None /\
    pm_isMonitoring (performanceMonitor st') = false /\
    trace st' =
      trace timerScreenHeld ++
      [Emit (disabled screen "automatic-release");
       Emit (error (mkWakeLockError "Cannot read properties of null (reading 'type')"
                      UNKNOWN None))].
Proof.
  split; [vm_compute; reflexivity|]. split; [vm_compute; reflexivity|].
  eexists. split; [vm_compute; reflexivity|].
  repeat split; vm_compute; reflexivity.
Qed.

(** C2. A sentinel of the native-lock strategy (number 1) with one
    subscriber, on a platform that fires [release] at its sentinel when
    [release()] is called on it: a successful [release()] of the wrapped
    sentinel calls the subscriber twice, once from the platform's event and
    once from the wrapper's own loop. *)
Theorem wrapped_release_notifies_twice :
  s_releaseListeners (theSentinel screenSentinelWithSubscriber 1%nat) =
    [UserListener 7%nat false] /\
  released screenSentinelWithSubscriber 1%nat = false /\
  exists st',
    sentinel_release 1%nat screenSentinelWithSubscriber = (Ok tt, st') /\
    released st' 1%nat = true /\
    s_releaseListeners (theSentinel st' 1%nat) = [] /\
    trace st' = trace screenSentinelWithSubscriber ++ [ListenerCall 7%nat; ListenerCall 7%nat] /\
    callsOf 7%nat (trace st') = (callsOf 7%nat (trace screenSentinelWithSubscriber) + 2)%nat.
Proof.
  split; [vm_compute; reflexivity|]. split; [vm_compute; reflexivity|].
  eexists. split; [vm_compute; reflexivity|].
  repeat split; vm_compute; reflexivity.
Qed.

(** ** What does hold of sentinels and of [release] *)

(** Releasing a sentinel whose [_released] flag is set does nothing. *)
Lemma sentinel_release_again s st :
  s_released (theSentinel st s) = true -> sentinel_release s st = (Ok tt, st).
Proof.
  intros H. unfold sentinel_release, bind, gets. cbn beta iota.
  destruct (s_class (theSentinel st s));
    unfold wrappedSentinel_release, entrySentinel_release, bind, gets; cbn beta iota;
    by rewrite H.
Qed.

(** No release path clears a [_released] flag. *)
Lemma release_paths_keep_flags st x :
  flagged st x ->
  (forall s, flagged (sentinel_release s st).2 x) /\
  (forall k, flagged (strategy_release k st).2 x) /\
  flagged (WakeLock_release st).2 x /\
  (forall n, flagged (nativeRevoked n st).2 x).
Proof.
  intros H. repeat split; intros.
  - apply (flagged_le x st); [|done]. apply (preserves_at heap_le (sentinel_release s)).
    auto with heap.
  - apply (flagged_le x st); [|done]. apply (preserves_at heap_le (strategy_release k)).
    unfold strategy_release, ScreenWakeLockStrategy_release, entryStrategy_release. heap_tac.
  - apply (flagged_le x st); [|done]. apply (preserves_at heap_le WakeLock_release).
    unfold WakeLock_release, setIsReleasing, setActiveSentinel, setCurrentStrategy, emit.
    heap_tac.
  - apply (flagged_le x st); [|done]. apply (preserves_at heap_le (nativeRevoked n)).
    unfold nativeRevoked. heap_tac.
Qed.

Lemma set_trace_twice t1 t2 st : set_trace t2 (set_trace t1 st) = set_trace t2 st.
Proof. reflexivity. Qed.

(** Subscribers that are callbacks of the user are each called once, in
    order. *)
Lemma notifyListeners_users (ids : list (nat * bool)) st :
  notifyListeners (map (fun i => UserListener i.1 i.2) ids) st =
  (Ok tt, set_trace (trace st ++ map (fun i => ListenerCall i.1) ids) st).
Proof.
  revert st. induction ids as [|[id th] ids IH]; intros st.
  - unfold notifyListeners, ret. simpl. rewrite app_nil_r. by destruct st.
  - change (notifyListeners (map (fun i => UserListener i.1 i.2) ((id, th) :: ids)))
      with (bind (tryCatch (callListener (UserListener id th)) (fun _ => ret tt))
              (fun _ => notifyListeners (map (fun i => UserListener i.1 i.2) ids))).
    unfold bind. rewrite swallow_Ok.
    assert (E : (callListener (UserListener id th) st).2 =
                set_trace (trace st ++ [ListenerCall id]) st).
    { unfold callListener, bind, record, modify. simpl. by destruct th. }
    rewrite E, IH. simpl. by rewrite <- app_assoc.
Qed.

(** A sentinel of the video, audio or timer strategy that its strategy
    tracks, with callbacks of the user as subscribers: [release()] resolves,
    sets the flag, calls every subscriber exactly once, in order, and then
    clears the subscriber set. *)
Lemma entry_release_notifies_once st s x (ids : list (nat * bool)) :
  sentinels st !! s = Some x ->
  s_class x <> ScreenWakeLockStrategy ->
  s_released x = false ->
  mapGet (s_key x) (activeEntries (theStrategy st (s_strategy x))) = Some s ->
  s_releaseListeners x = map (fun i => UserListener i.1 i.2) ids ->
  exists st',
    sentinel_release s st = (Ok tt, st') /\
    trace st' = trace st ++ map (fun i => ListenerCall i.1) ids /\
    s_released (theSentinel st' s) = true /\
    s_releaseListeners (theSentinel st' s) = [].
Proof.
  intros Hx Hc Hr Hg Hl.
  assert (Ex : theSentinel st s = x) by (unfold theSentinel; by rewrite Hx).
  assert (E : sentinel_release s st = releaseSentinel (s_strategy x) (s_key x) s st).
  { unfold sentinel_release, bind, gets. cbn beta iota. rewrite Ex.
    destruct (s_class x) eqn:Hcx; [done|..];
      unfold entrySentinel_release, bind, gets; cbn beta iota;
      rewrite Ex, Hr, Hg, ?Hcx; reflexivity. }
  rewrite E. unfold releaseSentinel. unfold bind at 1, gets at 1. cbn beta iota.
  rewrite Ex, Hr.
  unfold tryFinally, tryCatch, step. cbn beta iota.
  unfold bind at 1, ret at 1. cbn beta iota.
  unfold bind at 1, updSentinel at 1, modify at 1. cbn beta iota.
  unfold bind at 1, updStrategy at 1, modify at 1. cbn beta iota.
  unfold bind at 1. unfold bind at 1, gets at 1. cbn beta iota.
  match goal with |- context [notifyListeners ?l ?s0] =>
    assert (El : l = map (fun i => UserListener i.1 i.2) ids)
  end.
  { unfold theSentinel. simpl. rewrite lookup_alter_eq, Hx. simpl. exact Hl. }
  rewrite El, notifyListeners_users. unfold updSentinel, modify. cbn beta iota.
  eexists. split; [reflexivity|]. split; [done|].
  unfold theSentinel. simpl. rewrite !lookup_alter_eq, Hx. done.
Qed.

(** On a platform that does not fire [release] when [release()] is
    called, the same holds of a wrapped sentinel. *)
Lemma wrapped_release_notifies_once_when_silent st s x (ids : list (nat * bool)) :
  sentinels st !! s = Some x ->
  s_class x = ScreenWakeLockStrategy ->
  s_released x = false ->
  env_nativeFires (env st) = false ->
  env_nativeRelease (env st) (tick st) = None ->
  s_releaseListeners x = map (fun i => UserListener i.1 i.2) ids ->
  exists st',
    sentinel_release s st = (Ok tt, st') /\
    trace st' = trace st ++ map (fun i => ListenerCall i.1) ids /\
    s_released (theSentinel st' s) = true /\
    s_releaseListeners (theSentinel st' s) = [].
Proof.
  intros Hx Hc Hr Hfire Hrel Hl.
  assert (Ex : theSentinel st s = x) by (unfold theSentinel; by rewrite Hx).
  unfold sentinel_release, bind at 1, gets at 1. cbn beta iota. rewrite Ex, Hc.
  unfold wrappedSentinel_release, bind at 1, gets at 1. cbn beta iota. rewrite Ex, Hr.
  assert (En : exists nat',
             native_release (s_native x) st =
             (Ok tt, set_natives nat' (set_tick (S (tick st)) st))).
  { unfold native_release, step, bind at 1. cbn beta iota.
    unfold bind at 1, gets at 1. cbn beta iota. simpl. rewrite Hrel.
    unfold nativeMarkReleased, bind at 1, gets at 1. cbn beta iota.
    destruct (n_released _).
    - exists (natives st). unfold ret. by destruct st.
    - unfold bind, updNative, modify, gets, when. simpl. rewrite Hfire.
      eexists. reflexivity. }
  destruct En as (nat' & En). unfold tryFinally. rewrite En.
  unfold bind at 1, updSentinel at 1, modify at 1. cbn beta iota.
  unfold bind at 1, updStrategy at 1, modify at 1. cbn beta iota.
  unfold bind at 1. unfold bind at 1, gets at 1. cbn beta iota.
  match goal with |- context [notifyListeners ?l ?s0] =>
    assert (El : l = map (fun i => UserListener i.1 i.2) ids)
  end.
  { unfold theSentinel. simpl. rewrite lookup_alter_eq, Hx. simpl. exact Hl. }
  rewrite El, notifyListeners_users. unfold updSentinel, modify. cbn beta iota.
  eexists. split; [reflexivity|]. split; [done|].
  unfold theSentinel. simpl. rewrite !lookup_alter_eq, Hx. done.
Qed.

(** [release()] of the orchestrator always resolves, and when it gets
    past its guard it leaves both slots empty, the re-entrancy flag down and
    the monitor stopped. *)
Lemma release_resolves_and_clears st :
  exists st',
    WakeLock_release st = (Ok tt, st') /\
    (activeUnreleased st <> None -> isReleasing (wl st) = false ->
     activeSentinel (wl st') = None /\
     currentStrategy (wl st') = None /\
     isReleasing (wl st') = false /\
     pm_isMonitoring (performanceMonitor st') = false).
Proof.
  unfold WakeLock_release, activeUnreleased, bind at 1, gets at 1.
  destruct (activeSentinel (wl st)) as [s|]; [|by exists st].
  unfold bind at 1, gets at 1. unfold bind at 1, gets at 1.
  destruct (released st s); [by exists st|]. simpl.
  destruct (isReleasing (wl st)); [exists st; split; [done|]; intros _ ?; done|].
  unfold bind at 1, setIsReleasing at 1, modify at 1.
  unfold tryFinally.
  match goal with |- context [tryCatch ?m ?h ?s0] =>
    destruct (tryCatch_total m h) with (st := s0) as (s1 & E) end.
  { intros t s1. by eexists. }
  rewrite E.
  unfold setActiveSentinel, setCurrentStrategy, setIsReleasing, PerformanceMonitor_stop,
    bind, modify. simpl.
  eexists. split; [reflexivity|]. intros _ _.
  destruct (pm_isMonitoring (performanceMonitor s1)) eqn:Hm; simpl; [|done].
  by destruct (pm_battery (performanceMonitor s1)).
Qed.

(** ** Fallback notifications when no strategy is listed twice *)

Lemma indexOf_NoDup all i k : NoDup all -> all !! i = Some k -> indexOf k all = Some i.
Proof.
  intros Hnd. revert i. induction Hnd as [|x l Hx Hnd IH]; intros i Hi; [done|].
  simpl. destruct i as [|i]; simpl in Hi.
  - injection Hi as ->. by rewrite decide_True.
  - rewrite decide_False.
    + by rewrite (IH i Hi).
    + intros ->. apply Hx. by apply list_elem_of_lookup_2 in Hi.
Qed.

Lemma nextStrategy_NoDup all i k :
  NoDup all -> all !! i = Some k -> nextStrategy all k = all !! S i.
Proof. intros Hnd Hi. unfold nextStrategy. by rewrite (indexOf_NoDup all i k). Qed.

(** The failure of a strategy that has a successor is announced, naming
    both. *)
Lemma recordFailure_next all i k k' e st :
  NoDup all -> all !! i = Some k -> all !! S i = Some k' ->
  recordFailure all k e st =
  (Ok (strategyError (strategyName st k) e),
   set_trace
     (trace st ++
      [Emit (fallback (strategyName st k) (strategyName st k')
               (err_message (strategyError (strategyName st k) e)))]) st).
Proof.
  intros Hnd Hi Hi'. unfold recordFailure, bind, gets. cbn beta iota.
  rewrite (nextStrategy_NoDup all i k), Hi' by done. reflexivity.
Qed.

(** The failure of the last strategy is not announced. *)
Lemma recordFailure_last pre k e st :
  NoDup (pre ++ [k]) ->
  recordFailure (pre ++ [k]) k e st = (Ok (strategyError (strategyName st k) e), st).
Proof.
  intros Hnd. unfold recordFailure, bind, gets. cbn beta iota.
  rewrite (nextStrategy_NoDup (pre ++ [k]) (length pre) k Hnd).
  - rewrite lookup_ge_None_2; [done|]. rewrite length_app. simpl. lia.
  - by rewrite list_lookup_middle.
Qed.

Global Instance noemit_refl : Reflexive noemit.
Proof. by intros st. Qed.

Global Instance noemit_trans : Transitive noemit.
Proof. intros a b c H1 H2. unfold noemit in *. congruence. Qed.

Ltac noemit_prim :=
  unfold noemit; simpl; rewrite ?emitted_app; simpl; rewrite ?app_nil_r;
  repeat case_match; auto.

Lemma noemit_strategy_request k ty o : preserves noemit (strategy_request k ty o).
Proof.
  assert (Hstep : preserves noemit step) by (intros st; noemit_prim).
  assert (Hid : preserves noemit generateUniqueId) by (intros st; noemit_prim).
  assert (Hs : forall x, preserves noemit (newSentinel x)) by (intros x st; noemit_prim).
  assert (Hn : forall x, preserves noemit (newNative x)) by (intros x st; noemit_prim).
  unfold strategy_request, ScreenWakeLockStrategy_request, VideoElementStrategy_request,
    AudioContextStrategy_request, TimerStrategy_request, TimerStrategy_createSentinel,
    createSentinel, createWrappedSentinel, acquire, record, updStrategy, updNative.
  preserves_with ltac:(noemit_prim); auto.
Qed.

Lemma noemit_attempt k ty o : preserves noemit (attempt k ty o).
Proof.
  pose proof noemit_strategy_request.
  unfold attempt, measureStrategy, setCurrentStrategy.
  preserves_with ltac:(noemit_prim); auto.
Qed.

(** The situation of C4 on a list that begins with two strategies [a] and
    [b]: when [a] fails and [b] succeeds, the request resolves, and what is
    notified from the first attempt on is one [fallback] from [a] to [b]
    with the failure message, and then one [enabled] naming [b]. *)
Lemma first_fails_second_succeeds st ty opts a b rest u st0 e st1 s st2 :
  let ro := mergeOptions opts (opt_passive (options (wl st))) in
  strategies (wl st) = a :: b :: rest ->
  isSSR st = false -> activeUnreleased st = None ->
  prelude ty ro st = (Ok u, st0) ->
  attempt a ty ro st0 = (Throw e, st1) ->
  attempt b ty ro (recordFailure (a :: b :: rest) a e st1).2 = (Ok s, st2) ->
  exists st',
    WakeLock_request ty opts st = (Ok s, st') /\
    emitted (trace st') =
    emitted (trace st0) ++
    [fallback (strategyName st1 a) (strategyName st1 b)
       (err_message (strategyError (strategyName st1 a) e));
     enabled ty (strategyName st2 b)].
Proof.
  intros ro Hl Hssr Hact Hp Ha Hb.
  pose proof (preserves_eq _ _ _ _ _ (orch_prelude ty _) Hp) as (_ & Hstr & _).
  assert (Hrec : recordFailure (a :: b :: rest) a e st1 =
            (Ok (strategyError (strategyName st1 a) e),
             set_trace
               (trace st1 ++
                [Emit (fallback (strategyName st1 a) (strategyName st1 b)
                         (err_message (strategyError (strategyName st1 a) e)))]) st1)).
  { unfold recordFailure, nextStrategy, bind, gets. cbn beta iota. simpl.
    rewrite decide_True by done. reflexivity. }
  rewrite Hrec in Hb. simpl in Hb.
  assert (Ht : tryStrategies ty ro st0 = (Ok s, st2)).
  { unfold tryStrategies, bind, gets. cbn beta iota. rewrite Hstr, Hl. simpl.
    unfold tryCatch at 1. rewrite Ha. unfold bind at 1. rewrite Hrec.
    unfold tryCatch at 1. by rewrite Hb. }
  destruct (adopt_facts ty s st2) as (st' & Had & _ & _ & _ & _ & _ & _ & _ & Htr).
  exists st'. split.
  - rewrite request_fresh by done. fold ro. unfold tryCatch.
    rewrite requestBody_prelude. unfold bind at 1. rewrite Hp.
    unfold bind at 1. rewrite Ht. by rewrite Had.
  - rewrite Htr, emitted_app. simpl.
    pose proof (preserves_eq _ _ _ _ _ (noemit_attempt b ty ro) Hb) as E2.
    pose proof (preserves_eq _ _ _ _ _ (noemit_attempt a ty ro) Ha) as E1.
    unfold noemit in E1, E2. simpl in E2. rewrite emitted_app in E2. simpl in E2.
    rewrite E2, E1, <- app_assoc. simpl.
    apply attempt_Ok in Hb as (_ & _ & _ & _ & _ & _ & Hcur & _). by rewrite Hcur.
Qed.

(** * Further properties *)

(** ** The constructor: the order of the strategies *)

Section Sorting.
Variable priority : ObjId -> Z.

Lemma insertBy_perm x l : insertBy priority x l ≡ₚ x :: l.
Proof.
  induction l as [|y l IH]; simpl; [done|].
  destruct (priority y <=? priority x); [|done].
  rewrite IH. apply Permutation_swap.
Qed.

Lemma insertBy_sorted x l :
  StronglySorted (fun a b => priority a <= priority b) l ->
  StronglySorted (fun a b => priority a <= priority b) (insertBy priority x l).
Proof.
  induction 1 as [|y l Hl IH Hy]; simpl.
  - repeat constructor.
  - destruct (priority y <=? priority x) eqn:E.
    + apply Z.leb_le in E. constructor; [done|].
      rewrite insertBy_perm. constructor; [done|done].
    + apply Z.leb_gt in E. constructor; [by constructor|].
      constructor; [lia|]. eapply Forall_impl; [done|]. simpl. intros z Hz. lia.
Qed.

Lemma fold_insertBy_perm l acc :
  fold_left (fun acc x => insertBy priority x acc) l acc ≡ₚ l ++ acc.
Proof.
  revert acc. induction l as [|x l IH]; intros acc; simpl; [done|].
  rewrite IH, insertBy_perm. by rewrite Permutation_middle.
Qed.

Lemma fold_insertBy_sorted l acc :
  StronglySorted (fun a b => priority a <= priority b) acc ->
  StronglySorted (fun a b => priority a <= priority b)
    (fold_left (fun acc x => insertBy priority x acc) l acc).
Proof.
  revert acc. induction l as [|x l IH]; intros acc H; simpl; [done|].
  by apply IH, insertBy_sorted.
Qed.

Lemma filter_sorted (P : ObjId -> Prop) `{!forall x, Decision (P x)} l :
  StronglySorted (fun a b => priority a <= priority b) l ->
  StronglySorted (fun a b => priority a <= priority b) (filter P l).
Proof.
  induction 1 as [|y l Hl IH Hy]; [constructor|].
  rewrite filter_cons. case_decide; [|done].
  constructor; [done|]. apply Forall_forall. intros z Hz.
  apply list_elem_of_filter in Hz as [_ Hz]. by apply (proj1 (Forall_forall _ _) Hy).
Qed.
End Sorting.

Lemma ssr_supports_nothing st c : isSSR st = true -> strategy_isSupported st c = false.
Proof. intros H. destruct c; simpl; unfold isWakeLockSupported; by rewrite H. Qed.

(** X1. The constructor lists the strategies it was given (the four
    default ones if none were given) in the order of their priorities,
    keeps exactly those that are supported on the host, each as often as it
    was given; under server-side rendering none is kept and [isSupported()]
    is [false]. *)
Theorem constructor_orders_supported_strategies cfg :
  let st := WakeLock_new cfg in
  let given :=
    match cfg_strategies cfg with
    | Some l => l
    | None => seq 0 (length defaultStrategies)
    end in
  StronglySorted
    (fun a b => classPriority (cls (theStrategy st a)) <= classPriority (cls (theStrategy st b)))
    (strategies (wl st)) /\
  strategies (wl st) ≡ₚ
    filter (fun k => strategy_isSupported st (cls (theStrategy st k)) = true) given /\
  (isSSR st = true -> strategies (wl st) = [] /\ WakeLock_isSupported st = false).
Proof.
  intros st given. split; [|split].
  - unfold st, WakeLock_new, sortBy. simpl.
    apply (filter_sorted _ _ _), fold_insertBy_sorted. constructor.
  - unfold st, WakeLock_new, sortBy. simpl. fold given.
    rewrite fold_insertBy_perm. by rewrite app_nil_r.
  - intros Hssr.
    assert (E : strategies (wl st) = []).
    { unfold st, WakeLock_new. simpl.
      match goal with |- filter ?P ?l = [] => generalize l end.
      intros l0. induction l0 as [|x l0 IH]; [done|].
      rewrite filter_cons. case_decide as Hx; [|done].
      rewrite ssr_supports_nothing in Hx; done. }
    split; [done|]. unfold WakeLock_isSupported. by rewrite Hssr.
Qed.

(** ** The strategy list after construction *)

Lemma request_keeps_list ty opts st :
  env (WakeLock_request ty opts st).2 = env st /\
  strategies (wl (WakeLock_request ty opts st).2) = strategies (wl st).
Proof.
  destruct (isSSR st) eqn:Hssr.
  { by rewrite request_ssr. }
  destruct (activeUnreleased st) as [s|] eqn:Hact.
  { by rewrite (request_existing _ _ _ s). }
  destruct (WakeLock_request ty opts st) as [r st'] eqn:H. simpl.
  apply request_outcome in H as [(t & st1 & -> & -> & H)|(u & st0 & s & st1 & -> & Hp & Ht & Ha)];
    [| |done..].
  - simpl. destruct H as [H|(u & st0 & Hp & Ht)].
    + destruct (preserves_eq _ _ _ _ _ (orch_prelude ty _) H) as (E & S & _). done.
    + destruct (preserves_eq _ _ _ _ _ (orch_prelude ty _) Hp) as (E0 & S0 & _).
      destruct (preserves_eq _ _ _ _ _ (orch_tryStrategies ty _) Ht) as (E1 & S1 & _).
      split; congruence.
  - destruct (preserves_eq _ _ _ _ _ (orch_prelude ty _) Hp) as (E0 & S0 & _).
    destruct (preserves_eq _ _ _ _ _ (orch_tryStrategies ty _) Ht) as (E1 & S1 & _).
    destruct (adopt_facts ty s st1) as (st2 & Ha' & E2 & S2 & _).
    rewrite Ha' in Ha. inversion Ha; subst st2. split; congruence.
Qed.

(** Unfolds the operations down to the accesses of the store. *)
Ltac unfold_model :=
  unfold perform, checkPermissions, WakeLock_destroy, nativeRevoked, visibilityChanged,
    batteryChanged, monitoringTimerCallback, WakeLock_request, requestBody, tryStrategies,
    adopt, setupSentinelListeners, attempt, measureStrategy, recordFailure, passiveGate,
    startMonitoring, PerformanceMonitor_start, initializeBatteryMonitoring, collectMetrics,
    throttledEmitPerformance, onPerformance, onBatteryChange, releaseAndWarn,
    WakeLock_release, canRequestWithoutPrompt, checkWakeLockPermission, queryPermission,
    getCachedPermission, setCachedPermission, checkSpecificPermission, checkPermission,
    strategy_release, ScreenWakeLockStrategy_release, entryStrategy_release,
    strategy_request, ScreenWakeLockStrategy_request, VideoElementStrategy_request,
    AudioContextStrategy_request, TimerStrategy_request, TimerStrategy_createSentinel,
    createSentinel, createWrappedSentinel, acquire,
    sentinel_addEventListener, sentinel_removeEventListener, sentinel_release,
    wrappedSentinel_release, native_release, nativeMarkReleased, nativeDispatch, nativeAnon,
    entrySentinel_release, releaseSentinel, notifyListeners, callListener, onRelease,
    PerformanceMonitor_stop, setActiveSentinel, setCurrentStrategy, setIsReleasing,
    updMonitor, updSentinel, updNative, updStrategy, emit, record.

Global Instance same_classes_refl : Reflexive same_classes.
Proof. by intros st k. Qed.

Global Instance same_classes_trans : Transitive same_classes.
Proof. intros a b c H1 H2 k. by rewrite H2. Qed.

Ltac classes_prim :=
  intros ?; unfold theStrategy; simpl; repeat case_match; simpl; try done;
  repeat case_decide; simpl; done.

Create HintDb classes discriminated.

Lemma classes_step : preserves same_classes step.
Proof. by intros st k. Qed.
Lemma classes_generateUniqueId : preserves same_classes generateUniqueId.
Proof. by intros st k. Qed.
Lemma classes_newSentinel s : preserves same_classes (newSentinel s).
Proof. by intros st k. Qed.
Lemma classes_newNative s : preserves same_classes (newNative s).
Proof. by intros st k. Qed.
#[export] Hint Resolve classes_step classes_generateUniqueId classes_newSentinel
  classes_newNative : classes.

Ltac classes_tac :=
  unfold_model; preserves_with ltac:(classes_prim); try solve [auto with classes].

Lemma classes_tryLoop all rest ty o errs :
  preserves same_classes (tryLoop all rest ty o errs).
Proof. revert errs. induction rest as [|k rest IH]; intros errs; simpl; classes_tac. Qed.
#[export] Hint Resolve classes_tryLoop : classes.

Lemma classes_perform op : preserves same_classes (perform op).
Proof. destruct op; classes_tac. Qed.

Lemma run_same_classes ops st : same_classes st (run ops st).
Proof.
  revert st. induction ops as [|op ops IH]; intros st; simpl; [reflexivity|].
  etrans; [apply classes_perform | apply IH].
Qed.

Lemma perform_keeps_list op st :
  env (perform op st).2 = env st /\
  strategies (wl (perform op st).2) = strategies (wl st).
Proof.
  destruct op; try apply request_keeps_list;
    match goal with |- context [perform ?o] =>
      destruct (orch_perform o (ltac:(intros; discriminate)) st) as (E & S & _)
    end; done.
Qed.

(** X2. The strategy list and the host are fixed when the instance is
    constructed: whatever is done with the instance afterwards,
    [getSupportedStrategies()] and [isSupported()] answer what they answered
    at first. *)
Theorem supported_strategies_never_change cfg ops :
  let st := run ops (WakeLock_new cfg) in
  strategies (wl st) = strategies (wl (WakeLock_new cfg)) /\
  getSupportedStrategies st = getSupportedStrategies (WakeLock_new cfg) /\
  WakeLock_isSupported st = WakeLock_isSupported (WakeLock_new cfg).
Proof.
  simpl.
  assert (H : forall st0,
             env (run ops st0) = env st0 /\
             strategies (wl (run ops st0)) = strategies (wl st0)).
  { induction ops as [|op ops IH]; intros st0; simpl; [done|].
    destruct (IH (perform op st0).2) as (E & S).
    destruct (perform_keeps_list op st0) as (E0 & S0).
    split; congruence. }
  destruct (H (WakeLock_new cfg)) as (E & S).
  split; [done|]. split.
  - unfold getSupportedStrategies. rewrite S. apply map_ext. intros k.
    unfold strategyName. by rewrite (run_same_classes ops (WakeLock_new cfg) k).
  - unfold WakeLock_isSupported, isSSR. by rewrite E, S.
Qed.

(** ** What the strategies make of a request *)

(** The sentinel that a strategy's [request] resolves with is of the
    requested kind and of the strategy's class; only the timer strategy
    serves the kind [system]. *)
Lemma strategy_request_made k ty o st s st' :
  strategy_request k ty o st = (Ok s, st') ->
  s_type (theSentinel st' s) = ty /\
  s_class (theSentinel st' s) = cls (theStrategy st k) /\
  s_strategy (theSentinel st' s) = k /\
  (ty = system -> cls (theStrategy st k) = TimerStrategy).
Proof.
  run_request.
  destruct (cls (strategyObjs st k)) eqn:Hc; simpl;
    destruct (env_ssr (env st)); simpl; try (intros Heq; discriminate);
    try (destruct (env_wakeLock (env st)); simpl; try (intros Heq; discriminate));
    try (destruct (env_video (env st)); simpl; try (intros Heq; discriminate));
    try (destruct (env_audio (env st)); simpl; try (intros Heq; discriminate));
    destruct ty; simpl; try (intros Heq; discriminate);
    repeat (match goal with |- context [env_acquire ?e ?t ?c] =>
              destruct (env_acquire e t c) as [[| |]|] end; simpl);
    try (intros Heq; discriminate);
    intros Heq; injection Heq as <- <-.
  all: unfold theSentinel; simpl.
  all: rewrite ?lookup_insert_eq, ?lookup_alter_eq; simpl.
  all: rewrite ?lookup_insert_eq; simpl.
  all: repeat split; try done; try (intros E; discriminate E).
  all: unfold theNative; simpl; by rewrite lookup_insert_eq.
Qed.

Lemma attempt_made k ty o st s st' :
  attempt k ty o st = (Ok s, st') ->
  s_type (theSentinel st' s) = ty /\
  s_class (theSentinel st' s) = cls (theStrategy st' k) /\
  s_strategy (theSentinel st' s) = k /\
  (ty = system -> cls (theStrategy st' k) = TimerStrategy).
Proof.
  unfold attempt, measureStrategy. unfold bind at 1, gets at 1. intros H.
  rewrite bind_assoc in H.
  apply bind_inv in H as [(s1 & st1 & H1 & H)|(t & _ & ?)]; [|done].
  unfold bind at 1, ret at 1 in H.
  apply bind_inv in H as [(s2 & st2 & H2 & H)|(t & _ & ?)]; [|done].
  unfold setCurrentStrategy, bind, modify, ret in H. injection H as <- <-.
  pose proof (classes_perform (OpStrategyRequest k ty o) st1 k) as C.
  simpl in C. unfold discard in C. simpl in C. rewrite H2 in C. simpl in C.
  apply strategy_request_made in H2 as (T & Cl & S & Sys).
  unfold theSentinel, theStrategy in *. simpl. rewrite C. done.
Qed.

Lemma adopt_sentinel ty s st x :
  s_type (theSentinel (adopt ty s st).2 x) = s_type (theSentinel st x) /\
  s_class (theSentinel (adopt ty s st).2 x) = s_class (theSentinel st x) /\
  s_strategy (theSentinel (adopt ty s st).2 x) = s_strategy (theSentinel st x).
Proof.
  unfold adopt, setActiveSentinel, setupSentinelListeners, sentinel_addEventListener,
    updSentinel, updNative, emit, record, bind, gets, modify, ret; simpl.
  destruct (s_class (theSentinel _ s)) eqn:Hc; simpl;
    unfold theSentinel; simpl; repeat split; by apply sentinel_alter_field.
Qed.

(** What a request that resolves leaves behind. *)
Lemma request_made ty opts st s st' :
  activeUnreleased st = None ->
  WakeLock_request ty opts st = (Ok s, st') ->
  exists k,
    activeSentinel (wl st') = Some s /\
    currentStrategy (wl st') = Some k /\
    released st' s = false /\
    s_type (theSentinel st' s) = ty /\
    s_class (theSentinel st' s) = cls (theStrategy st' k) /\
    s_strategy (theSentinel st' s) = k /\
    (ty = system -> cls (theStrategy st' k) = TimerStrategy) /\
    k ∈ strategies (wl st').
Proof.
  intros Hact H.
  destruct (isSSR st) eqn:Hssr; [by rewrite request_ssr in H|].
  pose proof (request_keeps_list ty opts st) as (_ & Hlist). rewrite H in Hlist. simpl in Hlist.
  pose proof H as H0.
  apply request_outcome in H as [(t & st1 & ? & _)|(u & st0 & s' & st1 & Hs & Hp & Ht & Ha)];
    [done| |done..].
  injection Hs as <-.
  unfold tryStrategies, bind, gets in Ht.
  apply tryLoop_Ok in Ht as (k & st2 & Hin & Ht).
  pose proof (attempt_Ok _ _ _ _ _ _ Ht) as (s1 & _ & _ & _ & _ & Hr & Hcur & _).
  apply attempt_made in Ht as (T & Cl & S & Sy).
  destruct (adopt_facts ty s st1) as (st3 & Ha' & _ & _ & Hact' & Hcur' & Hobj & _ & Hrel & _).
  rewrite Ha' in Ha. injection Ha as <-.
  destruct (adopt_sentinel ty s st1 s) as (T' & Cl' & S'). rewrite Ha' in T', Cl', S'.
  simpl in T', Cl', S'.
  assert (Hk : k ∈ strategies (wl st3)).
  { rewrite Hlist. by destruct (preserves_eq _ _ _ _ _ (orch_prelude ty _) Hp) as (_ & <- & _). }
  exists k. unfold theStrategy in *. rewrite Hobj, Hcur', Hcur, Hrel, T', Cl', S'. done.
Qed.

(** X3. Of the four strategy classes of the library only the timer
    strategy serves the kind [system].  [request('system')] on a screen,
    video or audio strategy always rejects with NOT_SUPPORTED, without
    asking the platform and without making anything.  So, on an instance
    whose strategies are instances of these classes, whenever
    [request('system')], made without a lock held, resolves, the strategy in
    use is a timer strategy and the sentinel is one of its sentinels, of the
    kind [system]. *)
Theorem only_the_timer_strategy_serves_system st :
  (forall k o,
     cls (theStrategy st k) <> TimerStrategy ->
     exists w,
       strategy_request k system o st =
         (Throw (ThrownWakeLockError w),
          set_trace (trace st ++ [StrategyRequest k system]) st) /\
       err_code w = NOT_SUPPORTED) /\
  (forall opts s st',
     activeUnreleased st = None ->
     WakeLock_request system opts st = (Ok s, st') ->
     exists k,
       currentStrategy (wl st') = Some k /\
       cls (theStrategy st' k) = TimerStrategy /\
       s_class (theSentinel st' s) = TimerStrategy /\
       s_type (theSentinel st' s) = system /\
       status_strategy (getStatus st') = Some "timer").
Proof.
  split.
  - intros k o Hc.
    unfold strategy_request, record, bind, modify, gets, theStrategy in *. simpl.
    destruct (cls (strategyObjs st k)); [| | |done];
      unfold ScreenWakeLockStrategy_request, VideoElementStrategy_request,
        AudioContextStrategy_request, bind, gets, throw;
      match goal with |- context [strategy_isSupported ?s ?c] =>
        destruct (strategy_isSupported s c) end; simpl; eexists; split; reflexivity.
  - intros opts s st' Hact H.
    destruct (request_made system opts st s st' Hact H)
      as (k & _ & Hcur & _ & T & Cl & _ & Sy & _).
    exists k. rewrite Cl, Sy by done. repeat split; try done.
    unfold getStatus. simpl. rewrite Hcur. unfold strategyName. by rewrite Sy.
Qed.

Lemma only_the_timer_strategy_serves_system_witness :
  exists k,
    currentStrategy (wl (WakeLock_request system noOptions (WakeLock_new inBrowser)).2) = Some k /\
    cls (theStrategy (WakeLock_request system noOptions (WakeLock_new inBrowser)).2 k) =
      TimerStrategy /\
    s_class (theSentinel (WakeLock_request system noOptions (WakeLock_new inBrowser)).2 1%nat) =
      TimerStrategy /\
    s_type (theSentinel (WakeLock_request system noOptions (WakeLock_new inBrowser)).2 1%nat) =
      system /\
    status_strategy (getStatus (WakeLock_request system noOptions (WakeLock_new inBrowser)).2) =
      Some "timer".
Proof.
  apply (proj2 (only_the_timer_strategy_serves_system (WakeLock_new inBrowser))
           noOptions 1%nat).
  - vm_compute. reflexivity.
  - vm_compute. reflexivity.
Defined.

Lemma elem_mapSet_new key (s : ObjId) m : s ∈ (mapSet key s m).*2.
Proof.
  induction m as [|[k' v'] m IH]; simpl; [by left|].
  case_decide; simpl; [by left|by right].
Qed.

(** X4. What a rejected [request] of a strategy leaves behind.  The
    screen, video and audio strategies leave their collection and the
    sentinels as they were.  The timer strategy enters its sentinel in its
    collection before it sets the timer up: when the set-up fails, the
    request rejects with STRATEGY_FAILED and the new sentinel stays in the
    collection, unreleased. *)
Theorem rejected_request_leftovers k ty o st t st' :
  reachable st ->
  strategy_request k ty o st = (Throw t, st') ->
  match cls (theStrategy st k) with
  | TimerStrategy =>
      isSSR st = false ->
      (exists w, t = ThrownWakeLockError w /\ err_code w = STRATEGY_FAILED) /\
      sentinels st !! nextObj st = None /\
      nextObj st ∈ activeOf st' k /\
      released st' (nextObj st) = false
  | _ => activeOf st' k = activeOf st k /\ sentinels st' = sentinels st
  end.
Proof.
  intros Hr. destruct (reachable_store_ok st Hr) as (A & _).
  assert (Hnew : sentinels st !! nextObj st = None).
  { destruct (sentinels st !! nextObj st) as [x|] eqn:Hx; [|done].
    specialize (A (nextObj st) (mk_is_Some _ _ Hx)). lia. }
  unfold activeOf, released, theSentinel. run_request.
  destruct (cls (strategyObjs st k)) eqn:Hc; simpl;
    destruct (env_ssr (env st)); simpl;
    try (destruct (env_wakeLock (env st)); simpl);
    try (destruct (env_video (env st)); simpl);
    try (destruct (env_audio (env st)); simpl);
    destruct ty; simpl;
    repeat (match goal with |- context [env_acquire ?e ?tk ?c] =>
              destruct (env_acquire e tk c) as [[| |]|] end; simpl);
    try (intros Heq; discriminate);
    intros Heq; injection Heq as <- <-; simpl; rewrite ?Hc; simpl; try done.
  all: intros _; rewrite ?decide_True by done; simpl; rewrite ?Hc; simpl.
  all: rewrite ?lookup_insert_eq; simpl.
  all: repeat split; eauto using elem_mapSet_new.
Qed.

Lemma rejected_request_leftovers_witness :
  strategy_request 0%nat screen noOptions (WakeLock_new timerFailing) =
    (Throw (ThrownWakeLockError
              (mkWakeLockError "Timer strategy failed to start: no timers" STRATEGY_FAILED
                 (Some "timer"))),
     (strategy_request 0%nat screen noOptions (WakeLock_new timerFailing)).2) /\
  activeOf (strategy_request 0%nat screen noOptions (WakeLock_new timerFailing)).2 0%nat =
    [0%nat] /\
  released (strategy_request 0%nat screen noOptions (WakeLock_new timerFailing)).2 0%nat =
    false.
Proof.
  assert (Hr : reachable (WakeLock_new timerFailing)) by (by exists timerFailing, []).
  assert (E : strategy_request 0%nat screen noOptions (WakeLock_new timerFailing) =
              (Throw (ThrownWakeLockError
                        (mkWakeLockError "Timer strategy failed to start: no timers"
                           STRATEGY_FAILED (Some "timer"))),
               (strategy_request 0%nat screen noOptions (WakeLock_new timerFailing)).2))
    by (vm_compute; reflexivity).
  split; [exact E|]. split; [vm_compute; reflexivity|].
  pose proof (rejected_request_leftovers 0%nat screen noOptions _ _ _ Hr E) as H.
  change (cls (theStrategy (WakeLock_new timerFailing) 0%nat)) with TimerStrategy in H.
  cbv beta iota in H. apply H. reflexivity.
Defined.

(** ** The library's own timeout *)

Lemma includes_digits u rest :
  includes "timeout" (NilEmpty.string_of_uint u +:+ rest) = includes "timeout" rest.
Proof. induction u; simpl; try done. Qed.

Lemma timeout_message_has_no_timeout ms :
  includes "timeout" ("Operation timed out after " +:+ numberText ms +:+ "ms") = false.
Proof.
  unfold numberText, NilZero.string_of_uint.
  destruct (N.to_uint ms) eqn:E; simpl; try done;
    rewrite includes_digits; reflexivity.
Qed.

(** X5. The rejection that [withTimeout] raises when its timer wins
    ("Operation timed out after ...ms") or when the signal aborts
    ("Operation was aborted") is not reported as a timeout: the screen
    strategy rejects with the code UNKNOWN, the video and audio strategies
    with STRATEGY_FAILED, because the name of the error is [Error] and its
    message does not contain "timeout". *)
Theorem library_timeout_is_not_reported_as_TIMEOUT k o st ms e :
  (ms < 10 ^ 21)%N ->
  e = timeoutError ms \/ e = abortError ->
  cls (theStrategy st k) <> TimerStrategy ->
  strategy_isSupported st (cls (theStrategy st k)) = true ->
  env_acquire (env st) (tick st) (cls (theStrategy st k)) = Some e ->
  exists w st',
    strategy_request k screen o st = (Throw (ThrownWakeLockError w), st') /\
    err_code w =
      match cls (theStrategy st k) with
      | ScreenWakeLockStrategy => UNKNOWN
      | _ => STRATEGY_FAILED
      end /\
    err_code w <> TIMEOUT.
Proof.
  intros _ He Hc Hs Ha.
  assert (Hm : exists m, e = ThrownError "Error" m /\ includes "timeout" m = false).
  { destruct He as [-> | ->]; eexists; (split; [reflexivity|]);
      [apply timeout_message_has_no_timeout | reflexivity]. }
  destruct Hm as (m & -> & Hm). clear He.
  revert Hs Ha. run_request.
  destruct (cls (strategyObjs st k)) eqn:Hcls; [| | |done]; simpl;
    destruct (env_ssr (env st)); simpl; try done;
    intros Hs Ha; rewrite ?Hs; simpl; rewrite Ha; simpl.
  - eexists _, _. split; [reflexivity|]. simpl.
    unfold screenErrorCode. simpl. rewrite Hm. done.
  - eexists _, _. split; [reflexivity|]. unfold setupFailure. simpl. rewrite Hm. done.
  - eexists _, _. split; [reflexivity|]. unfold setupFailure. simpl. rewrite Hm. done.
Qed.

Lemma library_timeout_is_not_reported_as_TIMEOUT_witness :
  exists w st',
    strategy_request 0%nat screen noOptions (WakeLock_new timingOut) =
      (Throw (ThrownWakeLockError w), st') /\
    err_code w = UNKNOWN /\
    err_code w <> TIMEOUT.
Proof.
  apply (library_timeout_is_not_reported_as_TIMEOUT 0%nat noOptions (WakeLock_new timingOut)
           10000 (timeoutError 10000)).
  - reflexivity.
  - left. reflexivity.
  - discriminate.
  - reflexivity.
  - reflexivity.
Defined.

(** ** The permission cache *)

Lemma checkSpecificPermission_result name st :
  exists r st',
    checkSpecificPermission name st = (Ok r, st') /\
    clock st' = clock st /\ env st' = env st /\
    permissionManager st' = permissionManager st.
Proof.
  destruct (isPermissionsSupported st) eqn:Hsup.
  - rewrite checkSpecificPermission_supported by done.
    eexists _, _. split; [reflexivity|done].
  - unfold checkSpecificPermission, bind, gets. rewrite Hsup. simpl.
    eexists _, _. split; [reflexivity|done].
Qed.

Lemma setCachedPermission_caches key v st :
  setCachedPermission key v st =
    (Ok tt, set_permissionManager (pmgr_set key v (clock st) (permissionManager st)) st).
Proof. reflexivity. Qed.

Lemma queryPermission_caches ty p st v st1 :
  queryPermission ty p st = (Ok (Some v), st1) ->
  clock st1 = clock st /\ env st1 = env st /\
  permissionCache (permissionManager st1) !! cacheKey ty = Some v /\
  cacheTimestamps (permissionManager st1) !! cacheKey ty = Some (clock st).
Proof.
  unfold queryPermission, tryCatch. unfold bind at 1.
  destruct (checkSpecificPermission_result "wake-lock" st) as (r & sa & E & Ec & Ee & Ep).
  rewrite E.
  assert (Hset : forall s x,
            clock s = clock st -> env s = env st ->
            (bind (setCachedPermission (cacheKey ty) x) (fun _ => ret (Some x))) s
              = (Ok (Some v), st1) ->
            clock st1 = clock st /\ env st1 = env st /\
            permissionCache (permissionManager st1) !! cacheKey ty = Some v /\
            cacheTimestamps (permissionManager st1) !! cacheKey ty = Some (clock st)).
  { intros s x Hcs Hes. unfold bind, ret. rewrite setCachedPermission_caches.
    intros Heq. inversion Heq; subst. simpl. rewrite !lookup_insert_eq, Hcs. done. }
  destruct r as [x|].
  - destruct (bind _ _ sa) as [[o|t] sb] eqn:Hb.
    + intros Heq. inversion Heq; subst. by apply (Hset sa x).
    + destruct p; intros Heq; inversion Heq.
  - assert (E2 : exists r2 sb,
               match ty with
               | screen => checkSpecificPermission "screen-wake-lock"
               | system => ret None
               end sa = (Ok r2, sb) /\
               clock sb = clock st /\ env sb = env st).
    { destruct ty.
      - destruct (checkSpecificPermission_result "screen-wake-lock" sa)
          as (r2 & sb & E2 & Ec2 & Ee2 & _).
        exists r2, sb. split; [done|]. split; congruence.
      - exists None, sa. done. }
    destruct E2 as (r2 & sb & E2 & Ec2 & Ee2).
    unfold bind at 1. rewrite E2.
    destruct r2 as [x|].
    + destruct (bind _ _ sb) as [[o|t] sc] eqn:Hb.
      * intros Heq. inversion Heq; subst. by apply (Hset sb x).
      * destruct p; intros Heq; inversion Heq.
    + destruct p.
      * destruct (bind _ _ sb) as [[o|t] sc] eqn:Hb.
        -- intros Heq. inversion Heq; subst. by apply (Hset sb granted).
        -- intros Heq; inversion Heq.
      * unfold ret. intros Heq; inversion Heq.
Qed.

Global Instance same_time_refl : Reflexive same_time.
Proof. by intros st. Qed.

Global Instance same_time_trans : Transitive same_time.
Proof. intros a b c (C1 & E1) (C2 & E2). split; congruence. Qed.

Ltac time_prim := unfold same_time; simpl; repeat case_match; done.

Create HintDb time discriminated.

Lemma time_step : preserves same_time step.
Proof. by intros st. Qed.
Lemma time_generateUniqueId : preserves same_time generateUniqueId.
Proof. by intros st. Qed.
Lemma time_newSentinel s : preserves same_time (newSentinel s).
Proof. by intros st. Qed.
Lemma time_newNative s : preserves same_time (newNative s).
Proof. by intros st. Qed.
#[export] Hint Resolve time_step time_generateUniqueId time_newSentinel time_newNative : time.

Ltac time_tac :=
  unfold_model; preserves_with ltac:(time_prim); try solve [auto with time].

Lemma time_checkWakeLockPermission ty p : preserves same_time (checkWakeLockPermission ty p).
Proof. time_tac. Qed.

Lemma time_acquire c : preserves same_time (acquire c).
Proof. time_tac. Qed.

Lemma time_native_release n : preserves same_time (native_release n).
Proof. time_tac. Qed.

(** A check that resolved with a state left that state in the cache,
    under a timestamp that is not older than 5 minutes. *)
Lemma check_caches ty p st v st1 :
  isSSR st = false ->
  clock st <> 0 ->
  checkWakeLockPermission ty p st = (Ok (Some v), st1) ->
  same_time st st1 /\
  permissionCache (permissionManager st1) !! cacheKey ty = Some v /\
  exists t, cacheTimestamps (permissionManager st1) !! cacheKey ty = Some t /\
            t <> 0 /\ clock st1 - t <= cacheExpiryTime.
Proof.
  intros Hssr Hclock H.
  split; [apply (preserves_eq _ _ _ _ _ (time_checkWakeLockPermission ty p) H)|].
  revert H. unfold checkWakeLockPermission. unfold bind at 1, gets at 1.
  rewrite Hssr. unfold bind.
  destruct (getCachedPermission (cacheKey ty) st) as [[[c|]|t] st0] eqn:Hc; [| |done].
  - intros Heq. inversion Heq; subst.
    pose proof Hc as Hc'. apply getCachedPermission_hit in Hc' as (-> & Hv & t & Ht & Hage).
    split; [done|]. exists t. split; [done|]. split; [|done].
    intros ->. revert Hc. unfold getCachedPermission, bind, gets. by rewrite Ht.
  - intros Hq.
    assert (E0 : clock st0 = clock st).
    { revert Hc. unfold getCachedPermission, bind, gets, modify, ret. simpl.
      destruct (expired _ _); simpl; [intros Heq; by inversion Heq|].
      destruct (permissionCache _ !! _); intros Heq; by inversion Heq. }
    apply queryPermission_caches in Hq as (Ec & Ee & Hv & Ht).
    split; [done|]. exists (clock st0). split; [done|]. split; [lia|].
    unfold cacheExpiryTime. lia.
Qed.

Lemma cache_hit ty p st v t :
  isSSR st = false ->
  permissionCache (permissionManager st) !! cacheKey ty = Some v ->
  cacheTimestamps (permissionManager st) !! cacheKey ty = Some t ->
  t <> 0 -> clock st - t <= cacheExpiryTime ->
  checkWakeLockPermission ty p st = (Ok (Some v), st).
Proof.
  intros Hssr Hv Ht Hz Hage. unfold checkWakeLockPermission, bind, gets. rewrite Hssr.
  by rewrite (getCachedPermission_fresh _ _ v t).
Qed.

(** X6. What [checkWakeLockPermission] answered it answers again: after a
    check that resolved with a permission state, a further check at the
    same time, in passive mode or not, resolves with the same state from
    the cache, without asking the platform and without changing anything
    (the time being other than 0, which the cache reads as a missing
    timestamp). *)
Theorem repeated_permission_check_hits_the_cache ty p p' st v st1 :
  isSSR st = false ->
  clock st <> 0 ->
  checkWakeLockPermission ty p st = (Ok (Some v), st1) ->
  checkWakeLockPermission ty p' st1 = (Ok (Some v), st1).
Proof.
  intros Hssr Hclock H.
  destruct (check_caches ty p st v st1 Hssr Hclock H) as ((Ec & Ee) & Hv & t & Ht & Hz & Hage).
  apply (cache_hit ty p' st1 v t); try done.
  unfold isSSR. by rewrite Ee.
Qed.

Lemma repeated_permission_check_hits_the_cache_witness :
  checkWakeLockPermission screen true grantedCached = (Ok (Some granted), grantedCached).
Proof.
  apply (repeated_permission_check_hits_the_cache screen false true (WakeLock_new timerOnly)).
  - reflexivity.
  - discriminate.
  - vm_compute. reflexivity.
Defined.

(** X7. [clearPermissionCache] empties the cache: no key has a cached
    state afterwards, and the next [checkWakeLockPermission] asks the
    platform again (where the Permissions API exists), whatever was cached
    before. *)
Theorem cleared_cache_is_queried_again ty p st :
  isSSR st = false ->
  isPermissionsSupported st = true ->
  let st1 := (clearPermissionCache st).2 in
  (forall key, exists st2, getCachedPermission key st1 = (Ok None, st2)) /\
  exists rest,
    trace (checkWakeLockPermission ty p st1).2 =
    trace st ++ PermissionQuery "wake-lock" :: rest.
Proof.
  intros Hssr Hsup st1. split.
  - intros key. unfold getCachedPermission, bind, gets, modify, ret. simpl.
    rewrite lookup_empty. simpl. eauto.
  - assert (E : getCachedPermission (cacheKey ty) st1 =
                (Ok None, set_permissionManager
                            (pmgr_delete (cacheKey ty) (permissionManager st1)) st1)).
    { unfold getCachedPermission, bind, gets, modify, ret. simpl.
      by rewrite lookup_empty. }
    unfold checkWakeLockPermission, bind, gets.
    change (isSSR st1) with (isSSR st). rewrite Hssr, E.
    apply (queryPermission_queries ty p
             (set_permissionManager (pmgr_delete (cacheKey ty) (permissionManager st1)) st1)).
    exact Hsup.
Qed.

Lemma cleared_cache_is_queried_again_witness :
  exists rest,
    trace (checkWakeLockPermission screen false (clearPermissionCache grantedCached).2).2 =
    trace grantedCached ++ PermissionQuery "wake-lock" :: rest.
Proof.
  apply (cleared_cache_is_queried_again screen false grantedCached); reflexivity.
Defined.

(** ** Asking for the permission *)

Lemma setCached_then_hit ty p v st :
  isSSR st = false -> clock st <> 0 ->
  checkWakeLockPermission ty p (setCachedPermission (cacheKey ty) v st).2 =
    (Ok (Some v), (setCachedPermission (cacheKey ty) v st).2).
Proof.
  intros Hssr Hclock. apply (cache_hit ty p _ v (clock st)); simpl;
    rewrite ?lookup_insert_eq; try done.
  unfold cacheExpiryTime. lia.
Qed.

(** X8. [requestWakeLockPermission] resolves with [granted] or [denied],
    never with [prompt], and what it resolved with is what
    [checkWakeLockPermission] answers from the cache right afterwards. *)
Theorem requested_permission_is_cached ty st v st' :
  clock st <> 0 ->
  requestWakeLockPermission ty st = (Ok v, st') ->
  (v = granted \/ v = denied) /\
  forall passive, checkWakeLockPermission ty passive st' = (Ok (Some v), st').
Proof.
  intros Hclock. unfold requestWakeLockPermission. unfold bind at 1, gets at 1.
  destruct (isSSR st) eqn:Hssr; [done|].
  unfold bind at 1.
  destruct (checkWakeLockPermission ty true st) as [[o|t] s1] eqn:Hcheck; [|done].
  pose proof (preserves_eq _ _ _ _ _ (time_checkWakeLockPermission ty true) Hcheck) as (C1 & E1).
  assert (Hagain : o = Some granted ->
            forall passive, checkWakeLockPermission ty passive s1 = (Ok (Some granted), s1)).
  { intros -> passive.
    destruct (check_caches ty true st granted s1 Hssr Hclock Hcheck) as (_ & Hv & t & Ht & Hz & Hage).
    apply (cache_hit ty passive s1 granted t); try done. unfold isSSR. by rewrite E1. }
  assert (Hrest :
    (let* answer :=
       tryCatch
         (let* present :=
            gets (fun st => env_wakeLock (env st) || env_wakeLockStub (env st)) in
          if present then
            let* callable := gets (fun st => env_wakeLock (env st)) in
            (if callable then acquire ScreenWakeLockStrategy
             else throw requestNotCallable) ;;
            let* wakeLock := newNative (mkNative ty false []) in
            native_release wakeLock ;;
            setCachedPermission (cacheKey ty) granted ;;
            ret (Some granted)
          else ret None)
         (fun e =>
            match e with
            | ThrownValue => ret None
            | _ =>
                let name := match e with ThrownError n _ => n | _ => "WakeLockError" end in
                if String.eqb name "NotAllowedError" then
                  setCachedPermission (cacheKey ty) denied ;;
                  ret (Some denied)
                else
                  throw (permissionError
                           ("Failed to request " +:+ typeName ty +:+
                            " wake lock permission: " +:+ messageOr "" e)
                           PERMISSION_DENIED)
            end) in
     match answer with
     | Some p => ret p
     | None =>
         throw (permissionError ("Wake lock not supported for type: " +:+ typeName ty)
                  NOT_SUPPORTED)
     end) s1 = (Ok v, st') ->
    (v = granted \/ v = denied) /\
    forall passive, checkWakeLockPermission ty passive st' = (Ok (Some v), st')).
  { clear Hagain Hcheck. unfold bind at 1, tryCatch.
    assert (Hs : forall s, same_time s1 s -> isSSR s = false /\ clock s <> 0).
    { intros s (Cs & Es). unfold isSSR in *. rewrite Es, E1, Cs, C1. done. }
    assert (Hset : forall s x r s',
              same_time s1 s ->
              (setCachedPermission (cacheKey ty) x ;; ret (Some x)) s = (r, s') ->
              r = Ok (Some x) /\
              forall passive, checkWakeLockPermission ty passive s' = (Ok (Some x), s')).
    { intros s x r s' Hss. unfold bind, ret. rewrite setCachedPermission_caches.
      intros Heq. inversion Heq; subst. split; [done|]. intros passive.
      destruct (Hs s Hss). by apply setCached_then_hit. }
    unfold bind at 1, gets at 1.
    destruct (env_wakeLock (env s1)) eqn:Hapi; simpl;
      [|destruct (env_wakeLockStub (env s1)); simpl;
        unfold bind, gets, ret, throw, requestNotCallable; rewrite ?Hapi; cbn; done].
    unfold bind at 1. unfold bind at 1, gets at 1. rewrite Hapi.
    pose proof (time_acquire ScreenWakeLockStrategy s1) as T1.
    destruct (acquire ScreenWakeLockStrategy s1) as [[[]|e] s2]; simpl in T1.
    - unfold bind at 1. unfold newNative at 1.
      set (s3 := set_nextObj _ _).
      assert (T3 : same_time s1 s3) by (etrans; [exact T1|done]).
      unfold bind at 1.
      pose proof (time_native_release (nextObj s2) s3) as T4.
      destruct (native_release (nextObj s2) s3) as [[[]|e] s4]; simpl in T4.
      + destruct (bind _ _ s4) as [r s5] eqn:Hb.
        apply (Hset s4 granted) in Hb as (-> & Hb); [|by etrans].
        unfold ret. intros Heq. inversion Heq; subst. split; [by left|done].
      + assert (T5 : same_time s1 s4) by (by etrans).
        destruct e as [w|n m|]; [| |unfold ret, throw; done].
        * simpl. unfold throw. done.
        * destruct (String.eqb n "NotAllowedError"); [|unfold throw; done].
          destruct (bind _ _ s4) as [r s5] eqn:Hb.
          apply (Hset s4 denied) in Hb as (-> & Hb); [|done].
          unfold ret. intros Heq. inversion Heq; subst. split; [by right|done].
    - destruct e as [w|n m|]; [| |unfold ret, throw; done].
      + simpl. unfold throw. done.
      + destruct (String.eqb n "NotAllowedError"); [|unfold throw; done].
        destruct (bind _ _ s2) as [r s5] eqn:Hb.
        apply (Hset s2 denied) in Hb as (-> & Hb); [|done].
        unfold ret. intros Heq. inversion Heq; subst. split; [by right|done]. }
  destruct o as [[| |]|]; [|exact Hrest..].
  unfold ret. intros Heq. inversion Heq; subst. split; [by left|]. by apply Hagain.
Qed.

Lemma requested_permission_is_cached_witness :
  requestWakeLockPermission screen (WakeLock_new onPhone) =
    (Ok granted, (requestWakeLockPermission screen (WakeLock_new onPhone)).2) /\
  forall passive,
    checkWakeLockPermission screen passive
      (requestWakeLockPermission screen (WakeLock_new onPhone)).2 =
    (Ok (Some granted), (requestWakeLockPermission screen (WakeLock_new onPhone)).2).
Proof.
  assert (E : requestWakeLockPermission screen (WakeLock_new onPhone) =
              (Ok granted, (requestWakeLockPermission screen (WakeLock_new onPhone)).2))
    by (vm_compute; reflexivity).
  split; [exact E|].
  apply (requested_permission_is_cached screen (WakeLock_new onPhone) granted _).
  - discriminate.
  - exact E.
Defined.

(** Where [navigator.wakeLock] is there without a [request] function and
    the permission is not known to be granted, the attempt is made, the
    call throws, and [requestWakeLockPermission] rejects with
    PERMISSION_DENIED; where there is no [navigator.wakeLock], with
    NOT_SUPPORTED. *)
Lemma requestWakeLockPermission_without_request ty st o s1 :
  isSSR st = false ->
  checkWakeLockPermission ty true st = (Ok o, s1) -> o <> Some granted ->
  env_wakeLock (env st) = false ->
  exists w,
    requestWakeLockPermission ty st = (Throw (ThrownWakeLockError w), s1) /\
    err_code w =
      if env_wakeLockStub (env st) then PERMISSION_DENIED else NOT_SUPPORTED.
Proof.
  intros Hssr Hcheck Hng Hapi.
  pose proof (preserves_eq _ _ _ _ _ (time_checkWakeLockPermission ty true) Hcheck) as (_ & E1).
  unfold requestWakeLockPermission. unfold bind at 1, gets at 1. rewrite Hssr.
  unfold bind at 1. rewrite Hcheck.
  assert (Hrest : exists w,
    (let* answer :=
       tryCatch
         (let* present :=
            gets (fun st => env_wakeLock (env st) || env_wakeLockStub (env st)) in
          if present then
            let* callable := gets (fun st => env_wakeLock (env st)) in
            (if callable then acquire ScreenWakeLockStrategy
             else throw requestNotCallable) ;;
            let* wakeLock := newNative (mkNative ty false []) in
            native_release wakeLock ;;
            setCachedPermission (cacheKey ty) granted ;;
            ret (Some granted)
          else ret None)
         (fun e =>
            match e with
            | ThrownValue => ret None
            | _ =>
                let name := match e with ThrownError n _ => n | _ => "WakeLockError" end in
                if String.eqb name "NotAllowedError" then
                  setCachedPermission (cacheKey ty) denied ;;
                  ret (Some denied)
                else
                  throw (permissionError
                           ("Failed to request " +:+ typeName ty +:+
                            " wake lock permission: " +:+ messageOr "" e)
                           PERMISSION_DENIED)
            end) in
     match answer with
     | Some p => ret p
     | None =>
         throw (permissionError ("Wake lock not supported for type: " +:+ typeName ty)
                  NOT_SUPPORTED)
     end) s1 = (Throw (ThrownWakeLockError w), s1) /\
    err_code w = if env_wakeLockStub (env st) then PERMISSION_DENIED else NOT_SUPPORTED).
  { unfold tryCatch, bind, gets, ret, throw, requestNotCallable. cbn beta.
    rewrite !E1, Hapi. simpl.
    destruct (env_wakeLockStub (env st)); simpl; rewrite ?E1, ?Hapi; simpl;
      eexists; split; reflexivity. }
  destruct o as [[| |]|]; [done|exact Hrest..].
Qed.

Lemma getCachedPermission_missing key st :
  cacheTimestamps (permissionManager st) !! key = None ->
  getCachedPermission key st =
    (Ok None, set_permissionManager (pmgr_delete key (permissionManager st)) st).
Proof. intros H. unfold getCachedPermission, bind, gets. by rewrite H. Qed.

Lemma checkSpecificPermission_unsupported name st :
  isPermissionsSupported st = false -> checkSpecificPermission name st = (Ok None, st).
Proof. intros H. unfold checkSpecificPermission, bind, gets. by rewrite H. Qed.

Lemma queryPermission_unsupported ty st :
  isPermissionsSupported st = false ->
  queryPermission ty true st =
    (Ok (Some granted), (setCachedPermission (cacheKey ty) granted st).2).
Proof.
  intros H. unfold queryPermission, tryCatch. unfold bind at 1.
  rewrite checkSpecificPermission_unsupported by done.
  destruct ty.
  - unfold bind at 1. rewrite checkSpecificPermission_unsupported by done. reflexivity.
  - reflexivity.
Qed.

(** X9. Where the permission state cannot be determined (no Permissions
    API, nothing cached), [requestWakeLockPermission] resolves with
    [granted] without asking the platform for a lock: the passive check it
    starts with takes the undetermined state as [granted]. *)
Theorem undetermined_permission_is_granted_unasked ty st :
  isSSR st = false ->
  isPermissionsSupported st = false ->
  cacheTimestamps (permissionManager st) !! cacheKey ty = None ->
  exists st',
    requestWakeLockPermission ty st = (Ok granted, st') /\
    tick st' = tick st /\ natives st' = natives st /\ trace st' = trace st.
Proof.
  intros Hssr Hsup Hts.
  assert (E : checkWakeLockPermission ty true st =
              (Ok (Some granted),
               (setCachedPermission (cacheKey ty) granted
                  (set_permissionManager
                     (pmgr_delete (cacheKey ty) (permissionManager st)) st)).2)).
  { unfold checkWakeLockPermission. unfold bind at 1, gets at 1. rewrite Hssr.
    unfold bind. rewrite getCachedPermission_missing by done.
    by apply queryPermission_unsupported. }
  unfold requestWakeLockPermission. unfold bind at 1, gets at 1. rewrite Hssr.
  unfold bind at 1. rewrite E.
  eexists. split; [reflexivity|done].
Qed.

Lemma undetermined_permission_is_granted_unasked_witness :
  exists st',
    requestWakeLockPermission system unknownPermission = (Ok granted, st') /\
    tick st' = tick unknownPermission /\ natives st' = natives unknownPermission /\
    trace st' = trace unknownPermission.
Proof.
  apply (undetermined_permission_is_granted_unasked system unknownPermission); reflexivity.
Defined.

(** * The event emitter *)

Section Emitter.
Import EventEmitter.
Context {Ev : Type}.

Lemma get_set_eq type v m : get type (set type v m) = Some v.
Proof.
  induction m as [|[k v'] m IH]; simpl.
  - by rewrite String.eqb_refl.
  - destruct (String.eqb k type) eqn:E; simpl; by rewrite E.
Qed.

Lemma get_set_ne type type' v m : type' <> type -> get type' (set type v m) = get type' m.
Proof.
  intros Hne. induction m as [|[k v'] m IH]; simpl.
  - destruct (String.eqb_spec type type'); [congruence|done].
  - destruct (String.eqb_spec k type) as [->|]; simpl.
    + destruct (String.eqb_spec type type'); [congruence|done].
    + by rewrite IH.
Qed.

Lemma get_update_eq type f m : get type (update type f m) = f <$> get type m.
Proof.
  induction m as [|[k v'] m IH]; simpl; [done|].
  destruct (String.eqb k type) eqn:E; simpl; by rewrite E.
Qed.

Lemma get_update_ne type type' f m :
  type' <> type -> get type' (update type f m) = get type' m.
Proof.
  intros Hne. induction m as [|[k v'] m IH]; simpl; [done|].
  destruct (String.eqb_spec k type) as [->|]; simpl.
  - destruct (String.eqb_spec type type'); [congruence|done].
  - by rewrite IH.
Qed.

Lemma get_delete_eq type m : get type (delete type m) = None.
Proof.
  induction m as [|[k v'] m IH]; simpl; [done|].
  destruct (String.eqb k type) eqn:E; simpl; [done|]. by rewrite E.
Qed.

Lemma get_delete_ne type type' m : type' <> type -> get type' (delete type m) = get type' m.
Proof.
  intros Hne. induction m as [|[k v'] m IH]; simpl; [done|].
  destruct (String.eqb_spec k type) as [->|]; simpl.
  - destruct (String.eqb_spec type type'); [congruence|done].
  - by rewrite IH.
Qed.

Lemma keys_update type f m : keys (update type f m) = keys m.
Proof.
  unfold keys. induction m as [|[k v'] m IH]; simpl; [done|].
  destruct (String.eqb k type); simpl; [done|]. f_equal. apply IH.
Qed.

Lemma elem_keys_delete type name m :
  name ∈ keys (delete type m) <-> name <> type /\ name ∈ keys m.
Proof.
  unfold keys. induction m as [|[k v'] m IH]; simpl.
  - split; [by intros ?%elem_of_nil | by intros [_ ?%elem_of_nil]].
  - destruct (String.eqb_spec k type) as [->|Hk]; simpl.
    + rewrite IH, elem_of_cons. tauto.
    + rewrite !elem_of_cons, IH. intuition congruence.
Qed.

Lemma callAll_calls (ls : list Listener) (event : Ev) calls :
  callAll ls event calls = calls ++ map (fun l => (l, event)) ls.
Proof.
  revert calls. induction ls as [|l ls IH]; intros calls; simpl.
  - by rewrite app_nil_r.
  - rewrite IH, <- app_assoc. done.
Qed.

(** The calls that a dispatch makes, and the emitter it leaves. *)
Lemma dispatchEvent_calls type (event : Ev) e :
  (dispatchEvent type event e).2 =
    map (fun l => (l, event))
      (registered type (listeners e) ++ registered type (onceListeners e)).
Proof.
  unfold dispatchEvent, registered.
  destruct (get type (listeners e)) as [r|], (get type (onceListeners e)) as [o|]; simpl;
    rewrite ?callAll_calls, ?map_app, ?app_nil_r; done.
Qed.

Lemma dispatchEvent_after type (event : Ev) e :
  listeners (dispatchEvent type event e).1.2 = listeners e /\
  registered type (onceListeners (dispatchEvent type event e).1.2) = [] /\
  forall type', type' <> type ->
    registered type' (onceListeners (dispatchEvent type event e).1.2) =
    registered type' (onceListeners e).
Proof.
  unfold dispatchEvent, registered.
  destruct (get type (onceListeners e)) as [o|] eqn:E; simpl.
  - rewrite get_delete_eq. split; [done|]. split; [done|].
    intros type' Hne. by rewrite get_delete_ne.
  - by rewrite E.
Qed.

Lemma called_map (ls : list Listener) (event : Ev) :
  called (map (fun l => (l, event)) ls) = ls.
Proof. unfold called. induction ls; simpl; [done|]. by f_equal. Qed.

Lemma elem_names_fold (name : string) l acc :
  name ∈ fold_left (fun names n => setAdd n names) l acc <-> name ∈ acc \/ name ∈ l.
Proof.
  revert acc. induction l as [|x l IH]; intros acc; simpl.
  - split; [by left | by intros [?|?%elem_of_nil]].
  - rewrite IH, elem_of_cons. unfold setAdd. case_bool_decide.
    + intuition (subst; auto).
    + rewrite elem_of_app, list_elem_of_singleton. tauto.
Qed.

Lemma nodup_names_fold (l acc : list string) :
  NoDup acc -> NoDup (fold_left (fun names n => setAdd n names) l acc).
Proof.
  revert acc. induction l as [|x l IH]; intros acc H; simpl; [done|].
  apply IH. unfold setAdd. case_bool_decide; [done|].
  apply NoDup_app. split; [done|]. split.
  - intros y Hy ->%list_elem_of_singleton. done.
  - apply NoDup_singleton.
Qed.

Lemma elem_eventNames name e :
  name ∈ eventNames e <-> name ∈ keys (listeners e) \/ name ∈ keys (onceListeners e).
Proof.
  unfold eventNames. rewrite elem_names_fold, elem_of_app.
  split; [intros [?%elem_of_nil|?]; done | by right].
Qed.

Lemma setDelete_filter (l : Listener) ls : setDelete l ls = filter (fun x => x <> l) ls.
Proof.
  induction ls as [|y ls IH]; simpl; [done|].
  destruct (decide (y = l)) as [->|Hne].
  - rewrite filter_cons_False by (intros H; by apply H). done.
  - rewrite filter_cons_True by done. by rewrite IH.
Qed.

Lemma registered_add type type' l m :
  registered type'
    (update type (setAdd l) (if has type m then m else set type [] m)) =
  if decide (type' = type) then setAdd l (registered type m) else registered type' m.
Proof.
  unfold registered, has. destruct (decide (type' = type)) as [->|Hne].
  - rewrite get_update_eq. destruct (get type m) as [v|] eqn:E; simpl.
    + by rewrite E.
    + by rewrite get_set_eq.
  - rewrite get_update_ne by done.
    destruct (get type m) as [v|] eqn:E; [done|]. by rewrite get_set_ne.
Qed.

(** X10. [dispatchEvent] calls every listener registered for the type with
    the event, the regular ones first and then the once-only ones, each in
    the order of registration; a listener that throws does not keep the
    later ones from being called.  The number of calls is what
    [listenerCount] answered, and the result is [true], also when nobody
    listens. *)
Theorem dispatch_calls_every_listener type (event : Ev) e :
  let '(result, _, calls) := dispatchEvent type event e in
  result = true /\
  calls = map (fun l => (l, event))
            (registered type (listeners e) ++ registered type (onceListeners e)) /\
  length calls = listenerCount type e /\
  (listenerCount type e = 0%nat -> calls = []).
Proof.
  pose proof (dispatchEvent_calls type event e) as Hc.
  destruct (dispatchEvent type event e) as [[result e'] calls] eqn:E. simpl in Hc.
  split.
  { unfold dispatchEvent in E. destruct (get type (onceListeners e)); by inversion E. }
  split; [done|].
  assert (Hlen : length calls = listenerCount type e).
  { rewrite Hc, length_map, length_app. unfold listenerCount, size, registered.
    by destruct (get type (listeners e)), (get type (onceListeners e)). }
  split; [done|]. intros H0. rewrite H0 in Hlen. by destruct calls.
Qed.

(** X11. A listener registered with [once] is called by the next dispatch
    of its type and by no later one: the dispatch forgets all once-only
    listeners of the type, so that the second dispatch calls the regular
    listeners only, while the once-only listeners of other types stay. *)
Theorem once_listener_is_called_once type (event event' : Ev) l e :
  l ∉ registered type (listeners e) ->
  let e1 := once type l e in
  let e2 := (emit type event e1).1.2 in
  (l, event) ∈ (emit type event e1).2 /\
  (l ∉ called ((emit type event' e2).2)) /\
  (emit type event' e2).2 = map (fun x => (x, event')) (registered type (listeners e)) /\
  listenerCount type e2 = size type (listeners e) /\
  (forall type', type' <> type ->
     registered type' (onceListeners e2) = registered type' (onceListeners e)).
Proof.
  intros Hl e1 e2. unfold emit in *.
  destruct (dispatchEvent_after type event e1) as (Hr & Ho & Hother). fold e2 in Hr, Ho, Hother.
  assert (Hr1 : listeners e1 = listeners e) by done.
  assert (H2 : (dispatchEvent type event' e2).2 =
               map (fun x => (x, event')) (registered type (listeners e))).
  { rewrite dispatchEvent_calls, Ho, Hr, Hr1, app_nil_r. done. }
  split.
  { rewrite dispatchEvent_calls. apply list_elem_of_fmap. exists l. split; [done|].
    apply elem_of_app. right. unfold e1, once, addEventListener. simpl.
    rewrite registered_add. rewrite decide_True by done.
    unfold setAdd. case_bool_decide; [done|]. apply elem_of_app. right. by left. }
  split.
  { rewrite H2, called_map. done. }
  split; [done|]. split.
  { unfold listenerCount. rewrite Hr, Hr1.
    unfold size at 2. unfold registered in Ho.
    destruct (get type (onceListeners e2)) as [o|]; simpl in *; [subst o; simpl|]; lia. }
  intros type' Hne. rewrite Hother by done.
  unfold e1, once, addEventListener. simpl. rewrite registered_add.
  by rewrite decide_False.
Qed.

(** X12. [off] takes the listener out of the regular and out of the
    once-only listeners of the type: a dispatch afterwards makes the calls
    it would have made before, in the same order, but those of that
    listener; dispatches of other types are not affected.  The type itself
    stays among [eventNames()], also when no listener is left for it. *)
Theorem off_cancels_regular_and_once type l e (event : Ev) :
  let e' := off type l e in
  (dispatchEvent type event e').2 =
    filter (fun c => c.1 <> l) (dispatchEvent type event e).2 /\
  (l ∉ called ((dispatchEvent type event e').2)) /\
  (forall type', type' <> type ->
     (dispatchEvent type' event e').2 = (dispatchEvent type' event e).2) /\
  eventNames e' = eventNames e.
Proof.
  intros e'.
  assert (Hreg : forall m, registered type (update type (setDelete l) m) =
                           filter (fun x => x <> l) (registered type m)).
  { intros m. unfold registered. rewrite get_update_eq.
    destruct (get type m); simpl; [apply setDelete_filter|done]. }
  assert (H1 : (dispatchEvent type event e').2 =
               filter (fun c => c.1 <> l) (dispatchEvent type event e).2).
  { rewrite !dispatchEvent_calls. unfold e', off, removeEventListener. simpl.
    rewrite !Hreg, <- filter_app.
    generalize (registered type (listeners e) ++ registered type (onceListeners e)).
    intros ls. induction ls as [|x ls IH]; simpl; [done|].
    destruct (decide (x = l)) as [->|Hne].
    - rewrite !filter_cons_False by (simpl; intros H; by apply H). apply IH.
    - rewrite !filter_cons_True by done. simpl. by rewrite IH. }
  split; [done|]. split.
  { rewrite H1. unfold called. intros ((l' & ev) & -> & Hin)%list_elem_of_fmap.
    apply list_elem_of_filter in Hin as [Hne _]. by apply Hne. }
  split.
  { intros type' Hne. rewrite !dispatchEvent_calls. unfold e', off, removeEventListener.
    simpl. unfold registered. by rewrite !get_update_ne. }
  unfold eventNames, e', off, removeEventListener. simpl. by rewrite !keys_update.
Qed.

(** X13. [removeAllListeners(type)] leaves the type without listeners and
    out of [eventNames()], and does not touch the other types;
    [removeAllListeners()] does so for every type.  [eventNames()] lists
    exactly the types that have an entry among the regular or the once-only
    listeners, each once. *)
Theorem removeAllListeners_forgets type (event : Ev) e :
  let e1 := removeAllListeners (Some type) e in
  let e0 := removeAllListeners None e in
  (listenerCount type e1 = 0%nat /\ hasListeners type e1 = false /\
   (dispatchEvent type event e1).2 = [] /\ type ∉ eventNames e1) /\
  (forall type', type' <> type ->
     listenerCount type' e1 = listenerCount type' e /\
     (dispatchEvent type' event e1).2 = (dispatchEvent type' event e).2 /\
     (type' ∈ eventNames e1 <-> type' ∈ eventNames e)) /\
  (eventNames e0 = [] /\ forall type', listenerCount type' e0 = 0%nat) /\
  NoDup (eventNames e) /\
  (forall name, name ∈ eventNames e <->
     has name (listeners e) = true \/ has name (onceListeners e) = true).
Proof.
  intros e1 e0.
  assert (Hc : listenerCount type e1 = 0%nat).
  { unfold listenerCount, size, e1. simpl. by rewrite !get_delete_eq. }
  split.
  { split; [done|]. split; [unfold hasListeners; by rewrite Hc|]. split.
    - rewrite dispatchEvent_calls. unfold registered, e1. simpl. by rewrite !get_delete_eq.
    - rewrite elem_eventNames. unfold e1. simpl. rewrite !elem_keys_delete. tauto. }
  split.
  { intros type' Hne. split; [|split].
    - unfold listenerCount, size, e1. simpl. by rewrite !get_delete_ne.
    - rewrite !dispatchEvent_calls. unfold registered, e1. simpl. by rewrite !get_delete_ne.
    - rewrite !elem_eventNames. unfold e1. simpl. rewrite !elem_keys_delete. tauto. }
  split; [done|]. split.
  { unfold eventNames. apply nodup_names_fold, NoDup_nil_2. }
  intros name. rewrite elem_eventNames.
  assert (Hk : forall m, name ∈ keys m <-> has name m = true).
  { intros m. unfold keys, has. induction m as [|[k v] m IH]; simpl.
    - split; [by intros ?%elem_of_nil | done].
    - rewrite elem_of_cons. destruct (String.eqb_spec k name) as [->|Hne]; [tauto|].
      rewrite IH. intuition congruence. }
  by rewrite !Hk.
Qed.

(** X14. Listeners are kept in sets: registering a listener a second time
    in the same way changes nothing, and a newly registered listener is
    called after the listeners of its kind that were there.  The regular and
    the once-only listeners are separate sets, so a listener registered with
    both [on] and [once] is called twice by the next dispatch. *)
Theorem registering_twice_is_registering_once type l e (event : Ev) :
  on type l (on type l e) = on type l e /\
  once type l (once type l e) = once type l e /\
  (l ∉ registered type (listeners e) ->
   (dispatchEvent type event (on type l e)).2 =
     map (fun x => (x, event))
       (registered type (listeners e) ++ [l] ++ registered type (onceListeners e))) /\
  (l ∉ registered type (listeners e) -> l ∉ registered type (onceListeners e) ->
   filter (fun c => c.1 = l) (dispatchEvent type event (once type l (on type l e))).2 =
     [(l, event); (l, event)]).
Proof.
  assert (Hadd : forall m,
            let m1 := update type (setAdd l) (if has type m then m else set type [] m) in
            update type (setAdd l) (if has type m1 then m1 else set type [] m1) = m1).
  { intros m m1.
    assert (Hhas : has type m1 = true).
    { unfold has, m1. rewrite get_update_eq. destruct (has type m) eqn:E.
      - unfold has in E. by destruct (get type m).
      - by rewrite get_set_eq. }
    rewrite Hhas. unfold m1.
    generalize (if has type m then m else set type [] m). intros m2.
    induction m2 as [|[k v] m2 IH]; simpl; [done|].
    destruct (String.eqb k type) eqn:E; simpl; rewrite E; [|by rewrite IH].
    f_equal. f_equal. unfold setAdd at 1. rewrite bool_decide_true; [done|].
    unfold setAdd. case_bool_decide; [done|]. apply elem_of_app. right. by left. }
  split; [unfold on, addEventListener; simpl; by rewrite Hadd|].
  split; [unfold once, addEventListener; simpl; by rewrite Hadd|].
  split.
  { intros Hl. rewrite dispatchEvent_calls. unfold on, addEventListener. simpl.
    rewrite registered_add, decide_True by done.
    unfold setAdd. rewrite bool_decide_false by done. by rewrite <- app_assoc. }
  intros Hl Ho. rewrite dispatchEvent_calls. unfold once, on, addEventListener. simpl.
  rewrite !registered_add, !decide_True by done.
  unfold setAdd. rewrite !bool_decide_false by done.
  rewrite !map_app, !filter_app. simpl.
  assert (Hnone : forall ls, l ∉ ls ->
            filter (fun c : Listener * Ev => c.1 = l) (map (fun x => (x, event)) ls) = []).
  { intros ls. induction ls as [|x ls IH]; intros Hx; simpl; [done|].
    apply not_elem_of_cons in Hx as [Hne Hx].
    rewrite filter_cons_False by (simpl; congruence). by apply IH. }
  rewrite !Hnone by done. rewrite !filter_cons_True by done. done.
Qed.

End Emitter.

Lemma once_listener_is_called_once_witness :
  let l := EventEmitter.mkListener 1 true in
  let e1 := EventEmitter.once "enabled" l EventEmitter.new in
  (l, 7%nat) ∈ (EventEmitter.emit "enabled" 7%nat e1).2 /\
  l ∉ EventEmitter.called
        ((EventEmitter.emit "enabled" 8%nat (EventEmitter.emit "enabled" 7%nat e1).1.2).2).
Proof.
  intros l e1.
  assert (H : l ∉ EventEmitter.registered "enabled" (EventEmitter.listeners EventEmitter.new))
    by (intros H; by apply elem_of_nil in H).
  destruct (once_listener_is_called_once "enabled" 7%nat 8%nat l EventEmitter.new H)
    as (H1 & H2 & _).
  split; [exact H1 | exact H2].
Defined.

(** * The orchestrator *)

(** Walks down a computation: a goal [preserves R m] is broken along the
    structure of [m], closed by [close] (a lemma about the operation)
    where it applies, and otherwise the operation at its head is unfolded. *)
Ltac head_of t :=
  match t with
  | ?f _ => head_of f
  | _ => t
  end.

Ltac walk prim close :=
  repeat (preserves_with prim;
          try solve [close];
          match goal with
          | |- preserves _ ?m => let h := head_of m in unfold h
          end).

Lemma reachable_new cfg : reachable (WakeLock_new cfg).
Proof. by exists cfg, []. Qed.

Lemma reachable_perform op st : reachable st -> reachable (perform op st).2.
Proof.
  intros (cfg & ops & ->). exists cfg, (ops ++ [op]).
  unfold run. by rewrite fold_left_app.
Qed.

Lemma reachable_run ops st : reachable st -> reachable (run ops st).
Proof.
  intros (cfg & ops0 & ->). exists cfg, (ops0 ++ ops).
  unfold run. by rewrite fold_left_app.
Qed.

(** ** [release] when there is nothing to release *)

Lemma release_blocked st :
  activeUnreleased st = None \/ isReleasing (wl st) = true ->
  WakeLock_release st = (Ok tt, st).
Proof.
  unfold WakeLock_release, activeUnreleased, bind at 1, gets at 1.
  destruct (activeSentinel (wl st)) as [s|]; [|done].
  unfold bind at 1, gets at 1. unfold bind at 1, gets at 1.
  destruct (released st s); [done|]. simpl.
  intros [? | ->]; done.
Qed.

Global Instance idle_le_refl : Reflexive idle_le.
Proof. intros st H. exact H. Qed.

Global Instance idle_le_trans : Transitive idle_le.
Proof. intros a b c H1 H2 H. by apply H2, H1. Qed.

Ltac idle_prim := unfold idle_le; simpl; repeat case_match; simpl; auto.

Create HintDb idle discriminated.

Lemma idle_step : preserves idle_le step.
Proof. intros st H. exact H. Qed.
Lemma idle_generateUniqueId : preserves idle_le generateUniqueId.
Proof. intros st H. exact H. Qed.
Lemma idle_newSentinel s : preserves idle_le (newSentinel s).
Proof. intros st H. exact H. Qed.
Lemma idle_newNative s : preserves idle_le (newNative s).
Proof. intros st H. exact H. Qed.
Lemma idle_release : preserves idle_le WakeLock_release.
Proof.
  intros st Hidle. destruct (release_resolves_and_clears st) as (st' & E & H).
  rewrite E. simpl. destruct (activeUnreleased st) as [s|] eqn:Hact.
  - by apply H.
  - rewrite release_blocked in E by (by left). by inversion E; subst st'.
Qed.
#[export] Hint Resolve idle_step idle_generateUniqueId idle_newSentinel idle_newNative
  idle_release : idle.

Lemma idle_tryLoop all rest ty o errs : preserves idle_le (tryLoop all rest ty o errs).
Proof.
  revert errs. induction rest as [|k rest IH]; intros errs; simpl;
    walk ltac:(idle_prim) ltac:(auto with idle).
Qed.
#[export] Hint Resolve idle_tryLoop : idle.

Lemma idle_perform op : preserves idle_le (perform op).
Proof. destruct op; walk ltac:(idle_prim) ltac:(auto with idle). Qed.

(** No [release] is under way between two operations. *)
Lemma reachable_idle st : reachable st -> isReleasing (wl st) = false.
Proof.
  intros (cfg & ops & ->).
  assert (H : forall st0, isReleasing (wl st0) = false ->
                          isReleasing (wl (run ops st0)) = false).
  { induction ops as [|op ops IH]; intros st0 H0; simpl; [done|].
    apply IH. by apply (idle_perform op st0). }
  by apply H.
Qed.

(** X15. [release()] always resolves, and releasing twice is releasing
    once: the second call finds nothing to release, notifies nobody and
    changes nothing.  So does a [release()] without a held lock. *)
Theorem release_twice_is_release_once st :
  exists st',
    WakeLock_release st = (Ok tt, st') /\
    WakeLock_release st' = (Ok tt, st') /\
    (activeUnreleased st = None -> st' = st).
Proof.
  destruct (release_resolves_and_clears st) as (st' & E & H).
  destruct (activeUnreleased st) as [s|] eqn:Hact;
    [destruct (isReleasing (wl st)) eqn:Hrel|].
  - rewrite release_blocked by (by right). exists st.
    split; [done|]. split; [|done]. apply release_blocked. by right.
  - exists st'. split; [done|]. split; [|done].
    destruct H as (Ha & _); [done..|].
    apply release_blocked. left. unfold activeUnreleased. by rewrite Ha.
  - rewrite release_blocked by (by left). exists st.
    split; [done|]. split; [|done]. apply release_blocked. by left.
Qed.

(** ** The status *)

(** X16. [getStatus()] follows the lock.  After a request that was made
    on a running instance while no unreleased sentinel was held, and that
    resolved, it reports an active lock of the requested kind, held by one
    of the supported strategies; [startTime] is the time at which the status
    is asked for, not the time of the request.  After the [release()] that
    follows, it reports no lock, kind, strategy or start time. *)
Theorem status_follows_the_lock ty opts st s st' :
  reachable st -> activeUnreleased st = None ->
  WakeLock_request ty opts st = (Ok s, st') ->
  let status := getStatus st' in
  let status' := getStatus (WakeLock_release st').2 in
  status_isActive status = true /\
  status_type status = Some ty /\
  (exists name, status_strategy status = Some name /\ name ∈ getSupportedStrategies st') /\
  (forall now, status_startTime (getStatus (perform (OpClock now) st').2) = Some now) /\
  status_isActive status' = false /\
  status_type status' = None /\
  status_strategy status' = None /\
  status_startTime status' = None.
Proof.
  intros Hr Hact H status status'.
  destruct (request_made ty opts st s st' Hact H)
    as (k & Ha & Hcur & Hrel & T & _ & _ & _ & Hk).
  assert (Hr' : reachable st').
  { replace st' with (perform (OpRequest ty opts) st).2; [by apply reachable_perform|].
    simpl. unfold discard. by rewrite H. }
  destruct (release_resolves_and_clears st') as (st2 & E & Hc).
  destruct Hc as (A & C & _);
    [unfold activeUnreleased; by rewrite Ha, Hrel | by apply reachable_idle |].
  unfold status', status, getStatus. rewrite E. simpl. rewrite Ha, Hcur, Hrel, T, A, C. simpl.
  repeat split; try done.
  exists (strategyName st' k). split; [done|].
  unfold getSupportedStrategies. apply list_elem_of_In, in_map. by apply list_elem_of_In.
Qed.

Lemma status_follows_the_lock_witness :
  let st' := (WakeLock_request screen noOptions (WakeLock_new inBrowser)).2 in
  status_isActive (getStatus st') = true /\
  status_isActive (getStatus (WakeLock_release st').2) = false.
Proof.
  intros st'.
  assert (E : WakeLock_request screen noOptions (WakeLock_new inBrowser) = (Ok 3%nat, st'))
    by (vm_compute; reflexivity).
  assert (A : activeUnreleased (WakeLock_new inBrowser) = None) by reflexivity.
  pose proof (status_follows_the_lock screen noOptions _ _ _ (reachable_new inBrowser) A E)
    as H.
  cbv zeta in H. destruct H as (H1 & _ & _ & _ & H2 & _). split; [exact H1 | exact H2].
Defined.

(** ** The page is hidden, the battery runs low *)

Ltac grows_prim :=
  unfold trace_ext; simpl; repeat case_match; simpl;
  first [ by eexists | by exists []; rewrite app_nil_r ].

Lemma tr_release : preserves trace_ext WakeLock_release.
Proof. walk ltac:(grows_prim) ltac:(auto with tr). Qed.

(** What the handlers' [this.release().catch(console.warn)] comes to. *)
Lemma releaseAndWarn_lets_go st :
  isReleasing (wl st) = false ->
  exists st',
    releaseAndWarn st = (Ok tt, st') /\
    activeUnreleased st' = None /\
    trace_ext st st' /\
    requestsOf (trace st') = requestsOf (trace st) /\
    (activeUnreleased st = None -> st' = st).
Proof.
  intros Hidle. destruct (release_resolves_and_clears st) as (st' & E & H).
  exists st'. unfold releaseAndWarn, tryCatch. rewrite E. split; [done|].
  pose proof (preserves_eq _ _ _ _ _ tr_release E) as Ht.
  pose proof (preserves_eq _ _ _ _ _ noreq_release E) as Hn.
  destruct (activeUnreleased st) as [s|] eqn:Hact.
  - destruct H as (A & _); [done..|]. unfold activeUnreleased. by rewrite A.
  - rewrite release_blocked in E by (by left). injection E as <-. done.
Qed.

(** ** The throttle of the [performance] notifications *)

Lemma performancesOf_app tr1 tr2 :
  performancesOf (tr1 ++ tr2) = performancesOf tr1 ++ performancesOf tr2.
Proof. unfold performancesOf. by rewrite omap_app. Qed.

Global Instance throttled_refl : Reflexive throttled.
Proof.
  intros st. unfold throttled. simpl.
  destruct (pm_inThrottle (performanceMonitor st)); repeat split; try lia; tauto.
Qed.

Global Instance throttled_trans : Transitive throttled.
Proof.
  intros a b c Hab Hbc. unfold throttled in *. cbv zeta in *.
  destruct Hab as (A1 & A2 & A3), Hbc as (B1 & B2 & B3).
  destruct (pm_inThrottle (performanceMonitor a)) eqn:Ea.
  - pose proof (A3 (or_introl eq_refl)) as Eb. rewrite Eb in B2.
    repeat split; try lia. intros _. apply B3. by left.
  - destruct (pm_inThrottle (performanceMonitor b)) eqn:Eb.
    + repeat split; try lia. intros _. apply B3. by left.
    + assert (length (performancesOf (trace b)) = length (performancesOf (trace a))).
      { destruct (decide (length (performancesOf (trace a)) <
                          length (performancesOf (trace b)))%nat) as [Hlt|Hge]; [|lia].
        pose proof (A3 (or_intror Hlt)). congruence. }
      repeat split; try lia. intros [?|Hlt]; [done|]. apply B3. right. lia.
Qed.

Ltac throttle_prim :=
  unfold throttled; simpl; rewrite ?performancesOf_app; simpl;
  rewrite ?app_nil_r; repeat case_match; simpl; repeat split; try lia; try tauto.

Create HintDb throttle discriminated.

Lemma throttled_step : preserves throttled step.
Proof. intros st. throttle_prim. Qed.
Lemma throttled_generateUniqueId : preserves throttled generateUniqueId.
Proof. intros st. throttle_prim. Qed.
Lemma throttled_newSentinel s : preserves throttled (newSentinel s).
Proof. intros st. throttle_prim. Qed.
Lemma throttled_newNative s : preserves throttled (newNative s).
Proof. intros st. throttle_prim. Qed.
Lemma throttled_emit m : preserves throttled (throttledEmitPerformance m).
Proof.
  intros st. unfold throttledEmitPerformance, onPerformance, updMonitor, emit, record, bind,
    gets, modify.
  destruct (pm_inThrottle (performanceMonitor st)) eqn:E; simpl.
  - unfold throttled. rewrite E. repeat split; try lia; try done.
  - unfold throttled. simpl. rewrite E, performancesOf_app, length_app. simpl.
    repeat split; try lia; try done.
Qed.
#[export] Hint Resolve throttled_step throttled_generateUniqueId throttled_newSentinel
  throttled_newNative throttled_emit : throttle.

Lemma throttled_tryLoop all rest ty o errs : preserves throttled (tryLoop all rest ty o errs).
Proof.
  revert errs. induction rest as [|k rest IH]; intros errs; simpl;
    walk ltac:(throttle_prim) ltac:(auto with throttle).
Qed.
#[export] Hint Resolve throttled_tryLoop : throttle.

Lemma throttled_perform op : op <> OpThrottleTimer -> preserves throttled (perform op).
Proof.
  intros Hop. destruct op; try done; walk ltac:(throttle_prim) ltac:(auto with throttle).
Qed.

Lemma throttled_run ops st :
  Forall (fun op => op <> OpThrottleTimer) ops -> throttled st (run ops st).
Proof.
  intros H. revert st. induction H as [|op ops Hop _ IH]; intros st; simpl; [reflexivity|].
  etrans; [apply (throttled_perform op Hop st) | apply IH].
Qed.

(** X19. The [performance] notifications are throttled: whatever is done
    with the instance and whatever the platform does, at most one
    [performance] notification is emitted until the timer of the throttle
    expires, and none if one was emitted since the timer last expired.
    Once it has expired, the next sample of a running monitor is notified. *)
Theorem performance_notifications_are_throttled ops st :
  Forall (fun op => op <> OpThrottleTimer) ops ->
  let n := length (performancesOf (trace st)) in
  let n' := length (performancesOf (trace (run ops st))) in
  (n' <= n + 1)%nat /\
  (pm_inThrottle (performanceMonitor st) = true -> n' = n) /\
  ((n < n')%nat -> forall ops',
     Forall (fun op => op <> OpThrottleTimer) ops' ->
     length (performancesOf (trace (run ops' (run ops st)))) = n') /\
  (pm_isMonitoring (performanceMonitor (run ops st)) = true ->
   let expired := (perform OpThrottleTimer (run ops st)).2 in
   performancesOf (trace (monitoringTimerCallback expired).2) =
     performancesOf (trace (run ops st)) ++ [env_metrics (env expired) (tick expired)]).
Proof.
  intros Hops n n'. destruct (throttled_run ops st Hops) as (H1 & H2 & H3).
  fold n n' in H1, H2, H3.
  split; [destruct (pm_inThrottle (performanceMonitor st)); lia|].
  split; [intros E; rewrite E in H2; lia|].
  split.
  { intros Hlt ops' Hops'. destruct (throttled_run ops' (run ops st) Hops') as (K1 & K2 & _).
    rewrite H3 in K2 by (by right). fold n' in K1, K2. lia. }
  intros Hmon expired.
  unfold monitoringTimerCallback, collectMetrics, throttledEmitPerformance, onPerformance,
    updMonitor, emit, record, bind, gets, modify, step. simpl.
  rewrite Hmon. simpl. by rewrite performancesOf_app.
Qed.

Lemma performance_notifications_are_throttled_witness :
  let ops := [OpRequest screen noOptions; OpMonitorTimer; OpBattery (1 # 2) true;
              OpMonitorTimer] in
  (length (performancesOf (trace (run ops (WakeLock_new inBrowser)))) <=
   length (performancesOf (trace (WakeLock_new inBrowser))) + 1)%nat.
Proof.
  intros ops.
  assert (H : Forall (fun op => op <> OpThrottleTimer) ops)
    by (repeat constructor; discriminate).
  pose proof (performance_notifications_are_throttled ops (WakeLock_new inBrowser) H) as K.
  cbv zeta in K. destruct K as (K & _). exact K.
Defined.

(** ** Computations that never throw *)

Lemma safe_ret {A} (a : A) : safe (ret a).
Proof. intros st. by eexists _, _. Qed.
Lemma safe_gets {A} (f : Sys -> A) : safe (gets f).
Proof. intros st. by eexists _, _. Qed.
Lemma safe_modify f : safe (modify f).
Proof. intros st. by eexists _, _. Qed.
Lemma safe_step : safe step.
Proof. intros st. by eexists _, _. Qed.
Lemma safe_bind {A B} (m : M A) (f : A -> M B) :
  safe m -> (forall a, safe (f a)) -> safe (bind m f).
Proof.
  intros Hm Hf st. destruct (Hm st) as (a & st1 & E). unfold bind. rewrite E. apply Hf.
Qed.
Lemma safe_tryCatch {A} (m : M A) h : (forall t, safe (h t)) -> safe (tryCatch m h).
Proof.
  intros Hh st. unfold tryCatch. destruct (m st) as [[a|t] st1]; [by eexists _, _|]. apply Hh.
Qed.
Lemma safe_when b m : safe m -> safe (when b m).
Proof. intros H. destruct b; [done|]. apply safe_ret. Qed.

Ltac safe_walk :=
  repeat first
    [ apply safe_ret | apply safe_gets | apply safe_modify | apply safe_step
    | apply safe_bind | apply safe_tryCatch | apply safe_when
    | match goal with
      | |- forall _, safe _ => intros ?
      | |- safe (if ?b then _ else _) => destruct b
      | |- safe (match ?x with _ => _ end) => destruct x
      | |- safe ?m => let h := head_of m in unfold h
      end ].

Lemma safe_onBatteryChange lvl chg : safe (onBatteryChange lvl chg).
Proof. safe_walk. Qed.

(** The body of the [try] in [PerformanceMonitor.start] *)
Lemma safe_start_body :
  safe (initializeBatteryMonitoring ;;
        updMonitor (set_pm_timer true) ;;
        let* initialMetrics := collectMetrics in
        updMonitor (set_pm_lastMetrics (Some initialMetrics)) ;;
        throttledEmitPerformance initialMetrics).
Proof. safe_walk. Qed.

Lemma tryCatch_safe {A} (m : M A) h st : safe m -> tryCatch m h st = m st.
Proof. intros H. unfold tryCatch. by destruct (H st) as (a & st1 & ->). Qed.

(** ** The monitor's handlers on the battery *)

Global Instance listening_le_refl : Reflexive listening_le.
Proof. intros st H. exact H. Qed.

Global Instance listening_le_trans : Transitive listening_le.
Proof. intros a b c H1 H2 H. by apply H2, H1. Qed.

Ltac listening_prim :=
  unfold listening_le, listening_ok; simpl; repeat case_match; simpl; auto.

Create HintDb listening discriminated.

Lemma listening_step : preserves listening_le step.
Proof. intros st H. exact H. Qed.
Lemma listening_generateUniqueId : preserves listening_le generateUniqueId.
Proof. intros st H. exact H. Qed.
Lemma listening_newSentinel s : preserves listening_le (newSentinel s).
Proof. intros st H. exact H. Qed.
Lemma listening_newNative s : preserves listening_le (newNative s).
Proof. intros st H. exact H. Qed.
Lemma listening_stop : preserves listening_le PerformanceMonitor_stop.
Proof.
  intros st H. unfold PerformanceMonitor_stop, modify. simpl.
  destruct (pm_isMonitoring (performanceMonitor st)) eqn:Em; simpl; [|exact H].
  destruct (pm_battery (performanceMonitor st)) eqn:Eb; unfold listening_ok; simpl.
  - intros _ _ bm Hbm. destruct (battery st); simpl in Hbm; [|done].
    by injection Hbm as <-.
  - by rewrite Eb.
Qed.
#[export] Hint Resolve listening_step listening_generateUniqueId listening_newSentinel
  listening_newNative listening_stop : listening.

Lemma listening_onBatteryChange lvl chg : preserves listening_le (onBatteryChange lvl chg).
Proof. walk ltac:(listening_prim) ltac:(auto with listening). Qed.

Lemma listening_start : preserves listening_le PerformanceMonitor_start.
Proof.
  intros st Hok. unfold PerformanceMonitor_start, bind at 1, gets at 1.
  unfold bind at 1, gets at 1.
  destruct (negb (pm_enabled (performanceMonitor st)) ||
            pm_isMonitoring (performanceMonitor st) || isSSR st); [exact Hok|].
  unfold bind at 1, updMonitor at 1, modify at 1.
  rewrite tryCatch_safe by apply safe_start_body.
  set (st1 := set_performanceMonitor _ st).
  unfold bind at 1.
  destruct (initializeBatteryMonitoring st1) as [[[]|t] st2] eqn:Ei.
  - assert (H2 : listening_ok st2).
    { unfold initializeBatteryMonitoring, bind at 1, gets at 1 in Ei.
      destruct (battery st1) as [bm|] eqn:Eb.
      - unfold bind at 1, updMonitor at 1, modify at 1 in Ei.
        unfold bind at 1, modify at 1 in Ei.
        apply (preserves_eq _ _ _ _ _ (listening_onBatteryChange _ _)) in Ei.
        apply Ei. intros Hm. done.
      - unfold updMonitor, modify in Ei. injection Ei as <-. intros _ Hb. done. }
    revert H2.
    assert (Hrest : preserves listening_le
              (updMonitor (set_pm_timer true) ;;
               let* initialMetrics := collectMetrics in
               updMonitor (set_pm_lastMetrics (Some initialMetrics)) ;;
               throttledEmitPerformance initialMetrics))
      by walk ltac:(listening_prim) ltac:(auto with listening).
    apply Hrest.
  - destruct (safe_start_body st1) as (a & st3 & E). unfold bind at 1 in E.
    rewrite Ei in E. done.
Qed.

Lemma listening_batteryChanged lvl chg : preserves listening_le (batteryChanged lvl chg).
Proof.
  intros st Hok. unfold batteryChanged, bind at 1, gets at 1.
  destruct (battery st) as [bm|] eqn:Eb; [|exact Hok].
  unfold bind at 1, modify at 1. unfold bind at 1, gets at 1.
  set (st1 := set_battery _ st).
  assert (H1 : listening_ok st1).
  { intros Hm Hb bm' Hbm'. injection Hbm' as <-. simpl. by apply (Hok Hm Hb). }
  revert H1. apply (preserves_when listening_le), listening_onBatteryChange.
Qed.
#[export] Hint Resolve listening_start listening_batteryChanged : listening.

Lemma listening_tryLoop all rest ty o errs :
  preserves listening_le (tryLoop all rest ty o errs).
Proof.
  revert errs. induction rest as [|k rest IH]; intros errs; simpl;
    walk ltac:(listening_prim) ltac:(auto with listening).
Qed.
#[export] Hint Resolve listening_tryLoop : listening.

Lemma listening_perform op : preserves listening_le (perform op).
Proof. destruct op; walk ltac:(listening_prim) ltac:(auto with listening). Qed.

Lemma reachable_listening st : reachable st -> listening_ok st.
Proof.
  intros (cfg & ops & ->).
  assert (H : forall st0, listening_ok st0 -> listening_ok (run ops st0)).
  { induction ops as [|op ops IH]; intros st0 H0; simpl; [done|].
    apply IH. by apply (listening_perform op st0). }
  apply H. intros _ Hb. done.
Qed.

(** ** A monitor that is not running *)

Lemma idle_monitor st lvl chg :
  reachable st -> pm_isMonitoring (performanceMonitor st) = false ->
  monitoringTimerCallback st = (Ok tt, st) /\
  PerformanceMonitor_stop st = (Ok tt, st) /\
  batteryChanged lvl chg st =
    (Ok tt,
     match battery st with
     | Some bm =>
         set_battery (Some (mkBattery lvl chg (onlevelchange bm) (onchargingchange bm))) st
     | None => st
     end).
Proof.
  intros Hr Hm. pose proof (reachable_listening st Hr Hm) as Hl.
  split; [|split].
  - unfold monitoringTimerCallback, bind, gets. by rewrite Hm.
  - unfold PerformanceMonitor_stop, modify. by rewrite Hm.
  - unfold batteryChanged, bind at 1, gets at 1.
    destruct (battery st) as [bm|] eqn:Eb; [|done].
    unfold bind, modify, gets. simpl.
    destruct (pm_battery (performanceMonitor st)) eqn:Ep.
    + destruct (Hl eq_refl bm eq_refl) as (-> & ->). done.
    + by rewrite andb_false_r.
Qed.

(** X20. While the monitor is not running (before the first request, and
    after [release()] or [destroy()]), the platform's battery events and
    the ticks of the sampling timer do nothing: no notification is emitted
    and nothing but the battery's own level and charging state changes.
    Stopping a monitor that is not running changes nothing either. *)
Theorem idle_monitor_is_silent st lvl chg :
  reachable st -> pm_isMonitoring (performanceMonitor st) = false ->
  monitoringTimerCallback st = (Ok tt, st) /\
  PerformanceMonitor_stop st = (Ok tt, st) /\
  trace (batteryChanged lvl chg st).2 = trace st /\
  wl (batteryChanged lvl chg st).2 = wl st /\
  performanceMonitor (batteryChanged lvl chg st).2 = performanceMonitor st /\
  sentinels (batteryChanged lvl chg st).2 = sentinels st.
Proof.
  intros Hr Hm. destruct (idle_monitor st lvl chg Hr Hm) as (H1 & H2 & H3).
  split; [done|]. split; [done|]. rewrite H3. by destruct (battery st).
Qed.

Lemma idle_monitor_is_silent_witness :
  trace (batteryChanged (1 # 10) false lockReleasedOnBattery).2 = trace lockReleasedOnBattery.
Proof.
  assert (Hr : reachable lockReleasedOnBattery) by apply reachable_run, reachable_new.
  assert (Hm : pm_isMonitoring (performanceMonitor lockReleasedOnBattery) = false)
    by (vm_compute; reflexivity).
  destruct (idle_monitor_is_silent lockReleasedOnBattery (1 # 10) false Hr Hm)
    as (_ & _ & H & _).
  exact H.
Defined.

(** ** A monitor that was disabled *)

Lemma monitorEvents_app tr1 tr2 :
  monitorEvents (tr1 ++ tr2) = monitorEvents tr1 ++ monitorEvents tr2.
Proof. unfold monitorEvents. by rewrite omap_app. Qed.

Global Instance off_le_refl : Reflexive off_le.
Proof. intros st H. split; [exact H|reflexivity]. Qed.

Global Instance off_le_trans : Transitive off_le.
Proof.
  intros a b c H1 H2 H. destruct (H1 H) as (Hb & E1). destruct (H2 Hb) as (Hc & E2).
  split; [done|congruence].
Qed.

Ltac off_prim :=
  unfold off_le, monitor_off; simpl; rewrite ?monitorEvents_app; simpl;
  rewrite ?app_nil_r; repeat case_match; simpl; auto.

Create HintDb off discriminated.

Lemma off_step : preserves off_le step.
Proof. intros st H. split; [exact H|reflexivity]. Qed.
Lemma off_generateUniqueId : preserves off_le generateUniqueId.
Proof. intros st H. split; [exact H|reflexivity]. Qed.
Lemma off_newSentinel s : preserves off_le (newSentinel s).
Proof. intros st H. split; [exact H|reflexivity]. Qed.
Lemma off_newNative s : preserves off_le (newNative s).
Proof. intros st H. split; [exact H|reflexivity]. Qed.
Lemma off_stop : preserves off_le PerformanceMonitor_stop.
Proof.
  intros st H. unfold PerformanceMonitor_stop, modify. simpl.
  destruct H as (He & Hm & Hb & Hl). rewrite Hm. by repeat split.
Qed.
Lemma off_start : preserves off_le PerformanceMonitor_start.
Proof.
  intros st H. unfold PerformanceMonitor_start, bind, gets.
  destruct H as (He & Hm & Hb & Hl). rewrite He. by repeat split.
Qed.
Lemma off_timer : preserves off_le monitoringTimerCallback.
Proof.
  intros st H. unfold monitoringTimerCallback, bind, gets.
  destruct H as (He & Hm & Hb & Hl). rewrite Hm. by repeat split.
Qed.
Lemma batteryChanged_unheard lvl chg st :
  pm_battery (performanceMonitor st) = false ->
  batteryChanged lvl chg st =
    (Ok tt,
     match battery st with
     | Some bm =>
         set_battery (Some (mkBattery lvl chg (onlevelchange bm) (onchargingchange bm))) st
     | None => st
     end).
Proof.
  intros Hb. unfold batteryChanged, bind at 1, gets at 1.
  destruct (battery st) as [bm|]; [|done].
  unfold bind, modify, gets. simpl. by rewrite Hb, andb_false_r.
Qed.

Lemma off_batteryChanged lvl chg : preserves off_le (batteryChanged lvl chg).
Proof.
  intros st H. pose proof H as (He & Hm & Hb & Hl).
  rewrite batteryChanged_unheard by done.
  destruct (battery st) as [bm|]; split; done.
Qed.
#[export] Hint Resolve off_step off_generateUniqueId off_newSentinel off_newNative off_stop
  off_start off_timer off_batteryChanged : off.

Lemma off_tryLoop all rest ty o errs : preserves off_le (tryLoop all rest ty o errs).
Proof.
  revert errs. induction rest as [|k rest IH]; intros errs; simpl;
    walk ltac:(off_prim) ltac:(auto with off).
Qed.
#[export] Hint Resolve off_tryLoop : off.

Lemma off_perform op : preserves off_le (perform op).
Proof. destruct op; walk ltac:(off_prim) ltac:(auto with off). Qed.

(** X22. With [performanceMonitoring: false] the monitor never runs:
    whatever is done with the instance and whatever the platform reports,
    no [performance] and no [battery-change] notification is ever emitted,
    and [getStatus()] has no metrics.  A change of the battery does not
    reach the instance, so that a low battery does not release the lock,
    with battery optimization on or off. *)
Theorem disabled_monitoring_is_silent cfg ops :
  cfg_performanceMonitoring cfg = Present false ->
  let st := run ops (WakeLock_new cfg) in
  monitorEvents (trace st) = [] /\
  pm_isMonitoring (performanceMonitor st) = false /\
  status_performanceMetrics (getStatus st) = None /\
  status_batteryLevel (getStatus st) = None /\
  forall lvl chg,
    wl (batteryChanged lvl chg st).2 = wl st /\
    sentinels (batteryChanged lvl chg st).2 = sentinels st /\
    trace (batteryChanged lvl chg st).2 = trace st.
Proof.
  intros Hcfg st.
  assert (H : forall st0, off_le st0 (run ops st0)).
  { induction ops as [|op ops IH]; intros st0; simpl; [reflexivity|].
    etrans; [apply off_perform | apply IH]. }
  destruct (H (WakeLock_new cfg)) as ((He & Hm & Hb & Hl) & Hev).
  { unfold monitor_off, WakeLock_new. simpl. by rewrite Hcfg. }
  fold st in He, Hm, Hb, Hl, Hev.
  split; [by rewrite Hev|]. split; [done|].
  split; [unfold getStatus, getLastMetrics; simpl; by rewrite Hl|].
  split; [unfold getStatus, isLowBattery; simpl; by rewrite Hb|].
  intros lvl chg. rewrite batteryChanged_unheard by done.
  by destruct (battery st) as [bm|].
Qed.

Lemma disabled_monitoring_is_silent_witness :
  let ops := [OpRequest screen noOptions; OpBattery (1 # 10) false; OpMonitorTimer] in
  monitorEvents (trace (run ops (WakeLock_new unmonitored))) = [] /\
  activeUnreleased (run ops (WakeLock_new unmonitored)) <> None.
Proof.
  intros ops. split; [|by vm_compute].
  pose proof (disabled_monitoring_is_silent unmonitored ops eq_refl) as H.
  cbv zeta in H. destruct H as (H & _). exact H.
Defined.

(** ** Requests that are rejected *)

Lemma request_rejection ty opts st t st' :
  WakeLock_request ty opts st = (Throw t, st') ->
  let ro := mergeOptions opts (opt_passive (options (wl st))) in
  (isSSR st = true /\ t = ThrownWakeLockError ssrError /\ st' = st) \/
  (isSSR st = false /\ activeUnreleased st = None /\
   exists st1,
     st' = set_trace (trace st1 ++ [Emit (error (requestError t))]) st1 /\
     ((t = ThrownWakeLockError passiveDenied /\ truthy (ro_passive ro) = true /\
       prelude ty ro st = (Throw t, st1)) \/
      (exists st0 errs,
         prelude ty ro st = (Ok tt, st0) /\
         allFail (strategies (wl st)) ty ro (strategies (wl st)) st0 errs st1 /\
         t = ThrownWakeLockError (allFailed errs)))).
Proof.
  intros H ro.
  destruct (isSSR st) eqn:Hssr.
  { rewrite request_ssr in H by done. injection H as <- <-. by left. }
  destruct (activeUnreleased st) as [s|] eqn:Hact.
  { by rewrite (request_existing _ _ _ s) in H. }
  right. split; [done|]. split; [done|].
  apply request_outcome in H as [(t' & st1 & Ht & -> & H)|(u & st0 & s & st1 & ? & _)];
    [|done..].
  injection Ht as <-. fold ro in H. exists st1. split; [done|].
  destruct H as [Hp|(u & st0 & Hp & Hs)].
  - left. destruct (prelude_outcome ty ro st) as [(st2 & Hd & Hpass)|(st2 & Hok)].
    + rewrite Hd in Hp. injection Hp as <- <-. done.
    + by rewrite Hok in Hp.
  - right. destruct u. exists st0.
    pose proof (preserves_eq _ _ _ _ _ (orch_prelude ty _) Hp) as (_ & Hstr & _).
    unfold tryStrategies, bind, gets in Hs. rewrite Hstr in Hs.
    apply tryLoop_Throw in Hs as (errs & Hf & ->). by exists errs.
Qed.

(** The orchestrator's fields under the parts of a request. *)

Global Instance same_wl_refl : Reflexive same_wl.
Proof. by intros st. Qed.

Global Instance same_wl_trans : Transitive same_wl.
Proof. intros a b c H1 H2. unfold same_wl in *. congruence. Qed.

Ltac same_wl_prim := unfold same_wl; simpl; repeat case_match; simpl; auto.

Create HintDb same_wl discriminated.

Lemma same_wl_step : preserves same_wl step.
Proof. by intros st. Qed.
Lemma same_wl_generateUniqueId : preserves same_wl generateUniqueId.
Proof. by intros st. Qed.
Lemma same_wl_newSentinel s : preserves same_wl (newSentinel s).
Proof. by intros st. Qed.
Lemma same_wl_newNative s : preserves same_wl (newNative s).
Proof. by intros st. Qed.
#[export] Hint Resolve same_wl_step same_wl_generateUniqueId same_wl_newSentinel
  same_wl_newNative : same_wl.

Lemma same_wl_strategy_request k ty o : preserves same_wl (strategy_request k ty o).
Proof. walk ltac:(same_wl_prim) ltac:(auto with same_wl). Qed.

Lemma same_wl_recordFailure all k e : preserves same_wl (recordFailure all k e).
Proof. walk ltac:(same_wl_prim) ltac:(auto with same_wl). Qed.

Lemma attempt_Throw_wl k ty o st e st1 :
  attempt k ty o st = (Throw e, st1) -> wl st1 = wl st.
Proof.
  unfold attempt, measureStrategy, bind at 1, gets at 1. unfold bind at 1. unfold bind at 1.
  destruct (strategy_request k ty o st) as [[s1|t1] sta] eqn:E1.
  - pose proof (preserves_eq _ _ _ _ _ (same_wl_strategy_request k ty o) E1) as H1.
    unfold ret at 1. unfold bind at 1.
    destruct (strategy_request k ty o sta) as [[s2|t2] stb] eqn:E2.
    + done.
    + pose proof (preserves_eq _ _ _ _ _ (same_wl_strategy_request k ty o) E2) as H2.
      intros Heq. injection Heq as <- <-. unfold same_wl in *. congruence.
  - pose proof (preserves_eq _ _ _ _ _ (same_wl_strategy_request k ty o) E1) as H1.
    intros Heq. injection Heq as <- <-. done.
Qed.

Lemma allFail_wl all ty ro rest st errs st' :
  allFail all ty ro rest st errs st' -> wl st' = wl st.
Proof.
  induction 1 as [st|k rest st e st1 w st2 errs st3 Ha Hr _ IH]; [done|].
  apply attempt_Throw_wl in Ha.
  apply (preserves_eq _ _ _ _ _ (same_wl_recordFailure _ _ _)) in Hr.
  unfold same_wl in Hr. congruence.
Qed.

Global Instance blocked_le_refl : Reflexive blocked_le.
Proof. intros st H. by split. Qed.

Global Instance blocked_le_trans : Transitive blocked_le.
Proof.
  intros a b c H1 H2 H. destruct (H1 H) as (Hb & E1). destruct (H2 Hb) as (Hc & E2).
  split; [done|congruence].
Qed.

Ltac blocked_prim :=
  unfold blocked_le, activeUnreleased, released, theSentinel, theNative, theStrategy; simpl;
  repeat case_match; simpl; auto.

Create HintDb blocked discriminated.

Lemma blocked_step : preserves blocked_le step.
Proof. intros st H. by split. Qed.
Lemma blocked_release : preserves blocked_le WakeLock_release.
Proof. intros st H. rewrite release_blocked by (by left). by split. Qed.
#[export] Hint Resolve blocked_step blocked_release : blocked.

Lemma blocked_prelude ty ro : preserves blocked_le (prelude ty ro).
Proof. walk ltac:(blocked_prim) ltac:(auto with blocked). Qed.

(** X23. [request] rejects in three ways only, each time with a
    [WakeLockError]: NOT_SUPPORTED under server-side rendering, where
    nothing else happens; PERMISSION_DENIED from the gate of a passive
    request; STRATEGY_FAILED when all strategies failed.  In the last two
    cases an [error] notification carrying that error is the last thing
    emitted.  No sentinel is adopted, the instance's own fields are as they
    were.  [request] never rejects with the code UNKNOWN or with something
    that is not a [WakeLockError]. *)
Theorem request_rejects_in_three_ways ty opts st t st' :
  WakeLock_request ty opts st = (Throw t, st') ->
  exists w,
    t = ThrownWakeLockError w /\
    wl st' = wl st /\
    (isSSR st = true /\ err_code w = NOT_SUPPORTED /\ st' = st \/
     isSSR st = false /\
     (err_code w = PERMISSION_DENIED \/ err_code w = STRATEGY_FAILED) /\
     exists st1, st' = set_trace (trace st1 ++ [Emit (error w)]) st1).
Proof.
  intros H.
  apply request_rejection in H
    as [(Hssr & -> & ->)|(Hssr & Hact & st1 & -> & [(-> & Hp & Hd)|(st0 & errs & Hp & Hf & ->)])].
  - exists ssrError. split; [done|]. split; [done|]. by left.
  - exists passiveDenied. split; [done|].
    destruct (preserves_eq _ _ _ _ _ (blocked_prelude ty _) Hd Hact) as (_ & Hw).
    split; [done|]. right. split; [done|]. split; [by left|]. by exists st1.
  - exists (allFailed errs). split; [done|].
    destruct (preserves_eq _ _ _ _ _ (blocked_prelude ty _) Hp Hact) as (_ & Hw).
    apply allFail_wl in Hf.
    split; [simpl; congruence|]. right. split; [done|]. split; [by right|]. by exists st1.
Qed.

Lemma request_rejects_in_three_ways_witness :
  exists w,
    ((WakeLock_request screen noOptions (WakeLock_new timerFailing)).1 =
       Throw (ThrownWakeLockError w)) /\
    (wl ((WakeLock_request screen noOptions (WakeLock_new timerFailing)).2) =
       wl (WakeLock_new timerFailing)).
Proof.
  assert (E : exists t,
             WakeLock_request screen noOptions (WakeLock_new timerFailing) =
             (Throw t, (WakeLock_request screen noOptions (WakeLock_new timerFailing)).2))
    by (eexists; vm_compute; reflexivity).
  destruct E as (t & E).
  destruct (request_rejects_in_three_ways _ _ _ _ _ E) as (w & -> & Hw & _).
  exists w. split; [by rewrite E | exact Hw].
Defined.

(** ** The monitor after a rejected request *)

Global Instance gate_le_refl : Reflexive gate_le.
Proof. by intros st. Qed.

Global Instance gate_le_trans : Transitive gate_le.
Proof.
  intros a b c (A1 & A2 & A3) (B1 & B2 & B3). unfold gate_le. repeat split; congruence.
Qed.

Ltac gate_prim := unfold gate_le; simpl; repeat case_match; simpl; auto.

Lemma gate_step : preserves gate_le step.
Proof. by intros st. Qed.

Lemma gate_passiveGate ty ro : preserves gate_le (passiveGate ty ro).
Proof. walk ltac:(gate_prim) ltac:(apply gate_step). Qed.

Global Instance unheld_le_refl : Reflexive unheld_le.
Proof. intros st H. exact H. Qed.

Global Instance unheld_le_trans : Transitive unheld_le.
Proof. intros a b c H1 H2 H. by apply H2, H1. Qed.

Ltac unheld_prim := unfold unheld_le; simpl; repeat case_match; simpl; auto.

Create HintDb unheld discriminated.

Lemma unheld_step : preserves unheld_le step.
Proof. intros st H. exact H. Qed.
Lemma unheld_generateUniqueId : preserves unheld_le generateUniqueId.
Proof. intros st H. exact H. Qed.
Lemma unheld_newSentinel s : preserves unheld_le (newSentinel s).
Proof. intros st H. exact H. Qed.
Lemma unheld_newNative s : preserves unheld_le (newNative s).
Proof. intros st H. exact H. Qed.
Lemma unheld_release : preserves unheld_le WakeLock_release.
Proof.
  intros st H. rewrite release_blocked; [exact H|].
  left. unfold activeUnreleased. by destruct H as (-> & _).
Qed.
#[export] Hint Resolve unheld_step unheld_generateUniqueId unheld_newSentinel unheld_newNative
  unheld_release : unheld.

Lemma unheld_strategy_request k ty o : preserves unheld_le (strategy_request k ty o).
Proof. walk ltac:(unheld_prim) ltac:(auto with unheld). Qed.

Lemma unheld_recordFailure all k e : preserves unheld_le (recordFailure all k e).
Proof. walk ltac:(unheld_prim) ltac:(auto with unheld). Qed.

Lemma unheld_allFail all ty ro rest st errs st' :
  allFail all ty ro rest st errs st' -> unheld_le st st'.
Proof.
  induction 1 as [st|k rest st e st1 w st2 errs st3 Ha Hr _ IH]; [reflexivity|].
  assert (H1 : unheld_le st st1).
  { revert Ha. unfold attempt, measureStrategy, bind at 1, gets at 1.
    unfold bind at 1. unfold bind at 1.
    destruct (strategy_request k ty ro st) as [[s1|t1] sta] eqn:E1.
    - pose proof (preserves_eq _ _ _ _ _ (unheld_strategy_request k ty ro) E1) as H1.
      unfold ret at 1. unfold bind at 1.
      destruct (strategy_request k ty ro sta) as [[s2|t2] stb] eqn:E2; [done|].
      pose proof (preserves_eq _ _ _ _ _ (unheld_strategy_request k ty ro) E2) as H2.
      intros Heq. injection Heq as <- <-. by etrans.
    - pose proof (preserves_eq _ _ _ _ _ (unheld_strategy_request k ty ro) E1) as H1.
      intros Heq. injection Heq as <- <-. done. }
  apply (preserves_eq _ _ _ _ _ (unheld_recordFailure _ _ _)) in Hr.
  etrans; [apply H1|]. etrans; [apply Hr | apply IH].
Qed.

(** [PerformanceMonitor.start] starts an enabled monitor. *)
Lemma start_runs st :
  isSSR st = false -> pm_enabled (performanceMonitor st) = true ->
  activeSentinel (wl st) = None ->
  exists st',
    PerformanceMonitor_start st = (Ok tt, st') /\
    activeSentinel (wl st') = None /\
    pm_isMonitoring (performanceMonitor st') = true.
Proof.
  intros Hssr Hen Hact. unfold PerformanceMonitor_start, bind at 1, gets at 1.
  unfold bind at 1, gets at 1. rewrite Hen, Hssr. simpl. rewrite orb_false_r.
  destruct (pm_isMonitoring (performanceMonitor st)) eqn:Hm; [by exists st|].
  unfold bind at 1, updMonitor at 1, modify at 1.
  rewrite tryCatch_safe by apply safe_start_body.
  set (st1 := set_performanceMonitor _ st).
  assert (Hbody : preserves unheld_le
            (initializeBatteryMonitoring ;;
             updMonitor (set_pm_timer true) ;;
             let* initialMetrics := collectMetrics in
             updMonitor (set_pm_lastMetrics (Some initialMetrics)) ;;
             throttledEmitPerformance initialMetrics))
    by walk ltac:(unheld_prim) ltac:(auto with unheld).
  destruct (safe_start_body st1) as ([] & st2 & E).
  pose proof (preserves_eq _ _ _ _ _ Hbody E) as H.
  destruct H as (H1 & H2); [done|]. rewrite E. by exists st2.
Qed.

(** X24. A rejected request leaves the monitor running.  When a request
    made without a sentinel, on an instance with performance monitoring,
    is rejected because the strategies failed, the monitor that the request
    started keeps running; [release()] finds no sentinel and does not stop
    it, only [destroy()] does. *)
Theorem rejected_request_leaves_the_monitor_running ty opts st t st' :
  isSSR st = false -> activeSentinel (wl st) = None ->
  opt_performanceMonitoring (options (wl st)) = true ->
  pm_enabled (performanceMonitor st) = true ->
  WakeLock_request ty opts st = (Throw t, st') ->
  t = ThrownWakeLockError passiveDenied \/
  (pm_isMonitoring (performanceMonitor st') = true /\
   activeSentinel (wl st') = None /\
   WakeLock_release st' = (Ok tt, st') /\
   pm_isMonitoring (performanceMonitor (WakeLock_destroy st').2) = false).
Proof.
  intros Hssr Hact Hopt Hen H.
  apply request_rejection in H
    as [(Hssr' & _)|(_ & _ & st1 & -> & [(-> & _)|(st0 & errs & Hp & Hf & ->)])];
    [congruence|by left|].
  right.
  assert (H0 : activeSentinel (wl st0) = None /\
               pm_isMonitoring (performanceMonitor st0) = true).
  { unfold prelude, bind at 1 in Hp.
    destruct (passiveGate ty _ st) as [[[]|t] sta] eqn:Hg; [|done].
    destruct (preserves_eq _ _ _ _ _ (gate_passiveGate ty _) Hg) as (He & Hw & Hm).
    unfold startMonitoring, bind, gets in Hp. rewrite Hw, Hopt in Hp. simpl in Hp.
    destruct (start_runs sta) as (stb & Hs & Ha & Hr).
    - unfold isSSR. by rewrite He.
    - by rewrite Hm.
    - by rewrite Hw.
    - rewrite Hs in Hp. by injection Hp as <-. }
  destruct (unheld_allFail _ _ _ _ _ _ _ Hf H0) as (Ha & Hm).
  set (st' := set_trace _ st1).
  assert (Hr : WakeLock_release st' = (Ok tt, st')).
  { apply release_blocked. left. unfold activeUnreleased. simpl. by rewrite Ha. }
  split; [done|]. split; [done|]. split; [done|].
  unfold WakeLock_destroy, releaseAndWarn, tryCatch, bind. rewrite Hr.
  unfold PerformanceMonitor_stop, modify. simpl. rewrite Hm. simpl.
  by destruct (pm_battery (performanceMonitor st1)).
Qed.

Lemma rejected_request_leaves_the_monitor_running_witness :
  let st' := (WakeLock_request screen noOptions (WakeLock_new timerFailing)).2 in
  pm_isMonitoring (performanceMonitor st') = true /\ activeSentinel (wl st') = None.
Proof.
  intros st'.
  assert (E : exists t,
             WakeLock_request screen noOptions (WakeLock_new timerFailing) = (Throw t, st') /\
             t <> ThrownWakeLockError passiveDenied)
    by (eexists; split; [vm_compute; reflexivity | discriminate]).
  destruct E as (t & E & Ht).
  destruct (rejected_request_leaves_the_monitor_running screen noOptions
              (WakeLock_new timerFailing) t st' eq_refl eq_refl eq_refl eq_refl E)
    as [H|(H1 & H2 & _)]; [by destruct Ht|].
  split; [exact H1 | exact H2].
Defined.

(** ** Where the unreleased sentinels are filed *)

Global Instance fields_le_refl : Reflexive fields_le.
Proof. intros x. unfold fields_le. auto. Qed.

Global Instance fields_le_trans : Transitive fields_le.
Proof.
  intros a b c (A1 & A2 & A3 & A4) (B1 & B2 & B3 & B4). unfold fields_le.
  repeat split; try congruence. auto.
Qed.

Global Instance loose_refl only : Reflexive (loose only).
Proof. intros st. unfold loose. repeat split; auto; intros; reflexivity. Qed.

Global Instance loose_trans only : Transitive (loose only).
Proof.
  intros a b c (A1 & A2 & A3) (B1 & B2 & B3).
  split; [lia|]. split; [intros s; etrans; [apply A2 | apply B2]|].
  intros k Hk. rewrite B3, A3 by done. done.
Qed.

Lemma loose_same only st st' :
  nextKey st' = nextKey st -> sentinels st' = sentinels st ->
  strategyObjs st' = strategyObjs st -> loose only st st'.
Proof.
  intros E1 E2 E3. unfold loose, theStrategy. rewrite E1, E2, E3.
  repeat split; auto; intros; reflexivity.
Qed.

Ltac loose_prim := apply loose_same; simpl; repeat case_match; reflexivity.

Create HintDb loose discriminated.

Lemma loose_step only : preserves (loose only) step.
Proof. intros st. by apply loose_same. Qed.

Lemma loose_updSentinel only s f :
  (forall x, fields_le x (f x)) -> preserves (loose only) (updSentinel s f).
Proof.
  intros Hf st. unfold updSentinel, modify, loose, theStrategy. simpl.
  split; [done|]. split; [|done]. intros s0.
  destruct (decide (s0 = s)) as [->|Hne].
  - rewrite lookup_alter_eq. destruct (sentinels st !! s); constructor. apply Hf.
  - rewrite lookup_alter_ne by done. reflexivity.
Qed.

Lemma loose_updNative only n f : preserves (loose only) (updNative n f).
Proof. intros st. by apply loose_same. Qed.

Lemma loose_updStrategy only k f :
  (forall x, activeEntries (f x) = activeEntries x) ->
  preserves (loose only) (updStrategy k f).
Proof.
  intros Hf st. unfold updStrategy, modify, loose, theStrategy. simpl.
  split; [done|]. split; [intros; reflexivity|].
  intros k0 _. case_decide; [by rewrite Hf|done].
Qed.

Lemma loose_updStrategy_only k f : preserves (loose (Some k)) (updStrategy k f).
Proof.
  intros st. unfold updStrategy, modify, loose, theStrategy. simpl.
  split; [done|]. split; [intros; reflexivity|].
  intros k0 Hk. case_decide; [congruence|done].
Qed.

#[export] Hint Resolve loose_step loose_updSentinel loose_updNative loose_updStrategy
  loose_updStrategy_only : loose.
#[export] Hint Extern 1 (fields_le _ _) => (unfold fields_le; simpl; auto) : loose.
#[export] Hint Extern 1 (activeEntries _ = activeEntries _) => (simpl; reflexivity) : loose.

Ltac loose_walk := walk ltac:(loose_prim) ltac:(auto with loose).

Lemma loose_notifyListeners only ls : preserves (loose only) (notifyListeners ls).
Proof. loose_walk. Qed.

Lemma loose_wrappedSentinel_release s : preserves (loose None) (wrappedSentinel_release s).
Proof. loose_walk. Qed.

Lemma loose_nativeMarkReleased n : preserves (loose None) (nativeMarkReleased n).
Proof. loose_walk. Qed.

Lemma loose_addEventListener s l : preserves (loose None) (sentinel_addEventListener s l).
Proof. loose_walk. Qed.

Lemma loose_removeEventListener s l :
  preserves (loose None) (sentinel_removeEventListener s l).
Proof. loose_walk. Qed.

Lemma loose_releaseSentinel k key s : preserves (loose (Some k)) (releaseSentinel k key s).
Proof. loose_walk. Qed.

Lemma loose_entryStrategy_release k : preserves (loose (Some k)) (entryStrategy_release k).
Proof. loose_walk. Qed.

Lemma mapGet_mapDelete_ne key key' m :
  key' <> key -> mapGet key' (mapDelete key m) = mapGet key' m.
Proof.
  intros Hne. induction m as [|[k' v'] m IH]; simpl; [done|].
  case_decide; simpl.
  - subst. by rewrite decide_False.
  - case_decide; [done|]. apply IH.
Qed.

Lemma loose_sentinel only st st' s x' :
  loose only st st' -> sentinels st' !! s = Some x' ->
  exists x, sentinels st !! s = Some x /\ fields_le x x'.
Proof.
  intros (_ & L & _) Hx'. specialize (L s). rewrite Hx' in L.
  inversion L; subst. eauto.
Qed.

(** A step that leaves the maps alone keeps the sentinels filed. *)
Lemma filed_loose st st' : loose None st st' -> filed_ok st -> filed_ok st'.
Proof.
  intros HL Hf s x' Hx' Hc.
  destruct (loose_sentinel _ _ _ _ _ HL Hx') as (x & Hx & Ec & Es & Ek & Er).
  destruct HL as (Hk & _ & He).
  destruct (Hf s x Hx) as (Hlt & Hfiled); [congruence|].
  rewrite Ek, Es, He by done. split; [lia|].
  intros Hr. apply Hfiled. destruct (s_released x); [|done].
  rewrite Er in Hr by done. done.
Qed.

(** [releaseSentinel] on the entry of the sentinel *)
Lemma releaseSentinel_filed k key s st :
  mapGet key (activeEntries (theStrategy st k)) = Some s ->
  filed_ok st -> filed_ok (releaseSentinel k key s st).2.
Proof.
  intros Hentry Hf. unfold releaseSentinel, bind at 1, gets at 1.
  destruct (s_released (theSentinel st s)) eqn:Hr; [exact Hf|].
  rewrite tryFinally_state.
  set (st1 := (tryCatch (let* _ := step in ret tt) (fun _ => ret tt) st).2).
  assert (H1 : filed_ok st1 /\
               mapGet key (activeEntries (theStrategy st1 k)) = Some s).
  { unfold st1, tryCatch, bind, step, ret. simpl. split; [|done].
    eapply filed_loose; [|exact Hf]. by apply loose_same. }
  destruct H1 as (Hf1 & He1). clearbody st1.
  unfold bind at 1, updSentinel at 1, modify at 1.
  unfold bind at 1, updStrategy at 1, modify at 1.
  set (st3 := set_strategyObjs _ _).
  assert (Hf3 : filed_ok st3).
  { intros s0 x0' Hx0' Hc. unfold st3 in Hx0'. simpl in Hx0'.
    unfold st3, theStrategy. simpl.
    destruct (decide (s0 = s)) as [->|Hne].
    - rewrite lookup_alter_eq in Hx0'.
      destruct (sentinels st1 !! s) as [x|] eqn:Hx; [|done].
      injection Hx0' as <-. simpl. destruct (Hf1 s x Hx Hc) as (Hlt & _). split; done.
    - rewrite lookup_alter_ne in Hx0' by done.
      destruct (Hf1 s0 x0' Hx0' Hc) as (Hlt & Hfiled). split; [done|].
      intros Hr0. specialize (Hfiled Hr0). unfold theStrategy in Hfiled, He1.
      case_decide as Hk; [|done]. simpl.
      destruct (decide (s_key x0' = key)) as [Hkey|Hkey].
      + rewrite Hk, Hkey in Hfiled. congruence.
      + by rewrite mapGet_mapDelete_ne. }
  assert (Hrest : preserves (loose None)
            ((let* ls := gets (fun st => s_releaseListeners (theSentinel st s)) in
              notifyListeners ls) ;;
             updSentinel s (s_set_listeners []))) by loose_walk.
  eapply filed_loose; [apply Hrest | exact Hf3].
Qed.

Lemma entrySentinel_release_filed s st :
  filed_ok st -> filed_ok (entrySentinel_release s st).2.
Proof.
  intros Hf. unfold entrySentinel_release, bind at 1, gets at 1.
  destruct (s_released (theSentinel st s)) eqn:Hr; [exact Hf|].
  unfold bind at 1, gets at 1.
  destruct (mapGet (s_key (theSentinel st s))
              (activeEntries (theStrategy st (s_strategy (theSentinel st s)))))
    as [sentinel|] eqn:He; [|exact Hf].
  destruct (s_class (theSentinel st s)) eqn:Hc;
    try (by apply releaseSentinel_filed).
  apply releaseSentinel_filed; [|done].
  unfold theSentinel in *. destruct (sentinels st !! s) as [x|] eqn:Hx; [|done].
  simpl in *. destruct (Hf s x Hx) as (_ & Hfiled); [congruence|].
  by rewrite <- Hfiled.
Qed.

Lemma sentinel_release_filed s st : filed_ok st -> filed_ok (sentinel_release s st).2.
Proof.
  intros Hf. unfold sentinel_release, bind, gets.
  destruct (s_class (theSentinel st s));
    try (by apply entrySentinel_release_filed).
  eapply filed_loose; [apply loose_wrappedSentinel_release | exact Hf].
Qed.

Lemma entryStrategy_release_filed k st :
  cls (theStrategy st k) <> ScreenWakeLockStrategy ->
  store_ok st -> filed_ok st -> filed_ok (entryStrategy_release k st).2.
Proof.
  intros Hc Hs Hf.
  assert (Hact : activeOf st k = (activeEntries (theStrategy st k)).*2).
  { unfold activeOf. by destruct (cls (theStrategy st k)). }
  destruct (entryStrategy_release_all k st Hc) as (st' & E & _ & Hflag).
  { intros s Hin. rewrite Hact in Hin. destruct Hs as (_ & _ & _ & C).
    destruct (C k s Hin) as (x & Hx). by exists x. }
  pose proof (loose_entryStrategy_release k st) as HL. rewrite E in *. simpl in *.
  intros s0 x0' Hx0' Hc0.
  destruct (loose_sentinel _ _ _ _ _ HL Hx0') as (x0 & Hx0 & Ec & Es & Ek & Er).
  destruct HL as (Hk & _ & He).
  destruct (Hf s0 x0 Hx0) as (Hlt & Hfiled); [congruence|].
  rewrite Ek, Es. split; [lia|]. intros Hr0'.
  assert (Hr0 : s_released x0 = false).
  { destruct (s_released x0); [|done]. rewrite Er in Hr0' by done. done. }
  specialize (Hfiled Hr0).
  destruct (decide (s_strategy x0 = k)) as [Hk0|Hk0].
  - rewrite Hk0 in Hfiled. apply mapGet_Some_elem in Hfiled. rewrite <- Hact in Hfiled.
    destruct (Hflag s0 Hfiled) as (x & Hx & Hrx). congruence.
  - rewrite He by congruence. done.
Qed.

Global Instance keeps_filed_refl : Reflexive keeps_filed.
Proof. intros st H. exact H. Qed.

Global Instance keeps_filed_trans : Transitive keeps_filed.
Proof. intros a b c H1 H2 H. by apply H2, H1. Qed.

Lemma keeps_sentinel_release s : preserves keeps_filed (sentinel_release s).
Proof. intros st H. by apply sentinel_release_filed. Qed.

Lemma keeps_clear k : preserves keeps_filed (updStrategy k (set_activeSentinels [])).
Proof. intros st H. eapply filed_loose; [|exact H]. by apply loose_updStrategy. Qed.

Lemma strategy_release_filed k st :
  store_ok st -> filed_ok st -> filed_ok (strategy_release k st).2.
Proof.
  intros Hs Hf. unfold strategy_release, bind, gets.
  destruct (cls (theStrategy st k)) eqn:Hc;
    try (apply entryStrategy_release_filed; [congruence|done..]).
  revert Hf.
  assert (H : preserves keeps_filed (ScreenWakeLockStrategy_release k)).
  { unfold ScreenWakeLockStrategy_release.
    preserves_with ltac:(idtac); first [apply keeps_sentinel_release | apply keeps_clear]. }
  apply H.
Qed.

(** What a strategy's [request] does to the store comes to one of three
    things: nothing, a new wrapped sentinel, or a new sentinel filed. *)
Lemma filed_nothing_made st st' :
  filed_ok st -> sentinels st' = sentinels st -> (nextKey st <= nextKey st')%nat ->
  (forall k, activeEntries (theStrategy st' k) = activeEntries (theStrategy st k)) ->
  filed_ok st'.
Proof.
  intros Hf Es Hk He. apply (filed_loose st); [|done].
  split; [done|]. split; [intros s; rewrite Es; reflexivity|]. intros k _. apply He.
Qed.

Lemma filed_wrapped_made st st' n x :
  filed_ok st -> sentinels st' = <[n := x]> (sentinels st) ->
  s_class x = ScreenWakeLockStrategy -> (nextKey st <= nextKey st')%nat ->
  (forall k, activeEntries (theStrategy st' k) = activeEntries (theStrategy st k)) ->
  filed_ok st'.
Proof.
  intros Hf Es Hx Hk He s0 x0 Hx0 Hc. rewrite Es in Hx0.
  destruct (decide (s0 = n)) as [->|Hne].
  - rewrite lookup_insert_eq in Hx0. congruence.
  - rewrite lookup_insert_ne in Hx0 by done.
    destruct (Hf s0 x0 Hx0 Hc) as (Hlt & Hfiled). rewrite He. split; [lia|done].
Qed.

Lemma filed_entry_made st st' k x :
  store_ok st -> filed_ok st ->
  sentinels st' = <[nextObj st := x]> (sentinels st) ->
  s_key x = nextKey st -> s_strategy x = k -> nextKey st' = S (nextKey st) ->
  (forall k',
     activeEntries (theStrategy st' k') =
     if decide (k' = k)
     then mapSet (nextKey st) (nextObj st) (activeEntries (theStrategy st k'))
     else activeEntries (theStrategy st k')) ->
  filed_ok st'.
Proof.
  intros (A & _) Hf Es Hkey Hstr Hk He s0 x0 Hx0 Hc. rewrite Es in Hx0.
  destruct (decide (s0 = nextObj st)) as [->|Hne].
  - rewrite lookup_insert_eq in Hx0. injection Hx0 as <-.
    rewrite Hkey, Hstr, Hk, He, decide_True by done. split; [lia|].
    intros _. apply mapGet_mapSet_eq.
  - rewrite lookup_insert_ne in Hx0 by done.
    destruct (Hf s0 x0 Hx0 Hc) as (Hlt & Hfiled). rewrite Hk, He. split; [lia|].
    intros Hr. specialize (Hfiled Hr).
    case_decide; [|done]. rewrite mapGet_mapSet_ne by lia. done.
Qed.

Ltac filed_made :=
  first
    [ eapply filed_nothing_made;
      [eassumption | reflexivity | simpl; lia
      | intros; unfold theStrategy; simpl; repeat case_decide; reflexivity]
    | eapply filed_wrapped_made;
      [eassumption | simpl; reflexivity | reflexivity | simpl; lia
      | intros; unfold theStrategy; simpl; repeat case_decide; reflexivity]
    | eapply filed_entry_made;
      [eassumption | eassumption | simpl; reflexivity | reflexivity | reflexivity
      | reflexivity
      | intros; unfold theStrategy; simpl; repeat case_decide; reflexivity] ].

Lemma strategy_request_filed k ty o st :
  store_ok st -> filed_ok st -> filed_ok (strategy_request k ty o st).2.
Proof.
  intros Hs Hf. revert Hs Hf. run_request.
  destruct (cls (strategyObjs st k)); simpl;
    destruct (env_ssr (env st)); simpl;
    try (destruct (env_wakeLock (env st)); simpl);
    try (destruct (env_video (env st)); simpl);
    try (destruct (env_audio (env st)); simpl);
    destruct ty; simpl;
    repeat (match goal with |- context [env_acquire ?e ?t ?c] =>
              destruct (env_acquire e t c) as [[| |]|] end; simpl).
  all: intros Hs Hf.
  all: filed_made.
Qed.

Global Instance filed_le_refl : Reflexive filed_le.
Proof. intros st H. exact H. Qed.

Global Instance filed_le_trans : Transitive filed_le.
Proof. intros a b c H1 H2 H. by apply H2, H1. Qed.

Lemma filed_le_same st st' :
  nextObj st' = nextObj st -> nextKey st' = nextKey st -> sentinels st' = sentinels st ->
  natives st' = natives st -> strategyObjs st' = strategyObjs st -> filed_le st st'.
Proof.
  intros E1 E2 E3 E4 E5 (Hs & Hf). split.
  - apply (store_ok_tidy st); [by apply tidy_same|done].
  - apply (filed_loose st); [by apply loose_same|done].
Qed.

Lemma filed_le_intro {A} (m : M A) :
  preserves sound m ->
  (forall st, store_ok st -> filed_ok st -> filed_ok (m st).2) ->
  preserves filed_le m.
Proof.
  intros Hsound Hfiled st (Hs & Hf). split; [by apply (Hsound st)|by apply Hfiled].
Qed.

Lemma filed_le_loose {A} (m : M A) :
  preserves tidy m -> preserves (loose None) m -> preserves filed_le m.
Proof.
  intros Ht Hl. apply filed_le_intro; [by apply tidy_sound|].
  intros st _ Hf. eapply filed_loose; [apply Hl | exact Hf].
Qed.

Ltac filed_prim := apply filed_le_same; simpl; repeat case_match; reflexivity.

Create HintDb filed discriminated.

Lemma filed_step : preserves filed_le step.
Proof. intros st. by apply filed_le_same. Qed.
Lemma filed_sentinel_release s : preserves filed_le (sentinel_release s).
Proof.
  apply filed_le_intro; [apply tidy_sound, tidy_sentinel_release|].
  intros st _. apply sentinel_release_filed.
Qed.
Lemma filed_strategy_release k : preserves filed_le (strategy_release k).
Proof.
  apply filed_le_intro; [apply tidy_sound, tidy_strategy_release|].
  intros st. apply strategy_release_filed.
Qed.
Lemma filed_strategy_request k ty o : preserves filed_le (strategy_request k ty o).
Proof.
  apply filed_le_intro; [apply sound_strategy_request|].
  intros st. apply strategy_request_filed.
Qed.
Lemma filed_addEventListener s l : preserves filed_le (sentinel_addEventListener s l).
Proof. apply filed_le_loose; [apply tidy_addEventListener | apply loose_addEventListener]. Qed.
Lemma filed_removeEventListener s l : preserves filed_le (sentinel_removeEventListener s l).
Proof.
  apply filed_le_loose; [apply tidy_removeEventListener | apply loose_removeEventListener].
Qed.
Lemma filed_nativeMarkReleased n : preserves filed_le (nativeMarkReleased n).
Proof.
  apply filed_le_loose; [apply tidy_nativeMarkReleased | apply loose_nativeMarkReleased].
Qed.
#[export] Hint Resolve filed_step filed_sentinel_release filed_strategy_release
  filed_strategy_request filed_addEventListener filed_removeEventListener
  filed_nativeMarkReleased : filed.

Ltac filed_walk := walk ltac:(filed_prim) ltac:(auto with filed).

Lemma filed_tryLoop all rest ty o errs : preserves filed_le (tryLoop all rest ty o errs).
Proof. revert errs. induction rest as [|k rest IH]; intros errs; simpl; filed_walk. Qed.
#[export] Hint Resolve filed_tryLoop : filed.

Lemma filed_perform op : preserves filed_le (perform op).
Proof. destruct op; filed_walk. Qed.

(** The sentinels of every instance are filed. *)
Lemma reachable_filed st : reachable st -> store_ok st /\ filed_ok st.
Proof.
  intros (cfg & ops & ->).
  assert (H : forall st0, store_ok st0 /\ filed_ok st0 ->
                          store_ok (run ops st0) /\ filed_ok (run ops st0)).
  { induction ops as [|op ops IH]; intros st0 H0; simpl; [done|].
    apply IH. by apply (filed_perform op st0). }
  apply H. split.
  - apply reachable_store_ok. by exists cfg, [].
  - intros s x Hx. simpl in Hx. by rewrite lookup_empty in Hx.
Qed.

(** ** The held sentinel is a sentinel of the store *)

Lemma stored_le st st' :
  orch_le st st' -> sound st st' -> store_ok st -> adopted_stored st -> adopted_stored st'.
Proof.
  intros (_ & _ & A) Hsound Hs H s Hact.
  destruct A as [A|A]; [|congruence]. rewrite A in Hact.
  by apply (Hsound Hs), H.
Qed.

Lemma active_stored st k s :
  store_ok st -> s ∈ activeOf st k -> is_Some (sentinels st !! s).
Proof.
  intros (_ & _ & B & C) Hin. unfold activeOf in Hin.
  destruct (cls (theStrategy st k)); try (by apply (C k));
    destruct (B k s Hin) as (x & Hx & _); eauto.
Qed.

Lemma request_stored ty opts st :
  store_ok st -> adopted_stored st -> adopted_stored (WakeLock_request ty opts st).2.
Proof.
  intros Hs Hok. destruct (isSSR st) eqn:Hssr.
  { by rewrite request_ssr. }
  destruct (activeUnreleased st) as [s|] eqn:Hact.
  { by rewrite (request_existing _ _ _ s). }
  assert (Hprelude : forall ro, preserves sound (prelude ty ro)).
  { intros ro. apply tidy_sound. unfold prelude. tidy_tac. }
  assert (Htry : forall ro, preserves sound (tryStrategies ty ro)).
  { intros ro. unfold tryStrategies. sound_tac. }
  destruct (WakeLock_request ty opts st) as [r st'] eqn:H. simpl.
  apply request_outcome in H as [(t & st1 & -> & -> & H)|(u & st0 & s & st1 & -> & Hp & Ht & Ha)];
    [| |done..].
  - assert (H1 : store_ok st1 /\ adopted_stored st1).
    { destruct H as [H|(u & st0 & Hp & Ht)].
      + pose proof (preserves_eq _ _ _ _ _ (orch_prelude ty _) H) as L.
        pose proof (preserves_eq _ _ _ _ _ (Hprelude _) H) as S.
        split; [by apply S | by apply (stored_le st)].
      + pose proof (preserves_eq _ _ _ _ _ (orch_prelude ty _) Hp) as L0.
        pose proof (preserves_eq _ _ _ _ _ (Hprelude _) Hp) as S0.
        pose proof (preserves_eq _ _ _ _ _ (orch_tryStrategies ty _) Ht) as L1.
        pose proof (preserves_eq _ _ _ _ _ (Htry _) Ht) as S1.
        assert (Hs0 : store_ok st0) by (by apply S0).
        split; [by apply S1|]. apply (stored_le st0); [done..|]. by apply (stored_le st). }
    by destruct H1.
  - pose proof (preserves_eq _ _ _ _ _ (Hprelude _) Hp) as S0.
    pose proof (preserves_eq _ _ _ _ _ (Htry _) Ht) as S1.
    assert (Hs1 : store_ok st1) by (by apply S1, S0).
    unfold tryStrategies, bind, gets in Ht.
    apply tryLoop_Ok in Ht as (k & st2 & _ & Ht).
    apply attempt_Ok in Ht as (_ & _ & _ & Hin & _).
    pose proof (active_stored st1 k s Hs1 Hin) as Hstored.
    destruct (adopt_facts ty s st1) as (st3 & Ha' & _ & _ & Hact' & _).
    rewrite Ha' in Ha. injection Ha as <-.
    pose proof (tidy_adopt ty s st1) as T. rewrite Ha' in T. simpl in T.
    intros s' Hs'. rewrite Hact' in Hs'. injection Hs' as <-.
    by apply (released_tidy st1 st3 s T).
Qed.

Lemma reachable_stored st : reachable st -> adopted_stored st.
Proof.
  intros (cfg & ops & ->).
  assert (H : forall st0, store_ok st0 -> adopted_stored st0 -> adopted_stored (run ops st0)).
  { induction ops as [|op ops IH]; intros st0 Hs H0; simpl; [done|].
    apply IH; [by apply (sound_perform op st0)|].
    destruct op; try (by apply request_stored);
      (apply (stored_le st0); [apply orch_perform; discriminate | apply sound_perform | done..]). }
  apply H; [apply reachable_store_ok; by exists cfg, []|]. intros s Hs. done.
Qed.

(** ** Releasing a sentinel releases it *)

Lemma sentinel_release_releases s st :
  filed_ok st -> is_Some (sentinels st !! s) ->
  released (sentinel_release s st).2 s = true.
Proof.
  intros Hf [x Hx].
  assert (Ht : forall w, (w = true -> s_class x = ScreenWakeLockStrategy) -> tracked_ok w st s).
  { intros w Hw. by exists x. }
  assert (Es : theSentinel st s = x) by (unfold theSentinel; by rewrite Hx).
  unfold sentinel_release, bind, gets. rewrite Es.
  destruct (s_class x) eqn:Hc.
  { apply flagged_released, (wrappedSentinel_release_flags true). by apply Ht. }
  all: unfold entrySentinel_release, bind at 1, gets at 1; rewrite Es.
  all: destruct (s_released x) eqn:Hr;
    [unfold ret; cbn [snd]; unfold released; rewrite Es, Hc; done|].
  all: destruct (Hf s x Hx) as (_ & Hfiled); [congruence|].
  all: unfold bind, gets; rewrite (Hfiled Hr), ?Hc.
  all: apply flagged_released, (releaseSentinel_flags false); by apply Ht.
Qed.

Lemma after_first R `{!Reflexive R, !Transitive R} {A B}
    (m : M A) (K : A -> M B) (H : Thrown -> M B) (F : M unit) st :
  (forall a, preserves R (K a)) -> (forall t, preserves R (H t)) -> preserves R F ->
  R (m st).2 (tryFinally (tryCatch (bind m K) H) F st).2.
Proof.
  intros HK HH HF. rewrite tryFinally_state.
  etrans; [|apply HF]. unfold tryCatch, bind.
  destruct (m st) as [[a|t] st1]; simpl.
  - pose proof (HK a st1) as Hk.
    destruct (K a st1) as [[b|t] st2]; simpl in *; [done|].
    etrans; [exact Hk | apply HH].
  - apply HH.
Qed.

(** X25. Releasing a sentinel leaves it released, whichever strategy made
    it and whatever the platform does: also when the platform's own
    release rejects, and also when a release listener throws.  No lock is
    acquired on the way. *)
Theorem released_after_its_release st s :
  reachable st -> is_Some (sentinels st !! s) ->
  released (sentinel_release s st).2 s = true /\
  requestsOf (trace (sentinel_release s st).2) = requestsOf (trace st) /\
  forall ops, released (run ops (sentinel_release s st).2) s = true.
Proof.
  intros Hr Hin. destruct (reachable_filed st Hr) as (_ & Hf).
  pose proof (sentinel_release_releases s st Hf Hin) as Hrel.
  split; [done|]. split; [apply (noreq_sentinel_release s st)|].
  intros ops.
  assert (Hr' : reachable (sentinel_release s st).2).
  { replace (sentinel_release s st).2 with (perform (OpSentinelRelease s) st).2 by done.
    by apply reachable_perform. }
  destruct (released_tidy st _ s (tidy_sentinel_release s st) Hin) as (Hin' & _).
  by destruct (released_never_reverts _ ops s Hr' Hin' Hrel) as (_ & H).
Qed.

Lemma released_after_its_release_witness :
  released screenHeldRejecting 3%nat = false /\
  released (sentinel_release 3%nat screenHeldRejecting).2 3%nat = true.
Proof.
  split; [by vm_compute|].
  assert (Hr : reachable screenHeldRejecting) by apply reachable_run, reachable_new.
  assert (Hin : is_Some (sentinels screenHeldRejecting !! 3%nat)) by (vm_compute; eauto).
  destruct (released_after_its_release screenHeldRejecting 3%nat Hr Hin) as (H & _).
  exact H.
Defined.

(** X26. [release()] releases the lock that is held: for every instance
    that holds an unreleased sentinel, after [release()] that sentinel reads
    released, and stays so whatever happens next; the instance holds no
    sentinel, [getStatus()] reports no active lock, and no lock was
    acquired on the way. *)
Theorem release_releases_the_held_lock st s :
  reachable st -> activeUnreleased st = Some s ->
  let st' := (WakeLock_release st).2 in
  released st' s = true /\
  (forall ops, released (run ops st') s = true) /\
  activeSentinel (wl st') = None /\
  status_isActive (getStatus st') = false /\
  requestsOf (trace st') = requestsOf (trace st).
Proof.
  intros Hr Hact st'.
  destruct (reachable_filed st Hr) as (Hs & Hf).
  pose proof (reachable_idle st Hr) as Hidle.
  assert (Ha : activeSentinel (wl st) = Some s /\ released st s = false).
  { unfold activeUnreleased in Hact. destruct (activeSentinel (wl st)) as [s0|]; [|done].
    destruct (released st s0) eqn:E; [done|]. by injection Hact as <-. }
  destruct Ha as (Ha & Hrel).
  pose proof (reachable_stored st Hr s Ha) as Hin.
  set (st1 := set_wl (wl_set_isReleasing true (wl st)) st).
  assert (E : st' =
    (tryFinally
       (tryCatch
          (sentinel_release s ;;
           let* now := gets (fun st => activeSentinel (wl st)) in
           match now with
           | None => throw nullTypeError
           | Some s0 =>
               let* ty := gets (fun st => s_type (theSentinel st s0)) in
               emit (disabled ty "manual-release")
           end)
          (fun e => emit (error (releaseError e))))
       (setActiveSentinel None ;; setCurrentStrategy None ;; setIsReleasing false ;;
        PerformanceMonitor_stop) st1).2).
  { unfold st', WakeLock_release, bind at 1, gets at 1. rewrite Ha.
    unfold bind at 1, gets at 1. unfold bind at 1, gets at 1. rewrite Hrel, Hidle. simpl.
    unfold bind at 1, setIsReleasing at 1, modify at 1. done. }
  assert (Hf1 : filed_ok st1) by (eapply filed_loose; [|exact Hf]; by apply loose_same).
  pose proof (sentinel_release_releases s st1 Hf1 Hin) as Hrel1.
  assert (HT : tidy (sentinel_release s st1).2 st').
  { rewrite E. apply (after_first tidy); intros; tidy_tac. }
  destruct (released_tidy st1 _ s (tidy_sentinel_release s st1) Hin) as (Hin1 & _).
  destruct (released_tidy _ _ s HT Hin1) as (Hin' & Hkeep).
  assert (Hrel' : released st' s = true) by auto.
  assert (Hr' : reachable st').
  { replace st' with (perform OpRelease st).2 by done. by apply reachable_perform. }
  destruct (release_resolves_and_clears st) as (st2 & E2 & Hc).
  destruct Hc as (A & _); [by rewrite Hact | done |].
  assert (Est : st2 = st') by (unfold st'; by rewrite E2). subst st2.
  split; [done|].
  split; [intros ops; by destruct (released_never_reverts _ ops s Hr' Hin' Hrel') as (_ & H)|].
  split; [done|]. split; [unfold getStatus; simpl; by rewrite A|].
  apply (noreq_release st).
Qed.

Lemma release_releases_the_held_lock_witness :
  released screenHeldRejecting 3%nat = false /\
  released (WakeLock_release screenHeldRejecting).2 3%nat = true.
Proof.
  split; [by vm_compute|].
  assert (Hr : reachable screenHeldRejecting) by apply reachable_run, reachable_new.
  assert (Ha : activeUnreleased screenHeldRejecting = Some 3%nat) by (vm_compute; reflexivity).
  pose proof (release_releases_the_held_lock screenHeldRejecting 3%nat Hr Ha) as H.
  cbv zeta in H. destruct H as (H & _). exact H.
Defined.

(** ** How the wrappers are wired *)

Global Instance keeps_wired_refl : Reflexive keeps_wired.
Proof. intros st H. exact H. Qed.

Global Instance keeps_wired_trans : Transitive keeps_wired.
Proof. intros a b c H1 H2 H. by apply H2, H1. Qed.

Lemma keeps_wired_same st st' :
  sentinels st' = sentinels st -> natives st' = natives st -> keeps_wired st st'.
Proof. intros E1 E2 (A & B). unfold wired_ok. by rewrite E1, E2. Qed.

Ltac wired_prim := apply keeps_wired_same; simpl; repeat case_match; reflexivity.

Create HintDb wired discriminated.

Lemma wired_step : preserves keeps_wired step.
Proof. intros st. by apply keeps_wired_same. Qed.

Lemma wired_updSentinel s f :
  (forall x, s_class (f x) = s_class x /\ s_native (f x) = s_native x) ->
  preserves keeps_wired (updSentinel s f).
Proof.
  intros Hf st (A & B). unfold updSentinel, modify. split; simpl; [|done].
  intros s0 x0 Hx0 Hc.
  apply lookup_alter_Some in Hx0 as [(-> & x & Hx & ->)|(Hne & Hx0)]; [|by apply (A s0 x0)].
  destruct (Hf x) as (Ec & En). rewrite En. apply (A s0 x Hx). congruence.
Qed.

Lemma wired_updNative n f :
  (forall y w, NativeAnon w ∈ n_listeners (f y) -> NativeAnon w ∈ n_listeners y) ->
  preserves keeps_wired (updNative n f).
Proof.
  intros Hf st (A & B). unfold updNative, modify. split; simpl; [done|].
  intros n0 y0 w Hy0 Hw.
  apply lookup_alter_Some in Hy0 as [(-> & y & Hy & ->)|(Hne & Hy0)]; [|by apply (B n0 y0)].
  apply (B n0 y w Hy). by apply Hf.
Qed.

Lemma anon_setAdd_forward w l ls :
  NativeAnon w ∈ setAdd (NativeForward l) ls -> NativeAnon w ∈ ls.
Proof.
  unfold setAdd. case_bool_decide; [done|].
  intros Hin. apply elem_of_app in Hin as [Hin|Hin]; [done|].
  by apply list_elem_of_singleton in Hin.
Qed.

Lemma elem_setDelete_any {A} `{EqDecision A} (x y : A) l : x ∈ setDelete y l -> x ∈ l.
Proof.
  induction l as [|z l IH]; simpl; [done|].
  case_decide; [right; auto|].
  intros Hx. apply elem_of_cons in Hx as [->|Hx]; [by left|right; auto].
Qed.

#[export] Hint Resolve wired_step wired_updSentinel wired_updNative : wired.
#[export] Hint Extern 1 (_ /\ _) => (simpl; split; reflexivity) : wired.
#[export] Hint Extern 1 (NativeAnon _ ∈ _) =>
  (simpl in *; first [ eassumption
                     | eapply anon_setAdd_forward; eassumption
                     | eapply elem_setDelete_any; eassumption ]) : wired.

Ltac wired_walk := walk ltac:(wired_prim) ltac:(auto with wired).

Lemma wired_made st st' :
  wired_ok st ->
  (sentinels st' = sentinels st /\ natives st' = natives st) \/
  (exists x, sentinels st' = <[nextObj st := x]> (sentinels st) /\
             s_class x <> ScreenWakeLockStrategy /\ natives st' = natives st) \/
  (exists n x y,
     sentinels st' = <[S n := x]> (sentinels st) /\ s_native x = n /\
     natives st' !! n = Some y /\
     (forall w, NativeAnon w ∈ n_listeners y -> w = S n) /\
     (forall n', n' <> n -> natives st' !! n' = natives st !! n')) ->
  wired_ok st'.
Proof.
  intros (A & B) [(Es & En)|[(x & Es & Hc & En)|(n & x & y & Es & Hx & Hy & Hl & En)]].
  - unfold wired_ok. by rewrite Es, En.
  - split; [|by rewrite En]. intros s0 x0 Hx0 Hc0. rewrite Es in Hx0.
    destruct (decide (s0 = nextObj st)) as [->|Hne].
    + rewrite lookup_insert_eq in Hx0. congruence.
    + rewrite lookup_insert_ne in Hx0 by done. by apply (A s0 x0).
  - split.
    + intros s0 x0 Hx0 Hc0. rewrite Es in Hx0.
      destruct (decide (s0 = S n)) as [->|Hne].
      * rewrite lookup_insert_eq in Hx0. injection Hx0 as <-. by rewrite Hx.
      * rewrite lookup_insert_ne in Hx0 by done. by apply (A s0 x0).
    + intros n0 y0 w Hy0 Hw.
      destruct (decide (n0 = n)) as [->|Hne].
      * rewrite Hy in Hy0. injection Hy0 as <-. by apply Hl.
      * rewrite En in Hy0 by done. by apply (B n0 y0 w).
Qed.

Lemma elem_setAdd_nil {A} `{EqDecision A} (x y : A) : x ∈ setAdd y [] -> x = y.
Proof.
  unfold setAdd. case_bool_decide as H; [by apply elem_of_nil in H|].
  simpl. by intros ->%list_elem_of_singleton.
Qed.

Lemma wired_strategy_request k ty o : preserves keeps_wired (strategy_request k ty o).
Proof.
  intros st Hw. revert Hw. run_request.
  destruct (cls (strategyObjs st k)); simpl;
    destruct (env_ssr (env st)); simpl;
    try (destruct (env_wakeLock (env st)); simpl);
    try (destruct (env_video (env st)); simpl);
    try (destruct (env_audio (env st)); simpl);
    destruct ty; simpl;
    repeat (match goal with |- context [env_acquire ?e ?t ?c] =>
              destruct (env_acquire e t c) as [[| |]|] end; simpl).
  all: intros Hw; apply (wired_made st); [exact Hw|]; simpl.
  all: first
    [ left; split; reflexivity
    | right; left; eexists; split; [reflexivity|]; split; [simpl; discriminate | reflexivity]
    | right; right; eexists _, _, _; split; [reflexivity|]; split; [reflexivity|];
      split; [rewrite lookup_alter_eq, lookup_insert_eq; reflexivity|];
      split; [simpl; intros w Hin; by apply elem_setAdd_nil in Hin; injection Hin|];
      intros n' Hne; rewrite lookup_alter_ne, lookup_insert_ne by done; reflexivity ].
Qed.
#[export] Hint Resolve wired_strategy_request : wired.

Lemma wired_tryLoop all rest ty o errs : preserves keeps_wired (tryLoop all rest ty o errs).
Proof. revert errs. induction rest as [|k rest IH]; intros errs; simpl; wired_walk. Qed.
#[export] Hint Resolve wired_tryLoop : wired.

Lemma wired_perform op : preserves keeps_wired (perform op).
Proof. destruct op; wired_walk. Qed.

Lemma reachable_wired st : reachable st -> wired_ok st.
Proof.
  intros (cfg & ops & ->).
  assert (H : forall st0, wired_ok st0 -> wired_ok (run ops st0)).
  { induction ops as [|op ops IH]; intros st0 H0; simpl; [done|].
    apply IH. by apply (wired_perform op st0). }
  apply H. split.
  - intros s x Hx. simpl in Hx. by rewrite lookup_empty in Hx.
  - intros n y w Hy. simpl in Hy. by rewrite lookup_empty in Hy.
Qed.

(** ** What a release spares *)

Global Instance spares_refl s1 n1 : Reflexive (spares s1 n1).
Proof. intros st. unfold spares. auto. Qed.

Global Instance spares_trans s1 n1 : Transitive (spares s1 n1).
Proof.
  intros a b c (A1 & A2 & A3 & A4 & A5) (B1 & B2 & B3 & B4 & B5). unfold spares.
  split; [congruence|]. split; [intros n Hn; rewrite B2, A2 by done; done|].
  split; [intros k; rewrite B3, A3; done|]. split; auto.
Qed.

Lemma spares_same s1 n1 st st' :
  sentinels st' = sentinels st -> natives st' = natives st ->
  strategyObjs st' = strategyObjs st -> spares s1 n1 st st'.
Proof. intros E1 E2 E3. unfold spares, theStrategy. rewrite E1, E2, E3. auto. Qed.

Ltac spares_prim := apply spares_same; simpl; repeat case_match; reflexivity.

Create HintDb spares discriminated.

Lemma spares_step s1 n1 : preserves (spares s1 n1) step.
Proof. intros st. by apply spares_same. Qed.

Lemma spares_updSentinel s1 n1 w f : w <> s1 -> preserves (spares s1 n1) (updSentinel w f).
Proof.
  intros Hne st. unfold updSentinel, modify, spares, theStrategy. simpl.
  rewrite lookup_alter_ne by done. auto.
Qed.

Lemma spares_updNative s1 n1 n f : Some n <> n1 -> preserves (spares s1 n1) (updNative n f).
Proof.
  intros Hne st. unfold updNative, modify, spares, theStrategy. simpl.
  split; [done|]. split; [|auto]. intros n0 ->. rewrite lookup_alter_ne; [done|congruence].
Qed.

Lemma elem_setDelete_ne {A} `{EqDecision A} (x y : A) l : x ∈ l -> x <> y -> x ∈ setDelete y l.
Proof.
  intros Hin Hne. induction l as [|z l IH]; simpl; [done|].
  case_decide; apply elem_of_cons in Hin as [->|Hin]; try done.
  - by apply IH.
  - by left.
  - right. by apply IH.
Qed.

Lemma spares_untrack s1 n1 k w :
  w <> s1 ->
  preserves (spares s1 n1)
    (updStrategy k (fun k0 => set_activeSentinels (setDelete w (activeSentinels k0)) k0)).
Proof.
  intros Hne st. unfold updStrategy, modify, spares, theStrategy. simpl.
  split; [done|]. split; [done|]. split; [intros k0; by case_decide|].
  split; intros k0; case_decide; simpl; auto.
  intros Hin. by apply elem_setDelete_ne.
Qed.

#[export] Hint Resolve spares_step spares_updSentinel spares_updNative spares_untrack : spares.

Ltac spares_walk := walk ltac:(spares_prim) ltac:(auto with spares).

Lemma spares_callListener s1 n1 l : preserves (spares s1 n1) (callListener l).
Proof. spares_walk. Qed.

Lemma spares_notifyListeners s1 n1 ls : preserves (spares s1 n1) (notifyListeners ls).
Proof. spares_walk. Qed.

Lemma spares_nativeAnon s1 n1 w : w <> s1 -> preserves (spares s1 n1) (nativeAnon w).
Proof. intros Hne. spares_walk. Qed.
#[export] Hint Resolve spares_callListener spares_notifyListeners : spares.

Lemma forEach_in R `{!Reflexive R, !Transitive R} {A} (f : A -> M unit) xs st :
  (forall x, x ∈ xs -> preserves R (f x)) -> R st (forEach f xs st).2.
Proof.
  revert st. induction xs as [|x xs IH]; intros st H; simpl; [reflexivity|].
  unfold bind. pose proof (H x (list_elem_of_here _ _) st) as Hx.
  destruct (f x st) as [[[]|t] st1]; simpl in *; [|done].
  etrans; [exact Hx|]. apply IH. intros y Hy. apply H. by right.
Qed.

Lemma nativeMarkReleased_spares s1 n1 n st :
  Some n <> n1 ->
  (forall w, NativeAnon w ∈ n_listeners (theNative st n) -> w <> s1) ->
  spares s1 n1 st (nativeMarkReleased n st).2.
Proof.
  intros Hn Hw. unfold nativeMarkReleased, bind at 1, gets at 1.
  destruct (n_released (theNative st n)); [reflexivity|].
  unfold bind at 1.
  pose proof (spares_updNative s1 n1 n (n_set_released true) Hn st) as H1.
  destruct (updNative n (n_set_released true) st) as [[[]|t] st1] eqn:E1; [|done].
  simpl in H1. etrans; [exact H1|].
  assert (El : n_listeners (theNative st1 n) = n_listeners (theNative st n)).
  { unfold updNative, modify in E1. injection E1 as <-. unfold theNative. simpl.
    rewrite lookup_alter_eq. by destruct (natives st !! n). }
  unfold bind, gets. destruct (env_nativeFires (env st1)); [|reflexivity]. simpl.
  unfold nativeDispatch, bind, gets. rewrite El.
  apply forEach_in; [apply _..|]. intros [w|l] Hin.
  - apply spares_nativeAnon. by apply Hw.
  - apply preserves_tryCatch; [apply _.. | apply spares_callListener |].
    intros t. apply preserves_ret. apply _.
Qed.

Lemma native_release_spares s1 n1 n st :
  Some n <> n1 ->
  (forall w, NativeAnon w ∈ n_listeners (theNative st n) -> w <> s1) ->
  spares s1 n1 st (native_release n st).2.
Proof.
  intros Hn Hw. unfold native_release, bind at 1, step at 1.
  unfold bind at 1, gets at 1. set (st1 := set_tick _ st).
  assert (H1 : spares s1 n1 st st1) by (by apply spares_same).
  destruct (env_nativeRelease (env st1) (tick st)); [exact H1|].
  etrans; [exact H1|]. by apply nativeMarkReleased_spares.
Qed.

Lemma wrappedSentinel_release_spares s1 n1 s st :
  s <> s1 -> Some (s_native (theSentinel st s)) <> n1 ->
  (forall w, NativeAnon w ∈ n_listeners (theNative st (s_native (theSentinel st s))) ->
             w <> s1) ->
  spares s1 n1 st (wrappedSentinel_release s st).2.
Proof.
  intros Hs Hn Hw. unfold wrappedSentinel_release, bind at 1, gets at 1.
  destruct (s_released (theSentinel st s)); [reflexivity|].
  rewrite tryFinally_state. etrans; [by apply native_release_spares|].
  assert (H : forall k, preserves (spares s1 n1)
            (updSentinel s (s_set_released true) ;;
             updStrategy k
               (fun k0 => set_activeSentinels (setDelete s (activeSentinels k0)) k0) ;;
             (let* ls := gets (fun st => s_releaseListeners (theSentinel st s)) in
              notifyListeners ls) ;;
             updSentinel s (s_set_listeners []))).
  { intros k. preserves_with ltac:(spares_prim); auto with spares. }
  apply H.
Qed.

Lemma releaseSentinel_spares s1 n1 k key s st :
  s <> s1 -> mapGet key (activeEntries (theStrategy st k)) = Some s ->
  spares s1 n1 st (releaseSentinel k key s st).2.
Proof.
  intros Hs Hentry. unfold releaseSentinel, bind at 1, gets at 1.
  destruct (s_released (theSentinel st s)); [reflexivity|].
  rewrite tryFinally_state.
  set (st1 := (tryCatch (let* _ := step in ret tt) (fun _ => ret tt) st).2).
  assert (H1 : spares s1 n1 st st1) by (by apply spares_same).
  assert (He1 : mapGet key (activeEntries (theStrategy st1 k)) = Some s) by done.
  clearbody st1. etrans; [exact H1|].
  unfold bind at 1.
  pose proof (spares_updSentinel s1 n1 s (s_set_released true) Hs st1) as H2.
  destruct (updSentinel s (s_set_released true) st1) as [[[]|t] st2] eqn:E2; [|done].
  simpl in H2. etrans; [exact H2|].
  assert (He2 : mapGet key (activeEntries (theStrategy st2 k)) = Some s).
  { unfold updSentinel, modify in E2. by injection E2 as <-. }
  unfold bind at 1, updStrategy at 1, modify at 1.
  set (st3 := set_strategyObjs _ st2).
  assert (H3 : spares s1 n1 st2 st3).
  { unfold spares, st3, theStrategy. simpl. split; [done|]. split; [done|].
    split; [intros k0; by case_decide|]. split; [intros k0; by case_decide|].
    intros k0 key0 Hg. case_decide as Hk; [|done]. simpl. subst k0.
    rewrite mapGet_mapDelete_ne; [done|]. intros ->. unfold theStrategy in He2. congruence. }
  etrans; [exact H3|].
  assert (H : preserves (spares s1 n1)
            ((let* ls := gets (fun st => s_releaseListeners (theSentinel st s)) in
              notifyListeners ls) ;;
             updSentinel s (s_set_listeners [])))
    by (preserves_with ltac:(spares_prim); auto with spares).
  apply H.
Qed.

Lemma sentinel_release_spares s1 n1 s st :
  filed_ok st -> wired_ok st -> s <> s1 -> is_Some (sentinels st !! s) ->
  (s_class (theSentinel st s) = ScreenWakeLockStrategy ->
   Some (s_native (theSentinel st s)) <> n1) ->
  spares s1 n1 st (sentinel_release s st).2.
Proof.
  intros Hf (W1 & W2) Hs [x Hx] Hn.
  assert (Es : theSentinel st s = x) by (unfold theSentinel; by rewrite Hx).
  rewrite Es in Hn. unfold sentinel_release, bind, gets. rewrite Es.
  destruct (s_class x) eqn:Hc.
  { apply wrappedSentinel_release_spares; rewrite ?Es; [done|by apply Hn|].
    intros w Hin. unfold theNative in Hin.
    destruct (natives st !! s_native x) as [y|] eqn:Hy; [|by apply elem_of_nil in Hin].
    rewrite (W2 _ y w Hy Hin). rewrite <- (W1 s x Hx Hc). done. }
  all: unfold entrySentinel_release, bind, gets; rewrite Es.
  all: destruct (s_released x) eqn:Hr; [reflexivity|].
  all: destruct (Hf s x Hx) as (_ & Hfiled); [congruence|].
  all: rewrite (Hfiled Hr), ?Hc.
  all: by apply releaseSentinel_spares; [done | apply Hfiled].
Qed.

Lemma spares_released s1 n1 st st' :
  spares s1 n1 st st' ->
  (s_class (theSentinel st s1) = ScreenWakeLockStrategy ->
   n1 = Some (s_native (theSentinel st s1))) ->
  released st' s1 = released st s1.
Proof.
  intros (A1 & A2 & _) Hn.
  assert (Es : theSentinel st' s1 = theSentinel st s1) by (unfold theSentinel; by rewrite A1).
  unfold released. rewrite Es. destruct (s_class (theSentinel st s1)) eqn:Hc; [|done..].
  unfold theNative. by rewrite (A2 _ (Hn eq_refl)).
Qed.

Lemma spares_tracked s1 n1 st st' k :
  spares s1 n1 st st' ->
  match cls (theStrategy st k) with
  | ScreenWakeLockStrategy => s1 ∈ activeSentinels (theStrategy st k)
  | _ => exists key, mapGet key (activeEntries (theStrategy st k)) = Some s1
  end ->
  s1 ∈ activeOf st' k.
Proof.
  intros (_ & _ & A3 & A4 & A5) H. unfold activeOf. rewrite A3.
  destruct (cls (theStrategy st k)); [by apply A4|..];
    destruct H as (key & Hg); by apply (mapGet_Some_elem key), A5.
Qed.

Lemma spares_stop s1 n1 : preserves (spares s1 n1) PerformanceMonitor_stop.
Proof. spares_walk. Qed.

Lemma release_unfolds st s :
  activeSentinel (wl st) = Some s -> released st s = false -> isReleasing (wl st) = false ->
  (WakeLock_release st).2 =
  (tryFinally
     (tryCatch
        (sentinel_release s ;;
         let* now := gets (fun st => activeSentinel (wl st)) in
         match now with
         | None => throw nullTypeError
         | Some s0 =>
             let* ty := gets (fun st => s_type (theSentinel st s0)) in
             emit (disabled ty "manual-release")
         end)
        (fun e => emit (error (releaseError e))))
     (setActiveSentinel None ;; setCurrentStrategy None ;; setIsReleasing false ;;
      PerformanceMonitor_stop)
     (set_wl (wl_set_isReleasing true (wl st)) st)).2.
Proof.
  intros Ha Hrel Hidle. unfold WakeLock_release, bind at 1, gets at 1. rewrite Ha.
  unfold bind at 1, gets at 1. unfold bind at 1, gets at 1. rewrite Hrel, Hidle. simpl.
  unfold bind at 1, setIsReleasing at 1, modify at 1. done.
Qed.

Lemma held_unreleased st s :
  activeUnreleased st = Some s -> activeSentinel (wl st) = Some s /\ released st s = false.
Proof.
  unfold activeUnreleased. destruct (activeSentinel (wl st)) as [s0|]; [|done].
  destruct (released st s0) eqn:E; [done|]. by intros [= <-].
Qed.

Lemma release_spares s1 n1 s st :
  reachable st -> activeUnreleased st = Some s -> s <> s1 ->
  (s_class (theSentinel st s) = ScreenWakeLockStrategy ->
   Some (s_native (theSentinel st s)) <> n1) ->
  spares s1 n1 st (WakeLock_release st).2.
Proof.
  intros Hr Hact Hne Hn. destruct (held_unreleased st s Hact) as (Ha & Hrel).
  destruct (reachable_filed st Hr) as (_ & Hf).
  pose proof (reachable_wired st Hr) as Hw.
  rewrite (release_unfolds st s Ha Hrel (reachable_idle st Hr)).
  set (st1 := set_wl (wl_set_isReleasing true (wl st)) st).
  assert (H1 : spares s1 n1 st st1) by (by apply spares_same).
  etrans; [exact H1|].
  assert (Hf1 : filed_ok st1) by (eapply filed_loose; [|exact Hf]; by apply loose_same).
  assert (Hw1 : wired_ok st1) by (by apply (keeps_wired_same st st1)).
  etrans; [apply (sentinel_release_spares s1 n1 s st1 Hf1 Hw1 Hne);
           [exact (reachable_stored st Hr s Ha) | exact Hn]|].
  apply (after_first (spares s1 n1)).
  - intros []. spares_walk.
  - intros t. spares_walk.
  - spares_walk.
Qed.

Lemma release_lets_go st s :
  reachable st -> activeUnreleased st = Some s -> released (WakeLock_release st).2 s = true.
Proof.
  intros Hr Hact. destruct (held_unreleased st s Hact) as (Ha & Hrel).
  destruct (reachable_filed st Hr) as (_ & Hf).
  pose proof (reachable_stored st Hr s Ha) as Hin.
  rewrite (release_unfolds st s Ha Hrel (reachable_idle st Hr)).
  set (st1 := set_wl (wl_set_isReleasing true (wl st)) st).
  assert (Hf1 : filed_ok st1) by (eapply filed_loose; [|exact Hf]; by apply loose_same).
  pose proof (sentinel_release_releases s st1 Hf1 Hin) as Hrel1.
  destruct (released_tidy st1 _ s (tidy_sentinel_release s st1) Hin) as (Hin1 & _).
  refine (proj2 (released_tidy _ _ s _ Hin1) Hrel1).
  apply (after_first tidy); intros; tidy_tac.
Qed.

Lemma attempt_two k ty o st s st' :
  attempt k ty o st = (Ok s, st') ->
  exists s1, s1 <> s /\ alive st' k s1 /\ alive st' k s /\ currentStrategy (wl st') = Some k.
Proof.
  unfold attempt, measureStrategy. unfold bind at 1, gets at 1. intros H.
  rewrite bind_assoc in H.
  apply bind_inv in H as [(s1 & st1 & H1 & H)|(t & _ & ?)]; [|done].
  unfold bind at 1, ret at 1 in H.
  apply bind_inv in H as [(s2 & st2 & H2 & H)|(t & _ & ?)]; [|done].
  unfold setCurrentStrategy, bind, modify, ret in H. injection H as <- <-.
  apply strategy_request_Ok in H1 as (A1 & _).
  pose proof (strategy_request_frame k ty o st1) as F. rewrite H2 in F. simpl in F.
  apply strategy_request_Ok in H2 as (A2 & L2 & _).
  assert (Hlt : (s1 < nextObj st1)%nat) by (by destruct A1).
  apply (alive_frame _ _ _ _ F) in A1.
  exists s1. split; [lia|]. done.
Qed.

Lemma request_makes_two ty opts st s st' :
  activeUnreleased st = None ->
  WakeLock_request ty opts st = (Ok s, st') ->
  exists k s1,
    s1 <> s /\ k ∈ strategies (wl st) /\ activeUnreleased st' = Some s /\
    released st' s1 = false /\
    match cls (theStrategy st' k) with
    | ScreenWakeLockStrategy => s1 ∈ activeSentinels (theStrategy st' k)
    | _ => exists key, mapGet key (activeEntries (theStrategy st' k)) = Some s1
    end.
Proof.
  intros Hact H.
  destruct (isSSR st) eqn:Hssr; [by rewrite request_ssr in H|].
  apply request_outcome in H as [(t & st1 & ? & _)|(u & st0 & s' & st1 & Hs & Hp & Ht & Ha)];
    [done| |done..].
  injection Hs as <-.
  pose proof (preserves_eq _ _ _ _ _ (orch_prelude ty _) Hp) as (_ & Hstr & _).
  unfold tryStrategies, bind, gets in Ht.
  apply tryLoop_Ok in Ht as (k & st2 & Hin & Ht).
  apply attempt_two in Ht as (s1 & Hne & A1 & A2 & Hcur).
  destruct (adopt_facts ty s st1) as (st3 & Ha' & _ & _ & Hact' & _ & Hobj & _ & Hrel & _).
  rewrite Ha' in Ha. injection Ha as <-.
  exists k, s1. rewrite <- Hstr. split; [done|]. split; [done|].
  destruct A1 as (_ & R1 & _ & T1). destruct A2 as (_ & R2 & _).
  split; [unfold activeUnreleased; by rewrite Hact', Hrel, R2|].
  split; [by rewrite Hrel|].
  unfold theStrategy in *. rewrite Hobj.
  destruct (cls (strategyObjs st1 k)); [done|..];
    destruct T1 as (key & _ & Hg); by exists key.
Qed.

Lemma released_stop st x : released (PerformanceMonitor_stop st).2 x = released st x.
Proof.
  unfold PerformanceMonitor_stop, modify. simpl.
  destruct (negb (pm_isMonitoring (performanceMonitor st))); [done|].
  by destruct (pm_battery (performanceMonitor st)).
Qed.



(** ** What the handlers and [destroy] release *)

(** The handlers' [this.release().catch(console.warn)], once the release
    has settled: the sentinel that the instance held is released and the
    slot is empty. *)
Lemma releaseAndWarn_releases st s :
  filed_ok st -> isReleasing (wl st) = false -> adopted_stored st ->
  activeUnreleased st = Some s ->
  released (releaseAndWarn st).2 s = true /\
  activeSentinel (wl (releaseAndWarn st).2) = None.
Proof.
  intros Hf Hidle Hst Hact. destruct (held_unreleased st s Hact) as (Ha & Hrel).
  pose proof (Hst s Ha) as Hin.
  unfold releaseAndWarn. rewrite swallow_Ok. cbn [snd]. split.
  - rewrite (release_unfolds st s Ha Hrel Hidle).
    set (st1 := set_wl (wl_set_isReleasing true (wl st)) st).
    assert (Hf1 : filed_ok st1) by (eapply filed_loose; [|exact Hf]; by apply loose_same).
    pose proof (sentinel_release_releases s st1 Hf1 Hin) as Hrel1.
    destruct (released_tidy st1 _ s (tidy_sentinel_release s st1) Hin) as (Hin1 & _).
    refine (proj2 (released_tidy _ _ s _ Hin1) Hrel1).
    apply (after_first tidy); intros; tidy_tac.
  - destruct (release_resolves_and_clears st) as (st2 & E & Hc). rewrite E. simpl.
    destruct Hc as (A & _); [by rewrite Hact | done | done].
Qed.

(** X17. When the page becomes hidden or visible again, a
    [visibility-change] notification with the action [none] is emitted
    first.  If the page is hidden and battery optimization is on, the
    handler releases the instance's own sentinel: once the [release()] it
    starts has settled, the sentinel that the instance held is released,
    the slot is empty and the instance holds no unreleased sentinel (what
    else a strategy tracks is not touched).  Otherwise nothing else happens.
    In no case is a lock acquired: a lock let go when the page was hidden
    does not come back when the page is shown again. *)
Theorem hidden_page_releases_the_held_lock hidden st :
  reachable st -> isSSR st = false ->
  let st' := (visibilityChanged hidden st).2 in
  let notified :=
    set_trace (trace st ++ [Emit (visibility_change hidden "none")]) (set_docHidden hidden st) in
  trace_ext notified st' /\
  requestsOf (trace st') = requestsOf (trace st) /\
  (hidden = true -> opt_batteryOptimization (options (wl st)) = true ->
   activeUnreleased st' = None /\
   forall s, activeUnreleased st = Some s ->
     released st' s = true /\ activeSentinel (wl st') = None) /\
  (hidden = false \/ opt_batteryOptimization (options (wl st)) = false \/
   activeUnreleased st = None -> st' = notified).
Proof.
  intros Hr Hssr st' notified.
  assert (Hidle : isReleasing (wl notified) = false) by exact (reachable_idle st Hr).
  destruct (releaseAndWarn_lets_go notified Hidle) as (st2 & E & Hact & Hext & Hreq & Hsame).
  assert (Hrelease : forall s, activeUnreleased st = Some s ->
            released st2 s = true /\ activeSentinel (wl st2) = None).
  { intros s Hs. destruct (reachable_filed st Hr) as (_ & Hf).
    assert (Hfn : filed_ok notified) by (eapply filed_loose; [|exact Hf]; by apply loose_same).
    assert (Hstn : adopted_stored notified) by exact (reachable_stored st Hr).
    pose proof (releaseAndWarn_releases notified s Hfn Hidle Hstn Hs) as H.
    by rewrite E in H. }
  assert (Hn : requestsOf (trace notified) = requestsOf (trace st)).
  { unfold notified. simpl. rewrite requestsOf_app. simpl. by rewrite app_nil_r. }
  assert (Hu : activeUnreleased notified = activeUnreleased st) by done.
  assert (Hv : visibilityChanged hidden st =
               when (hidden && bool_decide (activeSentinel (wl st) <> None) &&
                     opt_batteryOptimization (options (wl st))) releaseAndWarn notified).
  { unfold visibilityChanged, bind, modify, gets, emit, record, isDocumentHidden, isSSR in *.
    simpl. rewrite Hssr. done. }
  unfold st'. rewrite Hv.
  destruct hidden; simpl.
  - case_bool_decide as Hsome; simpl.
    + destruct (opt_batteryOptimization (options (wl st))) eqn:Hopt; simpl.
      * rewrite E. simpl. split; [done|]. split; [congruence|].
        split; [intros _ _; split; [done | exact Hrelease]|].
        intros [?|[?|Hnone]]; [done..|]. apply Hsame. by rewrite Hu.
      * split; [reflexivity|]. split; [done|]. split; [done|]. done.
    + split; [reflexivity|]. split; [done|]. split; [|done].
      intros _ _. split.
      * rewrite Hu. unfold activeUnreleased. by rewrite Hsome.
      * intros s Hs. unfold activeUnreleased in Hs. by rewrite Hsome in Hs.
  - split; [reflexivity|]. split; [done|]. split; [done|]. done.
Qed.

Lemma hidden_page_releases_the_held_lock_witness :
  released timerScreenHeld 1%nat = false /\
  released (visibilityChanged true timerScreenHeld).2 1%nat = true /\
  activeSentinel (wl (visibilityChanged true timerScreenHeld).2) = None.
Proof.
  split; [by vm_compute|].
  assert (Hr : reachable timerScreenHeld) by apply reachable_run, reachable_new.
  assert (Hssr : isSSR timerScreenHeld = false) by reflexivity.
  pose proof (hidden_page_releases_the_held_lock true timerScreenHeld Hr Hssr) as H.
  cbv zeta in H. destruct H as (_ & _ & H & _).
  destruct (H eq_refl eq_refl) as (_ & H1). apply H1. vm_compute. reflexivity.
Defined.




